(** * OpenClaw agent invocation pipeline: a shallow embedding

    Part I embeds the TypeScript sources:

    - [src/media/parse.ts]: module [MediaParse];
    - [auto-reply/command-reply.ts]: modules [ReplyText] (text helpers),
      [ArgvBuild] (the argv before and after [buildArgs]), [Argv] (the argv
      handed to the runner), [Reducer] (the callbacks of [run]) and
      [AfterRun] (from the exit of the subprocess to the returned
      payloads);
    - [src/auto-reply/reply/abort.ts]: module [SessionAbort];
    - [src/cron/service/store.ts]: module [CronStore];

    and closes with module [Examples]: concrete functions and inputs to run
    the embedding on.

    Part II states and proves the properties, one module of facts per
    module of the embedding, and [MediaCleanFacts] for what a second run of
    the media extraction does.

    Functions of the repository that these files import from files not at
    hand are parameters of the embedding (section variables), each named
    after the function it stands for.

    Strings are lists of ASCII characters.  The JavaScript sources work on
    UTF-16 code units; the embedding covers ASCII text, for which [length],
    [slice], [toLowerCase], the [\s], [\w] and [\b] classes of regular
    expressions and [trim] coincide with the definitions below. *)

From Stdlib Require Import ZArith Ascii String List Bool Lia DecimalString.
From stdpp Require Import gmap strings.
Import ListNotations.

Local Open Scope nat_scope.

Abbreviation jstring := (list ascii).

(** * Part I: the embedding *)

(** ** JavaScript string primitives *)

Module Js.

Definition str (s : string) : jstring := list_ascii_of_string s.
Arguments str s%_string.

Definition code (c : ascii) : nat := nat_of_ascii c.

Definition chr_eqb (a b : ascii) : bool := Ascii.eqb a b.

(** [\s] restricted to ASCII: tab, line feed, vertical tab, form feed,
    carriage return, space. *)
Definition isSpace (c : ascii) : bool :=
  let n := code c in ((9 <=? n) && (n <=? 13)) || (n =? 32).

(** [[ \t]] *)
Definition isBlank (c : ascii) : bool :=
  let n := code c in (n =? 32) || (n =? 9).

Definition isUpper (c : ascii) : bool :=
  let n := code c in (65 <=? n) && (n <=? 90).

Definition isLower (c : ascii) : bool :=
  let n := code c in (97 <=? n) && (n <=? 122).

Definition isDigit (c : ascii) : bool :=
  let n := code c in (48 <=? n) && (n <=? 57).

(** [\w] *)
Definition isWord (c : ascii) : bool :=
  isUpper c || isLower c || isDigit c || (code c =? 95).

Definition lowerChar (c : ascii) : ascii :=
  if isUpper c then ascii_of_nat (code c + 32) else c.

Definition toLowerCase (s : jstring) : jstring := map lowerChar s.

Fixpoint eqb (a b : jstring) : bool :=
  match a, b with
  | [], [] => true
  | x :: a', y :: b' => chr_eqb x y && eqb a' b'
  | _, _ => false
  end.

Fixpoint dropWhile (p : ascii -> bool) (s : jstring) : jstring :=
  match s with
  | [] => []
  | c :: s' => if p c then dropWhile p s' else s
  end.

Fixpoint takeWhile (p : ascii -> bool) (s : jstring) : jstring :=
  match s with
  | [] => []
  | c :: s' => if p c then c :: takeWhile p s' else []
  end.

Definition trimStart (s : jstring) : jstring := dropWhile isSpace s.
Definition trimEnd (s : jstring) : jstring := rev (dropWhile isSpace (rev s)).
Definition trim (s : jstring) : jstring := trimStart (trimEnd s).

(** Truthiness of a string: non-empty. *)
Definition truthy (s : jstring) : bool :=
  match s with [] => false | _ :: _ => true end.

Fixpoint startsWith (p s : jstring) : bool :=
  match p, s with
  | [], _ => true
  | a :: p', b :: s' => chr_eqb a b && startsWith p' s'
  | _ :: _, [] => false
  end.

(** Case-insensitive prefix test, as a regular expression with flag [i]
    does for an ASCII literal. *)
Fixpoint startsWithCI (p s : jstring) : bool :=
  match p, s with
  | [], _ => true
  | a :: p', b :: s' => chr_eqb (lowerChar a) (lowerChar b) && startsWithCI p' s'
  | _ :: _, [] => false
  end.

(** [s.slice(a, b)] for [0 <= a], [0 <= b]. *)
Definition slice (a b : nat) (s : jstring) : jstring := firstn (b - a) (skipn a s).

(** [s.split(sep)] for a one-character separator: never the empty list. *)
Fixpoint splitChar (sep : ascii) (s : jstring) : list jstring :=
  match s with
  | [] => [[]]
  | c :: s' =>
      if chr_eqb c sep then [] :: splitChar sep s'
      else match splitChar sep s' with
           | [] => [[c]]
           | w :: ws => (c :: w) :: ws
           end
  end.

Fixpoint join (sep : jstring) (l : list jstring) : jstring :=
  match l with
  | [] => []
  | [x] => x
  | x :: rest => x ++ sep ++ join sep rest
  end.

(** [s.split(/\s+/).filter(Boolean)]: the maximal runs of non-space
    characters. *)
Fixpoint wordsAux (cur : jstring) (s : jstring) : list jstring :=
  match s with
  | [] => match cur with [] => [] | _ => [rev cur] end
  | c :: s' =>
      if isSpace c
      then match cur with [] => wordsAux [] s' | _ => rev cur :: wordsAux [] s' end
      else wordsAux (c :: cur) s'
  end.

Definition words (s : jstring) : list jstring := wordsAux [] s.

(** [s.includes(p)] *)
Fixpoint includes (p s : jstring) : bool :=
  startsWith p s || match s with [] => false | _ :: s' => includes p s' end.

Fixpoint includesCI (p s : jstring) : bool :=
  startsWithCI p s || match s with [] => false | _ :: s' => includesCI p s' end.

(** [s.replace(/c{2,}/g, r)] for a character class [cls]: every maximal run
    of at least two class characters becomes [r]. *)
Fixpoint collapseRuns2 (cls : ascii -> bool) (r : jstring) (fuel : nat) (s : jstring) : jstring :=
  match fuel with
  | 0 => s
  | S fuel' =>
      match s with
      | [] => []
      | c :: s' =>
          if cls c then
            match takeWhile cls s' with
            | [] => c :: collapseRuns2 cls r fuel' s'
            | _ :: _ => r ++ collapseRuns2 cls r fuel' (dropWhile cls s')
            end
          else c :: collapseRuns2 cls r fuel' s'
      end
  end.

(** [s.replace(/c+/g, r)]: every maximal run of class characters becomes [r]. *)
Fixpoint collapseRuns1 (cls : ascii -> bool) (r : jstring) (fuel : nat) (s : jstring) : jstring :=
  match fuel with
  | 0 => s
  | S fuel' =>
      match s with
      | [] => []
      | c :: s' =>
          if cls c then r ++ collapseRuns1 cls r fuel' (dropWhile cls s')
          else c :: collapseRuns1 cls r fuel' s'
      end
  end.

Definition LF : ascii := ascii_of_nat 10.
Definition isLF (c : ascii) : bool := code c =? 10.

(** [s.replace(/[ \t]+\n/g, "\n")]: a run of blanks is deleted when a line
    feed follows it directly. *)
Fixpoint stripBlanksBeforeLF (fuel : nat) (s : jstring) : jstring :=
  match fuel with
  | 0 => s
  | S fuel' =>
      match s with
      | [] => []
      | c :: s' =>
          if isBlank c then
            match dropWhile isBlank s' with
            | d :: rest =>
                if isLF d then d :: stripBlanksBeforeLF fuel' rest
                else c :: stripBlanksBeforeLF fuel' s'
            | [] => c :: stripBlanksBeforeLF fuel' s'
            end
          else c :: stripBlanksBeforeLF fuel' s'
      end
  end.

(** [s.replace(re, "")] for a case-insensitive literal [p] with flag [g]. *)
Fixpoint removeAllCI (p : jstring) (fuel : nat) (s : jstring) : jstring :=
  match fuel with
  | 0 => s
  | S fuel' =>
      match s with
      | [] => []
      | c :: s' =>
          if truthy p && startsWithCI p s
          then removeAllCI p fuel' (skipn (length p) s)
          else c :: removeAllCI p fuel' s'
      end
  end.

(** [squeeze s s']: [s'] is [s] with white space taken out or replaced in
    the ways the clean-up replacements do it: a blank may become a space,
    and a white-space character may be deleted when white space follows it
    in [s'], a line feed only before a line feed.  Two characters that are
    not white space and stand side by side in [s'] stood side by side in
    [s]. *)
Inductive squeeze : jstring -> jstring -> Prop :=
| squeeze_nil : squeeze [] []
| squeeze_keep (c : ascii) (s s' : jstring) :
    squeeze s s' -> squeeze (c :: s) (c :: s')
| squeeze_blank (b : ascii) (s s' : jstring) :
    isBlank b = true -> squeeze s s' -> squeeze (b :: s) (ascii_of_nat 32 :: s')
| squeeze_drop (w y : ascii) (s s' : jstring) :
    isSpace w = true -> isSpace y = true -> (isLF w = true -> isLF y = true) ->
    squeeze s (y :: s') -> squeeze (w :: s) (y :: s').

End Js.

(** ** JSON values *)

Module Json.
Import Js.

#[local] Set Warnings "-register-all".

(** A parsed JSON value.  A number keeps its literal; an object keeps its
    members in source order. *)
Inductive json :=
| JNull
| JBool (b : bool)
| JNum (lit : jstring)
| JStr (s : jstring)
| JArr (items : list json)
| JObj (members : list (jstring * json)).

(** [v.k] for a parsed value: [undefined] ([None]) when [v] is no object or
    has no member [k]; of two members with one key the later one wins, as
    in [JSON.parse]. *)
Fixpoint lookupMember (k : jstring) (ms : list (jstring * json)) : option json :=
  match ms with
  | [] => None
  | (k', v) :: rest =>
      match lookupMember k rest with
      | Some later => Some later
      | None => if eqb k k' then Some v else None
      end
  end.

Definition field (k : string) (v : json) : option json :=
  match v with
  | JObj ms => lookupMember (str k) ms
  | _ => None
  end.

(** [v?.k] on a possibly undefined value. *)
Definition ofield (k : string) (v : option json) : option json :=
  match v with Some j => field k j | None => None end.

(** [a ?? b]: [null] and [undefined] fall through. *)
Definition nullish (v : option json) : bool :=
  match v with None | Some JNull => true | _ => false end.

Definition coalesce (a b : option json) : option json :=
  if nullish a then b else a.

(** [typeof v === "string" ? v : undefined] *)
Definition asString (v : option json) : option jstring :=
  match v with Some (JStr s) => Some s | _ => None end.

(** [v === "literal"] *)
Definition isStr (lit : string) (v : option json) : bool :=
  match v with Some (JStr s) => eqb s (str lit) | _ => false end.

(** [Array.isArray(v)] *)
Definition asArray (v : option json) : option (list json) :=
  match v with Some (JArr l) => Some l | _ => None end.

(** Truthiness of a value. *)
Definition truthyJ (v : option json) : bool :=
  match v with
  | None | Some JNull | Some (JBool false) => false
  | Some (JStr s) => truthy s
  | Some (JNum lit) =>
      negb (forallb (fun c => existsb (chr_eqb c) (str "0.-+eE")) lit)
  | _ => true
  end.

(** *** A reader for the JSON text of ASCII lines *)

Definition isJsonWs (c : ascii) : bool :=
  let n := code c in (n =? 32) || (n =? 9) || (n =? 10) || (n =? 13).

Definition skipWs (s : jstring) : jstring := dropWhile isJsonWs s.

Definition hexVal (c : ascii) : option nat :=
  let n := code c in
  if isDigit c then Some (n - 48)
  else if (97 <=? n) && (n <=? 102) then Some (n - 87)
  else if (65 <=? n) && (n <=? 70) then Some (n - 55)
  else None.

(** The body of a string literal after its opening quote.  Escapes of code
    units above 127 lie outside the ASCII texts of the embedding and are
    refused. *)
Fixpoint readString (fuel : nat) (acc : jstring) (s : jstring) : option (jstring * jstring) :=
  match fuel with
  | 0 => None
  | S fuel' =>
      match s with
      | [] => None
      | c :: r =>
          if code c =? 34 then Some (rev acc, r)
          else if code c <? 32 then None
          else if code c =? 92 then
            match r with
            | e :: r' =>
                let simple (x : nat) := readString fuel' (ascii_of_nat x :: acc) r' in
                match code e with
                | 34 => simple 34 | 92 => simple 92 | 47 => simple 47
                | 98 => simple 8 | 102 => simple 12 | 110 => simple 10
                | 114 => simple 13 | 116 => simple 9
                | 117 =>
                    match r' with
                    | h1 :: h2 :: h3 :: h4 :: r'' =>
                        match hexVal h1, hexVal h2, hexVal h3, hexVal h4 with
                        | Some a, Some b, Some c', Some d =>
                            let n := ((a * 16 + b) * 16 + c') * 16 + d in
                            if n <? 128 then readString fuel' (ascii_of_nat n :: acc) r''
                            else None
                        | _, _, _, _ => None
                        end
                    | _ => None
                    end
                | _ => None
                end
            | [] => None
            end
          else readString fuel' (c :: acc) r
      end
  end.

(** A number literal: an optional minus sign, an integer part without
    leading zero, an optional fraction and an optional exponent. *)
Definition readNumber (s : jstring) : option (jstring * jstring) :=
  let '(sign, s1) :=
    match s with
    | c :: r => if code c =? 45 then ([c], r) else ([], s)
    | [] => ([], s)
    end in
  let int := takeWhile isDigit s1 in
  let s2 := dropWhile isDigit s1 in
  let intOk :=
    match int with
    | [] => false
    | [_] => true
    | d :: _ => negb (code d =? 48)
    end in
  if negb intOk then None else
  let '(frac, s3, fracOk) :=
    match s2 with
    | c :: r =>
        if code c =? 46
        then let f := takeWhile isDigit r in (c :: f, dropWhile isDigit r, truthy f)
        else ([], s2, true)
    | [] => ([], s2, true)
    end in
  if negb fracOk then None else
  let '(ex, s4, exOk) :=
    match s3 with
    | c :: r =>
        if (code c =? 101) || (code c =? 69) then
          let '(sg, r1) :=
            match r with
            | x :: r' => if (code x =? 43) || (code x =? 45) then ([x], r') else ([], r)
            | [] => ([], r)
            end in
          let e := takeWhile isDigit r1 in
          (c :: sg ++ e, dropWhile isDigit r1, truthy e)
        else ([], s3, true)
    | [] => ([], s3, true)
    end in
  if negb exOk then None else Some (sign ++ int ++ frac ++ ex, s4).

Fixpoint readValue (fuel : nat) (s : jstring) : option (json * jstring) :=
  match fuel with
  | 0 => None
  | S fuel' =>
      match skipWs s with
      | [] => None
      | c :: r =>
          if code c =? 34 then
            match readString (length r) [] r with
            | Some (x, r') => Some (JStr x, r')
            | None => None
            end
          else if code c =? 123 then
            match skipWs r with
            | d :: r' =>
                if code d =? 125 then Some (JObj [], r')
                else readMembers fuel' [] r
            | [] => None
            end
          else if code c =? 91 then
            match skipWs r with
            | d :: r' =>
                if code d =? 93 then Some (JArr [], r')
                else readItems fuel' [] r
            | [] => None
            end
          else if startsWith (str "true") (c :: r) then Some (JBool true, skipn 4 (c :: r))
          else if startsWith (str "false") (c :: r) then Some (JBool false, skipn 5 (c :: r))
          else if startsWith (str "null") (c :: r) then Some (JNull, skipn 4 (c :: r))
          else match readNumber (c :: r) with
               | Some (lit, r') => Some (JNum lit, r')
               | None => None
               end
      end
  end
with readItems (fuel : nat) (acc : list json) (s : jstring) : option (json * jstring) :=
  match fuel with
  | 0 => None
  | S fuel' =>
      match readValue fuel' s with
      | Some (v, r) =>
          match skipWs r with
          | c :: r' =>
              if code c =? 44 then readItems fuel' (v :: acc) r'
              else if code c =? 93 then Some (JArr (rev (v :: acc)), r')
              else None
          | [] => None
          end
      | None => None
      end
  end
with readMembers (fuel : nat) (acc : list (jstring * json)) (s : jstring)
  : option (json * jstring) :=
  match fuel with
  | 0 => None
  | S fuel' =>
      match skipWs s with
      | q :: r0 =>
          if code q =? 34 then
            match readString (length r0) [] r0 with
            | Some (k, r1) =>
                match skipWs r1 with
                | c :: r2 =>
                    if code c =? 58 then
                      match readValue fuel' r2 with
                      | Some (v, r3) =>
                          match skipWs r3 with
                          | d :: r4 =>
                              if code d =? 44 then readMembers fuel' ((k, v) :: acc) r4
                              else if code d =? 125 then Some (JObj (rev ((k, v) :: acc)), r4)
                              else None
                          | [] => None
                          end
                      | None => None
                      end
                    else None
                | [] => None
                end
            | None => None
            end
          else None
      | [] => None
      end
  end.

(** [JSON.parse(line)], [None] when it throws. *)
Definition parse (line : jstring) : option json :=
  match readValue (S (length line)) line with
  | Some (v, rest) => match skipWs rest with [] => Some v | _ => None end
  | None => None
  end.

End Json.

(** ** [src/media/parse.ts] *)

Module MediaParse.
Import Js.

(** A fenced code block, as [parseFenceSpans] of [markdown/fences.ts]
    reports it: character offsets [start] (inclusive) and [end] (exclusive). *)
Record FenceSpan := { span_start : nat; span_end : nat }.

(** The result object of [splitMediaFromOutput]; an absent property is
    [None]. *)
Record SplitResult := {
  text : jstring;
  mediaUrls : option (list jstring);
  mediaUrl : option jstring;
  audioAsVoice : option bool
}.

(** [normalizeMediaSource] *)
Definition normalizeMediaSource (src : jstring) : jstring :=
  if startsWith (str "file://") src then skipn 7 src else src.

Definition isOpenWrap (c : ascii) : bool :=
  existsb (chr_eqb c) (str "`" ++ [ascii_of_nat 34] ++ str "'[{(").

Definition isCloseWrap (c : ascii) : bool :=
  existsb (chr_eqb c) (str "`" ++ [ascii_of_nat 34] ++ str "'\})],").

(** [cleanCandidate]: the leading run of opening wrappers and the trailing
    run of closing wrappers are removed. *)
Definition cleanCandidate (raw : jstring) : jstring :=
  rev (dropWhile isCloseWrap (rev (dropWhile isOpenWrap raw))).

(** [/^https?:\/\//i] *)
Definition isHttpUrl (s : jstring) : bool :=
  startsWithCI (str "http://") s || startsWithCI (str "https://") s.

(** [isValidMedia] *)
Definition isValidMedia (candidate : jstring) : bool :=
  if negb (truthy candidate) then false
  else if 1024 <? length candidate then false
  else if existsb isSpace candidate then false
  else isHttpUrl candidate
       || startsWith (str "/") candidate
       || startsWith (str "./") candidate.

(** [isInsideFence] *)
Definition isInsideFence (fenceSpans : list FenceSpan) (offset : nat) : bool :=
  existsb (fun span => (span_start span <=? offset) && (offset <? span_end span)) fenceSpans.

(** One match of [MEDIA_TOKEN_RE]: [m_index] is [match.index], [m_payload]
    is the capture group [match[1]], [m_length] is [match[0].length]. *)
Record TokenMatch := { m_index : nat; m_payload : jstring; m_length : nat }.

Definition isBacktick (c : ascii) : bool := code c =? 96.
Definition notLF (c : ascii) : bool := negb (isLF c).

(** The part of [MEDIA_TOKEN_RE] after the literal [MEDIA:], i.e.
    [\s*`?([^\n]+)`?], tried on [rest] with [k] space characters given to
    [\s*]: first with the optional backtick taken, then without it.  The
    greedy group takes every character up to the next line feed, so the
    closing [`?] always matches the empty string.  Returns the capture and
    the number of characters consumed. *)
Definition tailAt (k : nat) (rest : jstring) : option (jstring * nat) :=
  let after := skipn k rest in
  let plain := takeWhile notLF after in
  match after with
  | c :: after' =>
      if isBacktick c then
        let g := takeWhile notLF after' in
        if truthy g then Some (g, k + 1 + length g)
        else Some (plain, k + length plain)
      else if truthy plain then Some (plain, k + length plain) else None
  | [] => None
  end.

(** Backtracking of the greedy [\s*]: the longest run first. *)
Fixpoint tailFrom (k : nat) (rest : jstring) : option (jstring * nat) :=
  match tailAt k rest with
  | Some r => Some r
  | None => match k with
            | 0 => None
            | S k' => tailFrom k' rest
            end
  end.

Definition mediaTail (rest : jstring) : option (jstring * nat) :=
  tailFrom (length (takeWhile isSpace rest)) rest.

(** [Array.from(line.matchAll(MEDIA_TOKEN_RE))]: the scan goes left to
    right; [prev] is the character before the current position (for [\b]),
    [pos] the current offset.  After a match the scan resumes behind it. *)
Fixpoint matchAllFrom (fuel : nat) (prev : option ascii) (pos : nat) (s : jstring)
  : list TokenMatch :=
  match fuel with
  | 0 => []
  | S fuel' =>
      match s with
      | [] => []
      | c :: s' =>
          let boundary := match prev with None => true | Some p => negb (isWord p) end in
          let here :=
            if boundary && startsWithCI (str "MEDIA:") s
            then mediaTail (skipn 6 s) else None in
          match here with
          | Some (payload, n) =>
              let len := 6 + n in
              {| m_index := pos; m_payload := payload; m_length := len |}
                :: matchAllFrom fuel' (Some (List.last (firstn len s) c)) (pos + len) (skipn len s)
          | None => matchAllFrom fuel' (Some c) (pos + 1) s'
          end
      end
  end.

Definition matchAll (line : jstring) : list TokenMatch :=
  matchAllFrom (length line) None 0 line.

(** The state of the loop [for (const match of matches)]. *)
Record LineState := {
  pieces : list jstring;
  cursor : nat;
  hasValidMedia : bool;
  found : list jstring   (* what the loop pushed to [media] *)
}.

(** [normalizeMediaSource(cleanCandidate(part))] *)
Definition candidateOf (part : jstring) : jstring :=
  normalizeMediaSource (cleanCandidate part).

Definition validPart (part : jstring) : bool := isValidMedia (candidateOf part).

(** The inner loop [for (const part of parts)]: returns [media] additions,
    [hasValidMedia] and [invalidParts]. *)
Fixpoint scanParts (parts : list jstring) (valid : bool)
  : list jstring * bool * list jstring :=
  match parts with
  | [] => ([], valid, [])
  | part :: rest =>
      let candidate := candidateOf part in
      if isValidMedia candidate then
        let '(m, v, inv) := scanParts rest true in (candidate :: m, v, inv)
      else
        let '(m, v, inv) := scanParts rest valid in (m, v, part :: inv)
  end.

Definition stepMatch (line : jstring) (st : LineState) (m : TokenMatch) : LineState :=
  let start := m_index m in
  let pieces1 := pieces st ++ [slice (cursor st) start line] in
  let parts := words (m_payload m) in
  let '(added, valid, invalidParts) := scanParts parts (hasValidMedia st) in
  let pieces2 :=
    if valid && negb (length invalidParts =? 0)
    then pieces1 ++ [join (str " ") invalidParts] else pieces1 in
  {| pieces := pieces2; cursor := start + m_length m;
     hasValidMedia := valid; found := found st ++ added |}.

(** The state of the loop [for (const line of lines)]. *)
Record Scan := {
  keptLines : list jstring;
  media : list jstring;
  foundMediaToken : bool;
  lineOffset : nat
}.

Definition stepLine (fenceSpans : list FenceSpan) (sc : Scan) (line : jstring) : Scan :=
  let next := lineOffset sc + (length line + 1) in
  if isInsideFence fenceSpans (lineOffset sc) then
    {| keptLines := keptLines sc ++ [line]; media := media sc;
       foundMediaToken := foundMediaToken sc; lineOffset := next |}
  else
    match matchAll line with
    | [] =>
        {| keptLines := keptLines sc ++ [line]; media := media sc;
           foundMediaToken := foundMediaToken sc; lineOffset := next |}
    | matches =>
        let st := fold_left (stepMatch line) matches
                    {| pieces := []; cursor := 0; hasValidMedia := false; found := [] |} in
        let pieces' := pieces st ++ [skipn (cursor st) line] in
        let joined := concat pieces' in
        let cleanedLine := trim (collapseRuns2 isBlank (str " ") (length joined) joined) in
        {| keptLines := if truthy cleanedLine then keptLines sc ++ [cleanedLine]
                        else keptLines sc;
           media := media sc ++ found st;
           foundMediaToken := true; lineOffset := next |}
    end.

Definition scanLines (fenceSpans : list FenceSpan) (lines : list jstring) : Scan :=
  fold_left (stepLine fenceSpans) lines
    {| keptLines := []; media := []; foundMediaToken := false; lineOffset := 0 |}.

Definition AUDIO_TAG : jstring := str "[[audio_as_voice]]".

(** [keptLines.join("\n")] followed by the three whitespace replacements and
    [trim]. *)
Definition cleanJoined (kept : list jstring) : jstring :=
  let j := join [LF] kept in
  let a := stripBlanksBeforeLF (length j) j in
  let b := collapseRuns2 isBlank (str " ") (length a) a in
  let c := collapseRuns2 isLF [LF] (length b) b in
  trim c.

(** The branch taken when the audio tag is present. *)
Definition stripAudioTag (cleanedText : jstring) : jstring :=
  let a := removeAllCI AUDIO_TAG (length cleanedText) cleanedText in
  let b := collapseRuns1 isBlank (str " ") (length a) a in
  let c := collapseRuns2 isLF [LF] (length b) b in
  trim c.

Section WithFences.

(** [parseFenceSpans] lives in [markdown/fences.ts], outside the files at
    hand: it is a parameter of the embedding. *)
Variable parseFenceSpans : jstring -> list FenceSpan.

Definition scanOf (trimmedRaw : jstring) : Scan :=
  scanLines (parseFenceSpans trimmedRaw) (splitChar LF trimmedRaw).

Definition hasAudioAsVoiceIn (sc : Scan) : bool :=
  includesCI AUDIO_TAG (cleanJoined (keptLines sc)).

(** [splitMediaFromOutput] *)
Definition splitMediaFromOutput (raw : jstring) : SplitResult :=
  let trimmedRaw := trimEnd raw in
  if negb (truthy (trim trimmedRaw)) then
    {| text := []; mediaUrls := None; mediaUrl := None; audioAsVoice := None |}
  else
    let sc := scanOf trimmedRaw in
    let cleaned0 := cleanJoined (keptLines sc) in
    let hasAudioAsVoice := includesCI AUDIO_TAG cleaned0 in
    let cleanedText := if hasAudioAsVoice then stripAudioTag cleaned0 else cleaned0 in
    match media sc with
    | [] =>
        {| text := if foundMediaToken sc || hasAudioAsVoice then cleanedText else trimmedRaw;
           mediaUrls := None; mediaUrl := None;
           audioAsVoice := if hasAudioAsVoice then Some true else None |}
    | first :: _ =>
        {| text := cleanedText;
           mediaUrls := Some (media sc);
           mediaUrl := Some first;
           audioAsVoice := if hasAudioAsVoice then Some true else None |}
    end.

(** The valid candidates found in [raw]: what the loop pushed to [media]. *)
Definition collectedMedia (raw : jstring) : list jstring :=
  if negb (truthy (trim (trimEnd raw))) then []
  else media (scanOf (trimEnd raw)).

End WithFences.

(** Every element passed [isValidMedia]. *)
Definition allValid (l : list jstring) : Prop :=
  Forall (fun u => isValidMedia u = true) l.

(** What the scan has collected is valid, and nothing is collected before a
    token was seen. *)
Definition scanOk (sc : Scan) : Prop :=
  allValid (media sc) /\ (foundMediaToken sc = false -> media sc = []).

Definition nonEmpty {A : Type} (l : list A) : bool :=
  match l with [] => false | _ :: _ => true end.

(** A line as [split("\n")] yields them: without line feed. *)
Definition noLF (s : jstring) : Prop := forallb notLF s = true.

(** *** Where a token stands *)

(** [\b] before a position: the start of the text, or a character that is
    not a word character.  ([MEDIA:] starts with a word character.) *)
Definition boundaryAt (prev : option ascii) : bool :=
  match prev with None => true | Some p => negb (isWord p) end.

(** [tokenAt s]: [s] starts with [MEDIA:], in any case, and a character
    other than the line feed follows: [\s*`?([^\n]+)`?] matches what
    follows exactly then. *)
Definition tokenAt (s : jstring) : bool :=
  startsWithCI (str "MEDIA:") s
  && match skipn 6 s with c :: _ => notLF c | [] => false end.

(** [tokenAhead prev s]: [MEDIA_TOKEN_RE] matches somewhere in [s], [prev]
    being the character before [s]. *)
Fixpoint tokenAhead (prev : option ascii) (s : jstring) : bool :=
  match s with
  | [] => false
  | c :: s' => (boundaryAt prev && tokenAt s) || tokenAhead (Some c) s'
  end.

(** The invalid parts that the loop over the matches of [line] puts back
    into the line: those of a token that also gave a valid candidate. *)
Definition leftoverOf (line : jstring) : jstring :=
  match matchAll line with
  | m :: _ =>
      let parts := words (m_payload m) in
      if existsb validPart parts
      then join (str " ") (List.filter (fun p => negb (validPart p)) parts)
      else []
  | [] => []
  end.

(** The lines that the scan passes over as fenced code; [offset] is the
    offset of the first line. *)
Fixpoint fencedLines (fenceSpans : list FenceSpan) (offset : nat) (lines : list jstring)
  : list jstring :=
  match lines with
  | [] => []
  | line :: rest =>
      (if isInsideFence fenceSpans offset then [line] else [])
        ++ fencedLines fenceSpans (offset + (length line + 1)) rest
  end.

End MediaParse.

(** ** [auto-reply/command-reply.ts]: text helpers *)

Module ReplyText.
Import Js Json.

Definition notRBracket (c : ascii) : bool := negb (code c =? 93).

(** [text.replace(/\[[^\]]+\]\s*/g, "")]: an opening bracket, at least one
    character other than the closing bracket, the closing bracket and the
    white space behind it. *)
Fixpoint stripBracketTags (fuel : nat) (s : jstring) : jstring :=
  match fuel with
  | 0 => s
  | S fuel' =>
      match s with
      | [] => []
      | c :: r =>
          if code c =? 91 then
            match dropWhile notRBracket r with
            | _ :: after =>
                if truthy (takeWhile notRBracket r)
                then stripBracketTags fuel' (dropWhile isSpace after)
                else c :: stripBracketTags fuel' r
            | [] => c :: stripBracketTags fuel' r
            end
          else c :: stripBracketTags fuel' r
      end
  end.

(** [[A-Za-z0-9+()\-_. ]] *)
Definition isLabelChar (c : ascii) : bool :=
  isUpper c || isLower c || isDigit c || existsb (chr_eqb c) (str "+()-_. ").

Definition endsWithSpace (p : jstring) : bool :=
  match rev p with c :: _ => code c =? 32 | [] => false end.

(** Length of the match of [[ \t]*[A-Za-z0-9+()\-_. ]+:\s*] at the head of
    [s], if there is one.  The label class contains the space but not the
    tab and not the colon: the match exists when the colon follows the run
    of label characters, and that run is non-empty or can borrow a space
    from the end of the leading blanks. *)
Definition labelPrefixLen (s : jstring) : option nat :=
  let p := takeWhile isBlank s in
  let r0 := dropWhile isBlank s in
  let q := takeWhile isLabelChar r0 in
  match dropWhile isLabelChar r0 with
  | d :: after =>
      if (code d =? 58) && (truthy q || endsWithSpace p)
      then Some (length p + length q + 1 + length (takeWhile isSpace after))
      else None
  | [] => None
  end.

Definition isLineTerminator (c : ascii) : bool := (code c =? 10) || (code c =? 13).

(** [text.replace(/^[ \t]*[A-Za-z0-9+()\-_. ]+:\s*/gm, "")]: with flag [m]
    the anchor holds at the start of the text and behind a line
    terminator; [prev] is the character before the current position. *)
Fixpoint stripLabels (fuel : nat) (prev : option ascii) (s : jstring) : jstring :=
  match fuel with
  | 0 => s
  | S fuel' =>
      match s with
      | [] => []
      | c :: r =>
          let atStart :=
            match prev with None => true | Some p => isLineTerminator p end in
          match (if atStart then labelPrefixLen s else None) with
          | Some n => stripLabels fuel' (Some (List.last (firstn n s) c)) (skipn n s)
          | None => c :: stripLabels fuel' (Some c) r
          end
      end
  end.

(** [stripStructuralPrefixes] *)
Definition stripStructuralPrefixes (text : jstring) : jstring :=
  let a := stripBracketTags (length text) text in
  let b := stripLabels (length a) None a in
  let c := collapseRuns1 isSpace (str " ") (length b) b in
  trim c.

(** [raw.split(/\n+/)]: a run of line feeds is one separator. *)
Definition splitLines (raw : jstring) : list jstring :=
  splitChar LF (collapseRuns1 isLF [LF] (length raw) raw).

Section WithParser.

(** [JSON.parse] of the platform, [None] when it throws. *)
Variable JSON_parse : jstring -> option json.

(** The body of the [try] block of [stripRpcNoise]: [true] when the line is
    skipped by one of the [continue] statements. *)
Definition noiseLine (evt : json) : bool :=
  let type := field "type" evt in
  let msg := coalesce (field "message" evt) (field "assistantMessageEvent" evt) in
  let role := ofield "role" msg in
  if isStr "message_start" type then true
  else if isStr "message_update" type then true
  else if isStr "input_audio_buffer.append" type then true
  else
    let isAssistant := isStr "assistant" role in
    let isToolRole :=
      match asString role with
      | Some r => includes (str "tool") (toLowerCase r)
      | None => false
      end in
    if negb isAssistant && negb isToolRole then true
    else
      match isAssistant, asArray (ofield "content" msg) with
      | true, Some content =>
          let hasText := existsb (fun c => isStr "text" (field "type" c)) content in
          let hasUsage :=
            match ofield "usage" msg with
            | Some (JObj ms) =>
                negb (nullish (field "input" (JObj ms)))
                || negb (nullish (field "output" (JObj ms)))
            | _ => false
            end in
          negb hasText && negb hasUsage
      | _, _ => false
      end.

(** [stripRpcNoise] *)
Definition stripRpcNoise (raw : jstring) : jstring :=
  let keep (line : jstring) : bool :=
    match JSON_parse line with
    | Some evt => if noiseLine evt then false else truthy (trim line)
    | None => truthy (trim line)
    end in
  join [LF] (List.filter keep (splitLines raw)).

(** The state of the loop of [extractRpcAssistantText]. *)
Record Extract := { deltaBuffer : jstring; lastAssistant : option jstring }.

Definition textOfContent (content : list json) : jstring :=
  let texts :=
    flat_map (fun c =>
      match isStr "text" (field "type" c), asString (field "text" c) with
      | true, Some t => [t]
      | _, _ => []
      end) content in
  trim (join [LF] texts).

(** One turn of the loop.  A line that does not parse, or parses to [null]
    (reading [evt.type] throws), is ignored by the [catch]. *)
Definition extractStep (st : Extract) (line : jstring) : Extract :=
  match JSON_parse line with
  | None | Some JNull => st
  | Some evt =>
      let st1 :=
        match isStr "message_end" (field "type" evt)
              && isStr "assistant" (ofield "role" (field "message" evt)),
              asArray (ofield "content" (field "message" evt)) with
        | true, Some content =>
            let text := textOfContent content in
            if truthy text then {| deltaBuffer := []; lastAssistant := Some text |} else st
        | _, _ => st
        end in
      if isStr "message_update" (field "type" evt)
         && truthyJ (field "assistantMessageEvent" evt) then
        let ame := field "assistantMessageEvent" evt in
        let evtType := ofield "type" ame in
        if isStr "text_delta" evtType || isStr "text_end" evtType || isStr "text_start" evtType then
          let chunk :=
            match asString (ofield "delta" ame) with
            | Some d => d
            | None => match asString (ofield "content" ame) with
                      | Some c => c
                      | None => []
                      end
            end in
          if truthy chunk then
            {| deltaBuffer := deltaBuffer st1 ++ chunk;
               lastAssistant := Some (deltaBuffer st1 ++ chunk) |}
          else st1
        else st1
      else st1
  end.

(** [extractRpcAssistantText] *)
Definition extractRpcAssistantText (raw : jstring) : option jstring :=
  if negb (truthy (trim raw)) then None
  else
    let st := fold_left extractStep (splitLines raw)
                {| deltaBuffer := []; lastAssistant := None |} in
    match lastAssistant st with
    | Some t => if truthy (trim t) then Some (trim t) else None
    | None => None
    end.

End WithParser.

Definition isQuote (c : ascii) : bool := code c =? 34.
Definition notQuote (c : ascii) : bool := negb (isQuote c).

(** The text [s] with every apostrophe read as a double quote: a way to
    write JSON text in this file. *)
Definition jsonText (s : string) : jstring :=
  map (fun c => if code c =? 39 then ascii_of_nat 34 else c) (str s).

(** One match of the pattern of [extractAssistantTextLoosely] at the head of
    [s]: the quoted word [text], white space, a colon, white space, a quote,
    the shortest non-empty run without quote, and a quote.  Returns the
    capture and the rest of the text behind the match. *)
Definition looseMatchAt (s : jstring) : option (jstring * jstring) :=
  if startsWith (jsonText "'text'") s then
    match dropWhile isSpace (skipn 6 s) with
    | c :: r1 =>
        if code c =? 58 then
          match dropWhile isSpace r1 with
          | q :: r2 =>
              if isQuote q then
                match dropWhile notQuote r2 with
                | _ :: rest =>
                    if truthy (takeWhile notQuote r2)
                    then Some (takeWhile notQuote r2, rest) else None
                | [] => None
                end
              else None
          | [] => None
          end
        else None
    | [] => None
    end
  else None.

(** [[...raw.matchAll(re)]]: the captures, left to right. *)
Fixpoint looseMatches (fuel : nat) (s : jstring) : list jstring :=
  match fuel with
  | 0 => []
  | S fuel' =>
      match s with
      | [] => []
      | _ :: r =>
          match looseMatchAt s with
          | Some (g, rest) => g :: looseMatches fuel' rest
          | None => looseMatches fuel' r
          end
      end
  end.

(** [s.replace(/\\n/g, "\n")]: a backslash followed by [n] becomes a line feed. *)
Fixpoint unescapeNewlines (s : jstring) : jstring :=
  match s with
  | a :: ((b :: r) as t) =>
      if (code a =? 92) && (code b =? 110) then LF :: unescapeNewlines r
      else a :: unescapeNewlines t
  | _ => s
  end.

(** [extractAssistantTextLoosely] *)
Definition extractAssistantTextLoosely (raw : jstring) : option jstring :=
  match rev (looseMatches (length raw) raw) with
  | [] => None
  | last :: _ => if truthy last then Some (trim (unescapeNewlines last)) else None
  end.

End ReplyText.

(** ** [auto-reply/command-reply.ts]: the argv handed to the runner *)

Module Argv.
Import Js.

Local Open Scope Z_scope.

(** [l.splice(start, deleteCount, ...items)] on a copy: a negative [start]
    counts from the end, and [start] is clamped to the array. *)
Definition spliceStart {A : Type} (start : Z) (l : list A) : nat :=
  let len := Z.of_nat (length l) in
  if start <? 0 then Z.to_nat (Z.max (len + start) 0)
  else Z.to_nat (Z.min start len).

Definition splice {A : Type} (start : Z) (deleteCount : nat) (items : list A) (l : list A)
  : list A :=
  let s := spliceStart start l in
  firstn s l ++ items ++ skipn (s + deleteCount) l.

(** [l.indexOf(x)], [-1] when [x] does not occur. *)
Fixpoint indexOf (x : jstring) (l : list jstring) : Z :=
  match l with
  | [] => -1
  | y :: rest =>
      if eqb y x then 0
      else let i := indexOf x rest in if i <? 0 then -1 else i + 1
  end.

(** [l[i]], [undefined] out of range. *)
Definition at_ {A : Type} (l : list A) (i : Z) : option A :=
  if i <? 0 then None else nth_error l (Z.to_nat i).

(** Truthiness of [l[i]] for an array of strings. *)
Definition truthyAt (l : list jstring) (i : Z) : bool :=
  match at_ l i with Some s => truthy s | None => false end.

Definition includesArg (x : jstring) (l : list jstring) : bool :=
  existsb (fun y => eqb y x) l.

Definition MODE : jstring := str "--mode".
Definition RPC : jstring := str "rpc".

(** [rpcArgvForRun] (inside [run]): the argv passed to [runPiRpc]. *)
Definition rpcArgvForRun (finalArgv : list jstring) (promptIndex : Z) : list jstring :=
  let rpcPromptIndex :=
    if 0 <=? promptIndex then promptIndex else Z.of_nat (length finalArgv) - 1 in
  let copy := splice rpcPromptIndex 1 [] finalArgv in
  let modeIdx := indexOf MODE copy in
  if (0 <=? modeIdx) && truthyAt copy (modeIdx + 1) then
    splice modeIdx 2 [MODE; RPC] copy
  else if negb (includesArg MODE copy) then
    splice (Z.of_nat (length copy) - 1) 0 [MODE; RPC] copy
  else copy.

(** [l[i] = x] on an array: an index inside the array is overwritten. *)
Fixpoint setAt {A : Type} (l : list A) (i : nat) (x : A) : list A :=
  match l, i with
  | [], _ => []
  | _ :: rest, O => x :: rest
  | y :: rest, S i' => y :: setAt rest i' x
  end.

(** The sibling computation before [run]: [rpcArgv], the argv that is
    logged.  [filter] drops the element at [bodyIdx]. *)
Definition rpcArgv (finalArgv : list jstring) (promptIndex : Z) : list jstring :=
  let bodyIdx :=
    if 0 <=? promptIndex then promptIndex
    else Z.max (Z.of_nat (length finalArgv) - 1) 0 in
  let kept :=
    if bodyIdx <? Z.of_nat (length finalArgv)
    then firstn (Z.to_nat bodyIdx) finalArgv ++ skipn (Z.to_nat bodyIdx + 1) finalArgv
    else finalArgv in
  let modeIdx := indexOf MODE kept in
  if (0 <=? modeIdx) && truthyAt kept (modeIdx + 1) then
    setAt kept (Z.to_nat (modeIdx + 1)) RPC
  else kept ++ [MODE; RPC].

(** The flag pair [--mode rpc] occurs in [l] as two neighbours. *)
Fixpoint hasModeRpc (l : list jstring) : bool :=
  match l with
  | a :: ((b :: _) as rest) => (eqb a MODE && eqb b RPC) || hasModeRpc rest
  | _ => false
  end.

End Argv.

(** ** [auto-reply/command-reply.ts]: the argv before and after [buildArgs] *)

Module ArgvBuild.
Import Js Argv.

(** [/\{\{Body(Stripped)?\}\}/.test(part)] *)
Definition hasBodyPlaceholder (part : jstring) : bool :=
  includes (str "{{Body}}") part || includes (str "{{BodyStripped}}") part.

(** [l.findIndex(p)], [None] for [-1]. *)
Fixpoint findIndex {A : Type} (p : A -> bool) (l : list A) : option nat :=
  match l with
  | [] => None
  | x :: rest => if p x then Some 0 else option_map S (findIndex p rest)
  end.

(** [reply.session] *)
Record SessionConfig := {
  sessionArgNew : option (list jstring);
  sessionArgResume : option (list jstring);
  sessionArgBeforeBody : option bool
}.

(** The parameters of [runCommandReply] that the construction of the argv
    reads. *)
Record Request := {
  command : list jstring;            (* [reply.command] *)
  template : option jstring;         (* [reply.template] *)
  session : option SessionConfig;    (* [reply.session] *)
  sendSystemOnce : bool;
  isNewSession : bool;
  isFirstTurnInSession : bool;
  systemSent : bool;
  ctx_Body : option jstring;         (* [templatingCtx.Body] *)
  ctx_BodyStripped : option jstring; (* [templatingCtx.BodyStripped] *)
  thinkLevel : option jstring
}.

(** [argv.some((p, i) => p === "--thinking" || (i > 0 && argv[i - 1] ===
    "--thinking") || p.startsWith("--thinking="))]; [prev] is [argv[i - 1]]. *)
Fixpoint hasThinkingFlagFrom (prev : option jstring) (argv : list jstring) : bool :=
  match argv with
  | [] => false
  | p :: rest =>
      eqb p (str "--thinking")
      || match prev with Some q => eqb q (str "--thinking") | None => false end
      || startsWith (str "--thinking=") p
      || hasThinkingFlagFrom (Some p) rest
  end.

Definition hasThinkingFlag (argv : list jstring) : bool :=
  hasThinkingFlagFrom None argv.

(** [s.replace(p, "")] for a string pattern [p]: the first occurrence of
    [p] is taken out. *)
Fixpoint removeFirst (p s : jstring) : jstring :=
  match s with
  | [] => []
  | c :: r => if startsWith p s then skipn (length p) s else c :: removeFirst p r
  end.

(** [l.map((x, idx) => f(idx, x))] *)
Fixpoint mapi {A B : Type} (f : nat -> A -> B) (idx : nat) (l : list A) : list B :=
  match l with
  | [] => []
  | x :: rest => f idx x :: mapi f (S idx) rest
  end.

Section WithTemplates.

(** [applyTemplate(part, templatingCtx)] of [auto-reply/templating.ts], for
    the context of the call; the default session path
    [path.join(os.homedir(), ".clawdis", "sessions", "{{SessionId}}.jsonl")];
    and the marker [__clawdis_body__] followed by random characters.  The
    three are parameters. *)
Variable applyTemplate : jstring -> jstring.
Variable defaultSessionPath : jstring.
Variable bodyMarker : jstring.

(** [templatePrefix] *)
Definition templatePrefix (r : Request) : jstring :=
  match template r with
  | Some t =>
      if truthy t
         && (negb (sendSystemOnce r) || isFirstTurnInSession r || negb (systemSent r))
      then applyTemplate t else []
  | None => []
  end.

(** The templated command with the template prefix put behind its first
    element, and [prefixOffset]. *)
Definition withPrefix (r : Request) : list jstring * nat :=
  let argv := map applyTemplate (command r) in
  match argv with
  | first :: rest =>
      if truthy (templatePrefix r) then (first :: templatePrefix r :: rest, 1)
      else (argv, 0)
  | [] => (argv, 0)
  end.

(** [templatingCtx.Body ?? templatingCtx.BodyStripped ?? ""] *)
Definition contextBody (r : Request) : jstring :=
  match ctx_Body r with
  | Some b => b
  | None => match ctx_BodyStripped r with Some b => b | None => [] end
  end.

(** The argv once the body argument is spliced out of it, and [bodyArg]. *)
Definition takeBody (r : Request) : list jstring * jstring :=
  let '(argv, prefixOffset) := withPrefix r in
  let spliced : list jstring * option jstring :=
    if existsb hasBodyPlaceholder (command r) then
      match findIndex hasBodyPlaceholder (command r) with
      | Some idx =>
          let templatedIdx := idx + prefixOffset in
          match nth_error argv templatedIdx with
          | Some b => (firstn templatedIdx argv ++ skipn (S templatedIdx) argv, Some b)
          | None => (argv, None)
          end
      | None => (argv, None)
      end
    else (argv, None) in
  (fst spliced,
   match snd spliced with
   | Some b => if truthy b then b else contextBody r
   | None => contextBody r
   end).

(** [sessionArgList] and [insertSessionBeforeBody].  The directory of the
    session file is created on the way ([fs.mkdir], best effort); that has
    no part in the argv. *)
Definition sessionArgs (r : Request) : list jstring * bool :=
  match session r with
  | None => ([], true)
  | Some s =>
      let defaults := [str "--session"; defaultSessionPath] in
      let chosen :=
        if isNewSession r
        then match sessionArgNew s with Some l => l | None => defaults end
        else match sessionArgResume s with Some l => l | None => defaults end in
      let l := map applyTemplate chosen in
      (if negb (isNewSession r) && negb (includesArg (str "--continue") l)
       then l ++ [str "--continue"] else l,
       match sessionArgBeforeBody s with Some b => b | None => true end)
  end.

(** The argv and the [bodyIndex] handed to [agent.buildArgs]. *)
Definition assemble (r : Request) : list jstring * nat :=
  let '(argv0, bodyArg) := takeBody r in
  let '(sessionArgList, insertSessionBeforeBody) := sessionArgs r in
  let hasSessionArgs := negb (length sessionArgList =? 0) in
  let argv1 :=
    if insertSessionBeforeBody && hasSessionArgs then argv0 ++ sessionArgList else argv0 in
  let argv2 := argv1 ++ [bodyMarker ++ bodyArg] in
  let bodyIndex := length argv2 - 1 in
  let argv3 :=
    if negb insertSessionBeforeBody && hasSessionArgs then argv2 ++ sessionArgList
    else argv2 in
  match thinkLevel r with
  | Some level =>
      if truthy level && negb (eqb level (str "off")) && negb (hasThinkingFlag argv3)
      then (splice (Z.of_nat bodyIndex) 0 [str "--thinking"; level] argv3, bodyIndex + 2)
      else (argv3, bodyIndex)
  | None => (argv3, bodyIndex)
  end.

(** The start of [runCommandReply]: an empty [reply.command] throws
    ([None]). *)
Definition buildArgv (r : Request) : option (list jstring * nat) :=
  if length (command r) =? 0 then None else Some (assemble r).

(** [promptIndex], [None] for [-1]. *)
Definition promptIndexOf (builtArgv : list jstring) : option nat :=
  findIndex (includes bodyMarker) builtArgv.

(** [promptArg] *)
Definition promptArg (builtArgv : list jstring) : jstring :=
  match promptIndexOf builtArgv with
  | Some i => removeFirst bodyMarker (nth i builtArgv [])
  | None => List.last builtArgv []
  end.

(** [finalArgv] *)
Definition finalArgv (builtArgv : list jstring) : list jstring :=
  mapi (fun idx arg =>
          match promptIndexOf builtArgv with
          | Some i => if idx =? i then promptArg builtArgv else removeFirst bodyMarker arg
          | None => removeFirst bodyMarker arg
          end) 0 builtArgv.

End WithTemplates.

End ArgvBuild.

(** ** [auto-reply/command-reply.ts]: the stream reducer of [run] *)

Module Reducer.
Import Js Json MediaParse.

(** [ReplyPayload] of [auto-reply/types.ts]; an absent property is [None]. *)
Record ReplyPayload := {
  payload_text : option jstring;
  payload_mediaUrl : option jstring;
  payload_mediaUrls : option (list jstring)
}.

(** Truthiness of an optional string. *)
Definition truthyO (s : option jstring) : bool :=
  match s with Some x => truthy x | None => false end.

(** [a !== b] for two optional strings. *)
Definition sameO (a b : option jstring) : bool :=
  match a, b with
  | Some x, Some y => eqb x y
  | None, None => true
  | _, _ => false
  end.

(** [mediaFound?.length ? mediaFound : undefined] *)
Definition nonEmptyMedia (m : option (list jstring)) : option (list jstring) :=
  match m with
  | Some (u :: rest) => Some (u :: rest)
  | _ => None
  end.

(** The mutable variables of [runCommandReply] that the callbacks share.
    [pendingTimer] is the variable (a handle or [null]); [timerLive] tells
    whether the timeout it names is still scheduled.  [partials] lists, in
    order, the payloads handed to [onPartialReply]. *)
Record State := {
  pendingToolName : option jstring;
  pendingMetas : list jstring;
  pendingTimer : bool;
  timerLive : bool;
  streamedAny : bool;
  lastStreamedAssistant : option jstring;
  partials : list ReplyPayload
}.

Definition initial : State :=
  {| pendingToolName := None; pendingMetas := []; pendingTimer := false;
     timerLive := false; streamedAny := false; lastStreamedAssistant := None;
     partials := [] |}.

(** What arrives while the subprocess runs: a complete line of its output,
    or the expiry of the debounce timeout. *)
Inductive StreamInput :=
| Line (line : jstring)
| TimerFired.

(** [inferToolName].  [onEvent] calls it with a message whose role is the
    string [toolResult] or [tool_result].  For a role that is present and
    no string the source does not get to a suffix: [message.role.includes]
    is missing and the call throws, or it is the [includes] of arrays; the
    embedding returns no name there. *)
Definition inferToolName (message : json) : option jstring :=
  let candidates :=
    List.filter truthy
      (map (fun c => match asString c with Some s => trim s | None => [] end)
           [field "toolName" message; field "name" message;
            field "toolCallId" message; field "tool_call_id" message]) in
  match candidates with
  | first :: _ => Some first
  | [] =>
      match asString (field "role" message) with
      | Some role =>
          if includes (str ":") role then
            let suffix := trim (skipn 1 (dropWhile (fun c => negb (code c =? 58)) role)) in
            if truthy suffix then Some suffix else None
          else None
      | None => None
      end
  end.

Section WithCallbacks.

(** Whether the caller supplied [onPartialReply]. *)
Variable onPartialReply : bool.

(** [TOOL_RESULT_FLUSH_COUNT] and [formatToolAggregate] come from
    [auto-reply/tool-meta.ts], [parseFenceSpans] from [markdown/fences.ts];
    these files are not at hand and the three are parameters. *)
Variable TOOL_RESULT_FLUSH_COUNT : Z.
Variable formatToolAggregate : option jstring -> list jstring -> jstring.
Variable parseFenceSpans : jstring -> list FenceSpan.

(** [inferToolMeta] builds the meta string with [shortenMeta] and
    [shortenPath] of [tool-meta.ts]; it is a parameter for that reason. *)
Variable inferToolMeta : json -> option jstring.

(** [JSON.parse] of the platform, [None] when it throws. *)
Variable JSON_parse : jstring -> option json.

(** The payload both callbacks build from a text. *)
Definition partialPayload (text : jstring) : ReplyPayload :=
  let r := splitMediaFromOutput parseFenceSpans text in
  {| payload_text := Some (MediaParse.text r);
     payload_mediaUrl := None;
     payload_mediaUrls := nonEmptyMedia (mediaUrls r) |}.

(** The payload of one flushed aggregate. *)
Definition aggregatePayload (toolName : option jstring) (metas : list jstring) : ReplyPayload :=
  partialPayload (formatToolAggregate toolName metas).

(** [flushPendingTool] *)
Definition flushPendingTool (st : State) : State :=
  if negb onPartialReply then st
  else if negb (truthyO (pendingToolName st)) && (length (pendingMetas st) =? 0) then st
  else
    {| pendingToolName := None;
       pendingMetas := [];
       pendingTimer := false;
       timerLive := false;
       streamedAny := true;
       lastStreamedAssistant := lastStreamedAssistant st;
       partials := partials st ++ [aggregatePayload (pendingToolName st) (pendingMetas st)] |}.

(** [streamAssistantFinal] *)
Definition streamAssistantFinal (msg : option json) (st : State) : State :=
  if negb onPartialReply || negb (isStr "assistant" (ofield "role" msg)) then st
  else
    let textBlocks :=
      match asArray (ofield "content" msg) with
      | Some content =>
          List.filter truthy
            (flat_map (fun c =>
               match isStr "text" (field "type" c), asString (field "text" c) with
               | true, Some t => [trim t]
               | _, _ => []
               end) content)
      | None => []
      end in
    match textBlocks with
    | [] => st
    | _ :: _ =>
        let combined := trim (join [LF] textBlocks) in
        if negb (truthy combined) || sameO (Some combined) (lastStreamedAssistant st) then st
        else
          {| pendingToolName := pendingToolName st;
             pendingMetas := pendingMetas st;
             pendingTimer := pendingTimer st;
             timerLive := timerLive st;
             streamedAny := true;
             lastStreamedAssistant := Some combined;
             partials := partials st ++ [partialPayload combined] |}
    end.

(** The tool result carried by an event, if it is one: the event has type
    [message] or [message_end], its message has role [toolResult] or
    [tool_result] and an array as content.  The pair is [toolName] and
    [meta]; the map [toolMetaById] is never written, so its lookup adds
    nothing to [inferToolMeta]. *)
Definition toolResultOf (ev : json) : option (option jstring * option jstring) :=
  let msg := field "message" ev in
  let type := field "type" ev in
  if truthyJ msg && (isStr "message" type || isStr "message_end" type) then
    let role := ofield "role" msg in
    match msg, (isStr "toolResult" role || isStr "tool_result" role),
          asArray (ofield "content" msg) with
    | Some m, true, Some _ => Some (inferToolName m, inferToolMeta m)
    | _, _, _ => None
    end
  else None.

(** The tool-result branch of [onEvent]. *)
Definition onToolResult (toolName meta : option jstring) (st : State) : State :=
  let st1 :=
    if truthyO (pendingToolName st) && truthyO toolName
       && negb (sameO toolName (pendingToolName st))
    then flushPendingTool st else st in
  let name2 := if negb (truthyO (pendingToolName st1)) then toolName else pendingToolName st1 in
  let metas2 :=
    match meta with
    | Some m => if truthy m then pendingMetas st1 ++ [m] else pendingMetas st1
    | None => pendingMetas st1
    end in
  let st2 :=
    {| pendingToolName := name2; pendingMetas := metas2;
       pendingTimer := pendingTimer st1; timerLive := timerLive st1;
       streamedAny := streamedAny st1;
       lastStreamedAssistant := lastStreamedAssistant st1;
       partials := partials st1 |} in
  if (0 <? TOOL_RESULT_FLUSH_COUNT)%Z
     && (TOOL_RESULT_FLUSH_COUNT <=? Z.of_nat (length metas2))%Z
  then flushPendingTool st2
  else
    {| pendingToolName := name2; pendingMetas := metas2;
       pendingTimer := true; timerLive := true;
       streamedAny := streamedAny st2;
       lastStreamedAssistant := lastStreamedAssistant st2;
       partials := partials st2 |}.

(** [onEvent] on a parsed object.  The three places that stream an
    assistant message are kept apart as in the source. *)
Definition onObject (ev : json) (st : State) : State :=
  match toolResultOf ev with
  | Some (toolName, meta) => onToolResult toolName meta st
  | None =>
      let msg := field "message" ev in
      let type := field "type" ev in
      let isAssistant := isStr "assistant" (ofield "role" msg) in
      let st1 :=
        if truthyJ msg && (isStr "message" type || isStr "message_end" type) && isAssistant
        then streamAssistantFinal msg st else st in
      let st2 :=
        if isStr "message_end" type && truthyJ msg && isAssistant
        then streamAssistantFinal msg st1 else st1 in
      if onPartialReply && isAssistant then streamAssistantFinal msg st2 else st2
  end.

(** [onEvent]: [None] when the callback throws.  A line that does not parse
    is dropped; a line that parses to [null] or to a primitive makes the
    callback throw a [TypeError] (reading [ev.type] of [null], or the [in]
    operator on a primitive); an array has no [message]. *)
Definition onEvent (line : jstring) (st : State) : option State :=
  match JSON_parse line with
  | None => Some st
  | Some (JObj ms) => Some (onObject (JObj ms) st)
  | Some (JArr _) => Some st
  | Some _ => None
  end.

(** The expiry of the timeout runs [flushPendingTool]. *)
Definition onTimer (st : State) : State :=
  if timerLive st then
    flushPendingTool
      {| pendingToolName := pendingToolName st; pendingMetas := pendingMetas st;
         pendingTimer := pendingTimer st; timerLive := false;
         streamedAny := streamedAny st;
         lastStreamedAssistant := lastStreamedAssistant st;
         partials := partials st |}
  else st.

Definition step (st : State) (i : StreamInput) : option State :=
  match i with
  | Line line => onEvent line st
  | TimerFired => Some (onTimer st)
  end.

Fixpoint feed (inputs : list StreamInput) (st : State) : option State :=
  match inputs with
  | [] => Some st
  | i :: rest =>
      match step st i with
      | Some st' => feed rest st'
      | None => None
      end
  end.

(** [run]: the events of the subprocess, then the final
    [flushPendingTool()] once [runPiRpc] has returned. *)
Definition run (inputs : list StreamInput) : option State :=
  match feed inputs initial with
  | Some st => Some (flushPendingTool st)
  | None => None
  end.

(** A line of the stream that carries the result of tool [name] with the
    meta string [meta]. *)
Definition carries (line : jstring) (name meta : jstring) : Prop :=
  exists ms, JSON_parse line = Some (JObj ms) /\
             toolResultOf (JObj ms) = Some (Some name, Some meta).

End WithCallbacks.

End Reducer.

(** ** [auto-reply/command-reply.ts]: from the exit of the subprocess to the
    returned payloads *)

Module AfterRun.
Import Js Json MediaParse ReplyText Reducer.

(** What [enqueue(run)] resolves to. *)
Record RunResult := {
  stdout : jstring;
  stderr : jstring;
  exit_code : option Z;          (* [code]: a number or [null] *)
  exit_signal : option jstring;  (* [signal]: a name or [null] *)
  killed : bool
}.

(** What the [catch] block reads off a rejection. *)
Record RunError := {
  err_killed : option bool;
  err_signal : option jstring;
  err_stdout : option jstring;
  err_stderr : option jstring;
  err_message : jstring  (* [err.message], or [String(err)] *)
}.

Inductive RunOutcome :=
| Resolved (r : RunResult)
| Rejected (e : RunError).

(** An entry of [parsed.toolResults]: a string or an [AgentToolResult]. *)
Inductive ToolResultEntry :=
| TRString (s : jstring)
| TRObject (text toolName meta : option jstring).

(** [AgentMeta]: the reducer reads [meta.extra.summary] and passes the rest
    on untouched. *)
Record AgentMeta := { extra_summary : option jstring }.

(** The result of [agent.parseOutput]. *)
Record ParsedOutput := {
  texts : option (list jstring);
  toolResults : option (list ToolResultEntry);
  agent_meta : option AgentMeta
}.

Record NormToolResult := {
  nt_text : jstring;
  nt_toolName : option jstring;
  nt_meta : option jstring
}.

Record ToolGroup := {
  g_toolName : option jstring;
  g_metas : list jstring;
  g_previews : list jstring
}.

Record ReplyItem := { item_text : jstring; item_media : option (list jstring) }.

(** [CommandReplyMeta] without its clock readings ([durationMs],
    [queuedMs], [queuedAhead]). *)
Record CommandReplyMeta := {
  meta_exitCode : option Z;
  meta_signal : option jstring;
  meta_killed : option bool;
  meta_agentMeta : option AgentMeta
}.

Record CommandReplyResult := {
  payloads : list ReplyPayload;
  meta : CommandReplyMeta
}.

(** The parameters of [runCommandReply] that the code after the run reads. *)
Record Params := {
  Body : option jstring;           (* [templatingCtx.Body] *)
  BodyStripped : option jstring;   (* [templatingCtx.BodyStripped] *)
  verboseOn : bool;                (* [verboseLevel === "on"] *)
  reply_mediaUrl : option jstring; (* [reply.mediaUrl] *)
  reply_mediaMaxMb : option Z;     (* [reply.mediaMaxMb] *)
  timeoutSeconds : Z;
  resolvedCwd : option jstring
}.

(** A number in a template literal. *)
Definition showZ (z : Z) : jstring :=
  str (DecimalString.NilZero.string_of_int (Z.to_int z)).

(** The warning sign that opens the error texts (U+26A0 U+FE0F), in UTF-8. *)
Definition WARNING_SIGN : jstring :=
  map ascii_of_nat [226; 154; 160; 239; 184; 143].

Definition orEmpty (s : option jstring) : jstring :=
  match s with Some x => x | None => [] end.

(** [a ?? b] on optional strings. *)
Definition orElse {A : Type} (a b : option A) : option A :=
  match a with Some _ => a | None => b end.

(** [normalize] of [runCommandReply] *)
Definition normalize (s : option jstring) : jstring :=
  toLowerCase (stripStructuralPrefixes (trim (orEmpty s))).

(** The text of the notice pushed when there is no content at all. *)
Definition noOutputText (summary : option jstring) : jstring :=
  str "(command produced no output"
    ++ (if truthyO summary then str "; " ++ orEmpty summary else [])
    ++ str ")".

(** The excerpt of the output in the exit-code error; [summarySource] is
    [rpcAssistantText ?? trimmed]. *)
Definition partialOut (summarySource : jstring) : jstring :=
  if truthy summarySource then
    [LF; LF] ++ str "Output: " ++ slice 0 500 summarySource
      ++ (if 500 <? length summarySource then str "..." else [])
  else [].

(** [errorText] of the non-zero exit branch. *)
Definition exitErrorText (code : option Z) (signal : option jstring)
  (summarySource : jstring) : jstring :=
  WARNING_SIGN ++ str " Command exited with code "
    ++ (match code with Some c => showZ c | None => str "unknown" end)
    ++ (if truthyO signal then str " (" ++ orEmpty signal ++ str ")" else [])
    ++ partialOut summarySource.

Definition killedErrorText (code : option Z) : jstring :=
  WARNING_SIGN ++ str " Command was killed before completion (exit code "
    ++ (match code with Some c => showZ c | None => str "unknown" end)
    ++ str ")".

(** [m?.length] as a truth value. *)
Definition hasItems (m : option (list jstring)) : bool :=
  match m with Some (_ :: _) => true | _ => false end.

Definition textPayload (t : jstring) : ReplyPayload :=
  {| payload_text := Some t; payload_mediaUrl := None; payload_mediaUrls := None |}.

Section WithAgent.

(** Whether the caller supplied [onPartialReply]. *)
Variable onPartialReply : bool.

(** [piSpec.parseOutput] lives in [agents/pi.ts], [shortenMeta] in
    [auto-reply/tool-meta.ts], [parseFenceSpans] in [markdown/fences.ts];
    these files are not at hand and the three are parameters. *)
Variable parseOutput : jstring -> ParsedOutput.
Variable shortenMeta : jstring -> jstring.
Variable parseFenceSpans : jstring -> list FenceSpan.

(** The line shown for one group of tool results when they are listed
    inline: an emoji for the tool, the output of [formatToolAggregate]
    without its tool prefix, and a clipped preview.  Its literals are not
    ASCII and [formatToolAggregate] is not at hand. *)
Variable decorateToolGroup : ToolGroup -> jstring.

(** [JSON.parse] of the platform, [None] when it throws. *)
Variable JSON_parse : jstring -> option json.

(** [fs.stat(abs).size] for the file a media path resolves to, [None] when
    [stat] throws. *)
Variable fileSize : jstring -> option Z.

(** [normalizeToolResults] *)
Definition normalizeToolResults (toolResults : option (list ToolResultEntry))
  : list NormToolResult :=
  match toolResults with
  | None => []
  | Some l =>
      List.filter (fun tr => negb (length (nt_text tr) =? 0))
        (map (fun e =>
           let '(text, toolName, meta) :=
             match e with
             | TRString s => (Some s, None, None)
             | TRObject t n m => (t, n, m)
             end in
           {| nt_text := trim (orEmpty text);
              nt_toolName :=
                match toolName with
                | Some n => if truthy (trim n) then Some (trim n) else None
                | None => None
                end;
              nt_meta := if truthyO meta then Some (shortenMeta (orEmpty meta)) else None |})
          l)
  end.

(** The [reduce] that groups neighbouring results of one tool. *)
Definition groupStep (acc : list ToolGroup) (tr : NormToolResult) : list ToolGroup :=
  let metaL := if truthyO (nt_meta tr) then [orEmpty (nt_meta tr)] else [] in
  let textL := if truthy (nt_text tr) then [nt_text tr] else [] in
  match rev acc with
  | last :: before =>
      if sameO (g_toolName last) (nt_toolName tr) then
        rev before ++
          [{| g_toolName := g_toolName last;
              g_metas := g_metas last ++ metaL;
              g_previews := g_previews last ++ textL |}]
      else acc ++ [{| g_toolName := nt_toolName tr; g_metas := metaL; g_previews := textL |}]
  | [] => [{| g_toolName := nt_toolName tr; g_metas := metaL; g_previews := textL |}]
  end.

(** The reply item made from a text: [splitMediaFromOutput], then
    [media: mediaFound?.length ? mediaFound : undefined]. *)
Definition itemOf (t : jstring) : ReplyItem :=
  let r := splitMediaFromOutput parseFenceSpans t in
  {| item_text := MediaParse.text r; item_media := nonEmptyMedia (mediaUrls r) |}.

(** The values computed from the output before the reply items. *)
Record Digest := {
  rpcAssistantText : option jstring;
  trimmed : jstring;
  parsed : option ParsedOutput;
  parsedTexts : list jstring;
  parsedToolResults : list NormToolResult
}.

Definition digest (out : jstring) : Digest :=
  let rawStdout := trim out in
  let trimmed := stripRpcNoise JSON_parse rawStdout in
  let parsed := if truthy trimmed then Some (parseOutput trimmed) else None in
  {| rpcAssistantText := extractRpcAssistantText JSON_parse out;
     trimmed := trimmed;
     parsed := parsed;
     parsedTexts :=
       match parsed with
       | Some p => List.filter truthy (map trim (match texts p with Some l => l | None => [] end))
       | None => []
       end;
     parsedToolResults :=
       normalizeToolResults (match parsed with Some p => toolResults p | None => None end) |}.

Definition summaryOf (d : Digest) : option jstring :=
  match parsed d with
  | Some p => match agent_meta p with Some m => extra_summary m | None => None end
  | None => None
  end.

Definition agentMetaOf (d : Digest) : option AgentMeta :=
  match parsed d with Some p => agent_meta p | None => None end.

(** [fallbackText] *)
Definition fallbackText (d : Digest) : jstring :=
  match orElse (rpcAssistantText d)
          (orElse (extractRpcAssistantText JSON_parse (trimmed d))
                  (extractAssistantTextLoosely (trimmed d))) with
  | Some t => t
  | None => trimmed d
  end.

(** [promptEcho], as a truth value. *)
Definition promptEcho (p : Params) (d : Digest) : bool :=
  let f := fallbackText d in
  let bodyNorm := normalize (orElse (Body p) (BodyStripped p)) in
  let fallbackNorm := normalize (Some f) in
  truthy f
  && (eqb f (orEmpty (Body p))
      || eqb f (orEmpty (BodyStripped p))
      || ((0 <? length bodyNorm) && eqb bodyNorm fallbackNorm)).

(** [safeFallbackText] *)
Definition safeFallbackText (p : Params) (d : Digest) : option jstring :=
  if promptEcho p d then None else Some (fallbackText d).

(** [replyItems] once the block that injects the no-output notice is done. *)
Definition replyItems (p : Params) (d : Digest) : list ReplyItem :=
  let hasParsedContent :=
    negb (length (parsedTexts d) =? 0) || negb (length (parsedToolResults d) =? 0) in
  let includeToolResultsInline :=
    verboseOn p && negb onPartialReply && negb (length (parsedToolResults d) =? 0) in
  let inline :=
    if includeToolResultsInline
    then map (fun g => itemOf (decorateToolGroup g))
             (fold_left groupStep (parsedToolResults d) [])
    else [] in
  let items1 := inline ++ map itemOf (parsedTexts d) in
  let items2 :=
    match items1, safeFallbackText p d with
    | [], Some safe =>
        if truthy safe && negb hasParsedContent then
          let it := itemOf safe in
          if truthy (item_text it) || hasItems (item_media it) then [it] else []
        else []
    | _, _ => items1
    end in
  match items2 with
  | [] => [{| item_text := noOutputText (summaryOf d); item_media := None |}]
  | _ => items2
  end.

(** The media filter applied when [reply.mediaMaxMb] is set: a web URL is
    kept, a local path is kept unless its file is larger than the cap or
    when [stat] throws. *)
Definition capMedia (maxMb : Z) (urls : list jstring) : list jstring :=
  let maxBytes := (maxMb * 1024 * 1024)%Z in
  List.filter (fun url =>
    if isHttpUrl url then true
    else match fileSize url with
         | Some size => (size <=? maxBytes)%Z
         | None => true
         end) urls.

(** One turn of the loop [for (const item of replyItems)]: the payload made
    from the item, if any. *)
Definition payloadOf (p : Params) (item : ReplyItem) : option ReplyPayload :=
  let mediaUrls0 :=
    orElse (item_media item)
      (if truthyO (reply_mediaUrl p) then Some [orEmpty (reply_mediaUrl p)] else None) in
  let mediaUrls1 :=
    match mediaUrls0, reply_mediaMaxMb p with
    | Some (u :: rest), Some cap =>
        if (cap =? 0)%Z then mediaUrls0 else Some (capMedia cap (u :: rest))
    | _, _ => mediaUrls0
    end in
  if truthy (item_text item) || hasItems mediaUrls1 then
    Some {| payload_text := if truthy (item_text item) then Some (item_text item) else None;
            payload_mediaUrl := match mediaUrls1 with Some (u :: _) => Some u | _ => None end;
            payload_mediaUrls := mediaUrls1 |}
  else None.

(** The text of the timeout notice of the [catch] block. *)
Definition timeoutText (p : Params) (e : RunError) : jstring :=
  let baseMsg :=
    str "Command timed out after " ++ showZ (timeoutSeconds p) ++ str "s"
      ++ (if truthyO (resolvedCwd p)
          then str " (cwd: " ++ orEmpty (resolvedCwd p) ++ str ")" else [])
      ++ str ". Try a shorter prompt or split the request." in
  let out := orEmpty (err_stdout e) in
  let partial :=
    match extractRpcAssistantText JSON_parse out with
    | Some t => t
    | None =>
        if truthyO (extractAssistantTextLoosely out)
        then orEmpty (extractAssistantTextLoosely out)
        else stripRpcNoise JSON_parse out
    end in
  let partialSnippet :=
    if truthy partial && (800 <? length partial)
    then slice 0 800 partial ++ str "..." else partial in
  if truthy partialSnippet
  then baseMsg ++ [LF; LF] ++ str "Partial output before timeout:" ++ [LF] ++ partialSnippet
  else baseMsg.

(** The body of [runCommandReply] from the point where [enqueue(run)]
    settles: the [try] block for a resolved run, the [catch] block for a
    rejection.  [streamed] is the final value of [streamedAny]. *)
Definition completeRun (p : Params) (streamed : bool) (o : RunOutcome)
  : CommandReplyResult :=
  match o with
  | Resolved r =>
      let d := digest (stdout r) in
      let items := replyItems p d in
      let m := {| meta_exitCode := exit_code r; meta_signal := exit_signal r;
                  meta_killed := Some (killed r); meta_agentMeta := agentMetaOf d |} in
      if negb (match exit_code r with Some c => (c =? 0)%Z | None => true end) then
        let summarySource :=
          match rpcAssistantText d with Some t => t | None => trimmed d end in
        {| payloads := [textPayload (exitErrorText (exit_code r) (exit_signal r) summarySource)];
           meta := m |}
      else if killed r && negb (truthyO (exit_signal r)) then
        {| payloads := [textPayload (killedErrorText (exit_code r))]; meta := m |}
      else
        let built := flat_map (fun item =>
                       match payloadOf p item with Some x => [x] | None => [] end) items in
        {| payloads := if streamed && onPartialReply then [] else built; meta := m |}
  | Rejected e =>
      let m := {| meta_exitCode := None; meta_signal := err_signal e;
                  meta_killed := err_killed e; meta_agentMeta := None |} in
      let timeoutHit :=
        match err_killed e with Some true => true | _ => false end
        || sameO (err_signal e) (Some (str "SIGKILL")) in
      if timeoutHit then {| payloads := [textPayload (timeoutText p e)]; meta := m |}
      else {| payloads := [textPayload (WARNING_SIGN ++ str " Command failed: " ++ err_message e)];
              meta := m |}
  end.

End WithAgent.

End AfterRun.

(** ** [src/auto-reply/reply/abort.ts] *)

Module SessionAbort.
Import Js.

(** [SessionEntry] of [config/sessions.ts]: the fields the abort path reads
    or writes. *)
Record SessionEntry := {
  sessionId : option jstring;
  abortedLastRun : bool;
  updatedAt : Z
}.

(** The session store file and the module-level map [ABORT_MEMORY].
    [disk] holds the session entries of the store; [saves] counts the calls
    of [saveSessionStore], [signalled] lists the session ids passed to
    [abortEmbeddedPiRun], and [stampedMembers] lists the members of
    [Object.prototype] to which the abort path has written [abortedLastRun]
    and [updatedAt]. *)
Record World := {
  disk : gmap jstring SessionEntry;
  ABORT_MEMORY : gmap jstring bool;
  saves : nat;
  signalled : list jstring;
  stampedMembers : list jstring
}.

Record AbortResult := { handled : bool; aborted : bool }.

(** [getAbortMemory] *)
Definition getAbortMemory (key : jstring) (w : World) : option bool :=
  ABORT_MEMORY w !! key.

(** [setAbortMemory] *)
Definition setAbortMemory (key : jstring) (value : bool) (w : World) : World :=
  {| disk := disk w; ABORT_MEMORY := <[key := value]> (ABORT_MEMORY w);
     saves := saves w; signalled := signalled w;
     stampedMembers := stampedMembers w |}.

(** The store is a plain object ([Record<string, SessionEntry>]): a read
    [store[key]] that finds no own property goes on to [Object.prototype],
    whose members carry these names. *)
Definition OBJECT_PROTOTYPE_KEYS : list jstring :=
  [str "constructor"; str "__proto__"; str "hasOwnProperty"; str "isPrototypeOf";
   str "propertyIsEnumerable"; str "toLocaleString"; str "toString"; str "valueOf";
   str "__defineGetter__"; str "__defineSetter__"; str "__lookupGetter__";
   str "__lookupSetter__"].

(** What [store[key]] evaluates to when it is not [undefined]: a session
    entry of the store, or the member [name] of [Object.prototype], a
    function (for [__proto__] the prototype itself).  Both are truthy; a
    member has no [sessionId]. *)
Inductive Slot :=
| Entry (entry : SessionEntry)
| PrototypeMember (name : jstring).

(** [store[key]] *)
Definition getSlot (store : gmap jstring SessionEntry) (key : jstring) : option Slot :=
  match store !! key with
  | Some entry => Some (Entry entry)
  | None =>
      if existsb (eqb key) OBJECT_PROTOTYPE_KEYS then Some (PrototypeMember key) else None
  end.

(** [entry?.sessionId] *)
Definition slotSessionId (slot : Slot) : option jstring :=
  match slot with
  | Entry entry => sessionId entry
  | PrototypeMember _ => None
  end.

Definition ABORT_TRIGGERS : list jstring :=
  [str "stop"; str "esc"; str "abort"; str "wait"; str "exit"].

(** [isAbortTrigger] *)
Definition isAbortTrigger (text : option jstring) : bool :=
  match text with
  | Some t => truthy t && existsb (eqb (toLowerCase (trim t))) ABORT_TRIGGERS
  | None => false
  end.

Section WithRuns.

(** [parseAgentSessionKey(key)?.rest] of [routing/session-key.ts]: the part
    of a namespaced session key behind its agent prefix, [None] when the key
    does not parse. *)
Variable parseAgentSessionKey_rest : jstring -> option jstring.

(** [abortEmbeddedPiRun] of [agents/pi-embedded.ts]: signals the live run
    of a session and tells whether there was one. *)
Variable abortEmbeddedPiRun : jstring -> bool.

(** [resolveSessionEntryForKey] *)
Definition resolveSessionEntryForKey
  (store : gmap jstring SessionEntry) (sessionKey : option jstring)
  : option (Slot * jstring) :=
  match sessionKey with
  | None => None
  | Some key =>
      if negb (truthy key) then None
      else match getSlot store key with
           | Some direct => Some (direct, key)
           | None =>
               match parseAgentSessionKey_rest key with
               | Some legacyKey =>
                   if truthy legacyKey then
                     match getSlot store legacyKey with
                     | Some entry => Some (entry, legacyKey)
                     | None => None
                     end
                   else None
               | None => None
               end
           end
  end.

(** [entry.abortedLastRun = true; entry.updatedAt = Date.now()] *)
Definition stamp (now : Z) (entry : SessionEntry) : SessionEntry :=
  {| sessionId := sessionId entry; abortedLastRun := true; updatedAt := now |}.

Definition firstSome (a b : option jstring) : option jstring :=
  match a with Some _ => a | None => b end.

Definition truthyKey (k : option jstring) : bool :=
  match k with Some x => truthy x | None => false end.

(** [tryFastAbortFromMessage] from the point where the message is known to
    be an abort request ([abortRequested] holds): [targetKey] is the result
    of [resolveAbortTargetKey], [from] and [to] are [auth.from] and
    [auth.to], [now] is [Date.now()].  When [entry] is a member of
    [Object.prototype], the two assignments go to that shared object, and
    [store[key] = entry] gives the store a property that holds no session
    entry (a function, which the JSON form of the store leaves out; for
    [__proto__] the assignment sets the prototype to what it already is):
    the entries on disk stay as they are, and the store is saved. *)
Definition abortRequest (now : Z) (targetKey from to : option jstring) (w : World)
  : World * AbortResult :=
  let abortKey := firstSome targetKey (firstSome from to) in
  let remember (w0 : World) : World :=
    match abortKey with
    | Some k => if truthy k then setAbortMemory k true w0 else w0
    | None => w0
    end in
  if truthyKey targetKey then
    let store := disk w in
    let resolved := resolveSessionEntryForKey store targetKey in
    let sid := match resolved with Some (entry, _) => slotSessionId entry | None => None end in
    let '(w1, wasAborted) :=
      match sid with
      | Some s =>
          if truthy s then
            ({| disk := disk w; ABORT_MEMORY := ABORT_MEMORY w; saves := saves w;
                signalled := signalled w ++ [s];
                stampedMembers := stampedMembers w |}, abortEmbeddedPiRun s)
          else (w, false)
      | None => (w, false)
      end in
    match resolved with
    | Some (slot, key) =>
        if truthy key then
          (match slot with
           | Entry entry =>
               {| disk := <[key := stamp now entry]> store;
                  ABORT_MEMORY := ABORT_MEMORY w1;
                  saves := S (saves w1); signalled := signalled w1;
                  stampedMembers := stampedMembers w1 |}
           | PrototypeMember name =>
               {| disk := store;
                  ABORT_MEMORY := ABORT_MEMORY w1;
                  saves := S (saves w1); signalled := signalled w1;
                  stampedMembers := stampedMembers w1 ++ [name] |}
           end,
           {| handled := true; aborted := wasAborted |})
        else (remember w1, {| handled := true; aborted := wasAborted |})
    | None => (remember w1, {| handled := true; aborted := wasAborted |})
    end
  else (remember w, {| handled := true; aborted := false |}).

(** [tryFastAbortFromMessage]: the three gates in front of the abort path.
    [allowTextCommands], [isAuthorizedSender] and [abortRequested] are the
    values the function computes with [shouldHandleTextCommands],
    [resolveCommandAuthorization] and the normalized message body. *)
Definition tryFastAbortFromMessage
  (allowTextCommands isAuthorizedSender abortRequested : bool)
  (now : Z) (targetKey from to : option jstring) (w : World) : World * AbortResult :=
  if negb allowTextCommands then (w, {| handled := false; aborted := false |})
  else if negb isAuthorizedSender then (w, {| handled := false; aborted := false |})
  else if negb abortRequested then (w, {| handled := false; aborted := false |})
  else abortRequest now targetKey from to w.

End WithRuns.

(** [resolveAbortTargetKey]: [ctx.CommandTargetSessionKey] and
    [ctx.SessionKey], each absent or a string. *)
Definition resolveAbortTargetKey (commandTargetSessionKey sessionKey : option jstring)
  : option jstring :=
  let target := option_map trim commandTargetSessionKey in
  if truthyKey target then target
  else
    let key := option_map trim sessionKey in
    if truthyKey key then key else None.

End SessionAbort.

(** ** [src/cron/service/store.ts] *)

Module CronStore.
Import Js Json.

(** A job record as [ensureLoaded] handles it, a [Record<string, unknown>]:
    the four properties the normalization reads, each absent ([None]) or
    any JSON value, the next run time kept under [state], and the other
    properties. *)
Record Job := {
  job_name : option json;
  job_description : option json;
  job_schedule : option json;
  job_payload : option json;
  nextRunAtMs : option Z;
  job_rest : list (jstring * json)
}.

(** The store file: its parsed [jobs] ([None] when the file or the property
    is missing), its modification time ([None] when [stat] fails), and the
    number of reads and writes of its content so far. *)
Record Disk := {
  file_jobs : option (list Job);
  file_mtime : option Z;
  reads : nat;
  writes : nat
}.

(** The part of [CronServiceState] that [store.ts] touches; [store] holds
    [state.store.jobs] ([version] is the constant 1). *)
Record CronServiceState := {
  store : option (list Job);
  storeLoadedAtMs : option Z;
  storeFileMtimeMs : option Z
}.

(** What the surroundings supply to one call: the reading of
    [state.deps.nowMs()] and the modification time the file system gives
    the file when it is written. *)
Record Env := { nowMs : Z; writeStamp : Z }.

(** [getFileMtimeMs]: a [stat] of the path, no read of the content. *)
Definition getFileMtimeMs (d : Disk) : option Z := file_mtime d.

(** Modelled from the spec: [loadCronStore] of [cron/store.ts] reads and
    parses the store file (the spec: "the store is reloaded from disk");
    a missing file gives no jobs. *)
Definition loadCronStore (d : Disk) : option (list Job) * Disk :=
  (file_jobs d,
   {| file_jobs := file_jobs d; file_mtime := file_mtime d;
      reads := S (reads d); writes := writes d |}).

(** Modelled from the spec: [saveCronStore] of [cron/store.ts] ("persist
    always rewrites the whole store"); the write gives the file a new
    modification time. *)
Definition saveCronStore (stamp : Z) (jobs : list Job) (d : Disk) : Disk :=
  {| file_jobs := Some jobs; file_mtime := Some stamp;
     reads := reads d; writes := S (writes d) |}.

(** [raw.description !== desc] *)
Definition differs (raw : option json) (desc : option jstring) : bool :=
  match raw, desc with
  | None, None => false
  | Some (JStr s), Some t => negb (eqb s t)
  | _, _ => true
  end.

Section WithHelpers.

(** [inferLegacyName] and [normalizeOptionalText] of
    [cron/service/normalize.ts], [migrateLegacyCronPayload] of
    [cron/payload-migration.ts] (it returns the payload it has rewritten in
    place and whether it changed it) and [recomputeNextRuns] of
    [cron/service/jobs.ts] are not at hand: they are parameters. *)
Variable inferLegacyName : option json -> option json -> jstring.
Variable normalizeOptionalText : option json -> option jstring.
Variable migrateLegacyCronPayload : json -> json * bool.
Variable recomputeNextRuns : Z -> list Job -> list Job.

(** The body of the loop [for (const raw of jobs)]: the record after the
    turn, and whether the turn set [mutated]. *)
Definition normalizeJob (raw : Job) : Job * bool :=
  let '(name, m1) :=
    match job_name raw with
    | Some (JStr nameRaw) =>
        if length (trim nameRaw) =? 0
        then (JStr (inferLegacyName (job_schedule raw) (job_payload raw)), true)
        else (JStr (trim nameRaw), false)
    | _ => (JStr (inferLegacyName (job_schedule raw) (job_payload raw)), true)
    end in
  let desc := normalizeOptionalText (job_description raw) in
  let '(description, m2) :=
    if differs (job_description raw) desc
    then (option_map JStr desc, true)
    else (job_description raw, false) in
  let '(payload, m3) :=
    match job_payload raw with
    | Some (JObj ms) =>
        let '(p, changed) := migrateLegacyCronPayload (JObj ms) in (Some p, changed)
    | other => (other, false)
    end in
  ({| job_name := Some name; job_description := description;
      job_schedule := job_schedule raw; job_payload := payload;
      nextRunAtMs := nextRunAtMs raw; job_rest := job_rest raw |},
   m1 || m2 || m3).

Definition normalizeJobs (jobs : list Job) : list Job * bool :=
  (map (fun j => fst (normalizeJob j)) jobs,
   existsb (fun j => snd (normalizeJob j)) jobs).

(** [persist] *)
Definition persist (env : Env) (st : CronServiceState) (d : Disk)
  : CronServiceState * Disk :=
  match store st with
  | None => (st, d)
  | Some jobs =>
      let d' := saveCronStore (writeStamp env) jobs d in
      ({| store := store st; storeLoadedAtMs := storeLoadedAtMs st;
          storeFileMtimeMs := getFileMtimeMs d' |}, d')
  end.

(** [needsReload] *)
Definition needsReload (st : CronServiceState) (fileMtimeMs : option Z) : bool :=
  match store st with
  | None => true
  | Some _ =>
      match fileMtimeMs, storeFileMtimeMs st with
      | Some m, Some cached => (cached <? m)%Z
      | _, _ => false
      end
  end.

(** [ensureLoaded] *)
Definition ensureLoaded (env : Env) (st : CronServiceState) (d : Disk)
  : CronServiceState * Disk :=
  let fileMtimeMs := getFileMtimeMs d in
  if negb (needsReload st fileMtimeMs) then (st, d)
  else
    let '(loaded, d1) := loadCronStore d in
    let '(jobs, mutated) := normalizeJobs (match loaded with Some l => l | None => [] end) in
    let st1 :=
      {| store := Some (recomputeNextRuns (nowMs env) jobs);
         storeLoadedAtMs := Some (nowMs env);
         storeFileMtimeMs := fileMtimeMs |} in
    if mutated then persist env st1 d1 else (st1, d1).

End WithHelpers.

(** The modification time seen on disk is not past the cached one. *)
Definition notAdvanced (seen cached : option Z) : Prop :=
  forall m c, seen = Some m -> cached = Some c -> (m <= c)%Z.

(** What [warnIfDisabled] reads and writes: [state.deps.cronEnabled],
    [state.warnedDisabled], and the number of calls of [log.warn] so far. *)
Record Warner := {
  cronEnabled : bool;
  warnedDisabled : bool;
  warnings : nat
}.

(** [warnIfDisabled] *)
Definition warnIfDisabled (s : Warner) : Warner :=
  if cronEnabled s then s
  else if warnedDisabled s then s
  else {| cronEnabled := cronEnabled s; warnedDisabled := true;
          warnings := S (warnings s) |}.

End CronStore.

(** ** Concrete stand-ins for the parameters

    Functions to put in the place of the parameters, and small inputs, for
    running the embedding on examples. *)

Module Examples.
Import Js Json MediaParse ReplyText Reducer AfterRun SessionAbort CronStore.

(** Text without fenced code: [parseFenceSpans] finds no span. *)
Definition noFences (_ : jstring) : list FenceSpan := [].

(** A meta string as [inferToolMeta] gives it for a shell command:
    [details.command]. *)
Definition commandMeta (msg : json) : option jstring :=
  asString (ofield "command" (coalesce (field "details" msg) (field "arguments" msg))).

(** A stand-in for [formatToolAggregate]: the tool name in brackets, then
    the metas. *)
Definition bracketAggregate (toolName : option jstring) (metas : list jstring) : jstring :=
  str "[" ++ match toolName with Some n => n | None => str "tool" end ++ str "] "
    ++ join (str ", ") metas.

(** A [message_end] event with the result of [tool] run on [command]. *)
Definition toolLine (tool command : string) : jstring :=
  jsonText "{'type':'message_end','message':{'role':'toolResult','toolName':'"
    ++ str tool
    ++ jsonText "','content':[],'details':{'command':'"
    ++ str command ++ jsonText "'}}}".

(** A parser that found nothing in the output. *)
Definition parsedNothing (_ : jstring) : ParsedOutput :=
  {| texts := None; toolResults := None; agent_meta := None |}.

Definition plainParams (body : jstring) : Params :=
  {| Body := Some body; BodyStripped := None; verboseOn := false;
     reply_mediaUrl := None; reply_mediaMaxMb := None;
     timeoutSeconds := 600; resolvedCwd := None |}.

Definition exited (out : jstring) (code : Z) : RunResult :=
  {| stdout := out; stderr := []; exit_code := Some code; exit_signal := None;
     killed := false |}.

(** A store with one session, kept under its legacy key. *)
Definition legacyEntry : SessionEntry :=
  {| sessionId := Some (str "s-1"); abortedLastRun := false; updatedAt := 100 |}.

Definition legacyWorld : World :=
  {| disk := {[ str "main" := legacyEntry ]}; ABORT_MEMORY := ∅; saves := 0;
     signalled := []; stampedMembers := [] |}.

(** The rest of a key of the form [agent:<id>:<rest>]. *)
Definition restOfAgentKey (key : jstring) : option jstring :=
  if startsWith (str "agent:") key then
    match dropWhile (fun c => negb (code c =? 58)) (skipn 6 key) with
    | _ :: rest => Some rest
    | [] => None
    end
  else None.

(** A description kept as it is when it is a trimmed non-empty text or
    absent, and dropped otherwise. *)
Definition trimmedOrNothing (v : option json) : option jstring :=
  match v with
  | Some (JStr s) => if truthy (trim s) then Some (trim s) else None
  | _ => None
  end.

Definition dailyJob : Job :=
  {| job_name := Some (JStr (str "  daily report  "));
     job_description := None;
     job_schedule := Some (JObj [(str "kind", JStr (str "every"))]);
     job_payload := Some (JObj [(str "kind", JStr (str "systemEvent"))]);
     nextRunAtMs := None;
     job_rest := [(str "id", JStr (str "j1"))] |}.

Definition dailyDisk : Disk :=
  {| file_jobs := Some [dailyJob]; file_mtime := Some 1000%Z; reads := 0; writes := 0 |}.

(** A [message_end] event of the assistant with one text block. *)
Definition assistantEnd (t : string) : jstring :=
  jsonText "{'type':'message_end','message':{'role':'assistant','content':[{'type':'text','text':'"
    ++ str t ++ jsonText "'}]}}".

(** A [message_update] event that carries a text delta. *)
Definition textDelta (t : string) : jstring :=
  jsonText "{'type':'message_update','assistantMessageEvent':{'type':'text_delta','delta':'"
    ++ str t ++ jsonText "'}}".

(** Lines joined by line feeds. *)
Definition unlines (ls : list jstring) : jstring := join [LF] ls.

(** A request that resumes a session, with the default session arguments,
    no body placeholder in the command and a thinking level. *)
Definition resumeRequest : ArgvBuild.Request :=
  {| ArgvBuild.command := [str "pi"; str "-p"];
     ArgvBuild.template := None;
     ArgvBuild.session :=
       Some {| ArgvBuild.sessionArgNew := None; ArgvBuild.sessionArgResume := None;
               ArgvBuild.sessionArgBeforeBody := None |};
     ArgvBuild.sendSystemOnce := false;
     ArgvBuild.isNewSession := false;
     ArgvBuild.isFirstTurnInSession := false;
     ArgvBuild.systemSent := true;
     ArgvBuild.ctx_Body := Some (str "hello");
     ArgvBuild.ctx_BodyStripped := None;
     ArgvBuild.thinkLevel := Some (str "high") |}.

(** A text that is one fenced block from its first character on. *)
Definition oneFence (t : jstring) : list MediaParse.FenceSpan :=
  [{| MediaParse.span_start := 0; MediaParse.span_end := S (length t) |}].

(** A reply of two paragraphs; its token line carries a valid candidate
    and an invalid part. *)
Definition twoParagraphs : jstring :=
  str "  done,   see MEDIA: /tmp/out.png (draft)" ++ [LF; LF] ++ str "more  text   ".

End Examples.

(** * Part II: properties *)

(** ** Strings *)

Module JsFacts.
Import Js.

Lemma eqb_eq (a b : jstring) : eqb a b = true <-> a = b.
Proof.
  revert b. induction a as [|x a IH]; intros [|y b]; simpl;
    try (split; [discriminate | discriminate]).
  - split; reflexivity.
  - unfold chr_eqb. rewrite andb_true_iff, Ascii.eqb_eq, IH.
    split; [intros [-> ->]; reflexivity | intros H; injection H; auto].
Qed.

Lemma eqb_refl (a : jstring) : eqb a a = true.
Proof. now apply eqb_eq. Qed.

Lemma eqb_neq (a b : jstring) : a <> b -> eqb a b = false.
Proof.
  intros H. destruct (eqb a b) eqn:E; [|reflexivity].
  apply eqb_eq in E. contradiction.
Qed.

Lemma dropWhile_idem (p : ascii -> bool) (s : jstring) :
  dropWhile p (dropWhile p s) = dropWhile p s.
Proof.
  induction s as [|c s IH]; simpl; [reflexivity|].
  destruct (p c) eqn:E; [exact IH|]. simpl. now rewrite E.
Qed.

Lemma dropWhile_suffix (p : ascii -> bool) (s : jstring) :
  exists pre, s = pre ++ dropWhile p s.
Proof.
  induction s as [|c s [pre IH]]; simpl.
  - now exists [].
  - destruct (p c).
    + exists (c :: pre). simpl. now f_equal.
    + now exists [].
Qed.

Lemma dropWhile_nil_all (p : ascii -> bool) (s : jstring) :
  dropWhile p s = [] -> forallb p s = true.
Proof.
  induction s as [|c s IH]; simpl; [reflexivity|].
  destruct (p c); [exact IH | discriminate].
Qed.

Lemma takeWhile_all (p : ascii -> bool) (s : jstring) :
  forallb p s = true -> takeWhile p s = s.
Proof.
  induction s as [|c s IH]; simpl; [reflexivity|].
  destruct (p c); simpl; [intros H; now rewrite IH | discriminate].
Qed.

Lemma takeWhile_length_le (p : ascii -> bool) (s : jstring) :
  length (takeWhile p s) <= length s.
Proof.
  induction s as [|c s IH]; simpl; [lia|]. destruct (p c); simpl; lia.
Qed.

Lemma forallb_skipn (p : ascii -> bool) (n : nat) (s : jstring) :
  forallb p s = true -> forallb p (skipn n s) = true.
Proof.
  revert s. induction n as [|n IH]; intros [|c s]; simpl; auto.
  rewrite andb_true_iff. intros [_ H]. now apply IH.
Qed.

Lemma startsWithCI_length (p s : jstring) :
  startsWithCI p s = true -> length p <= length s.
Proof.
  revert s. induction p as [|a p IH]; intros [|b s]; simpl; try lia; try discriminate.
  rewrite andb_true_iff. intros [_ H]. apply IH in H. lia.
Qed.

Lemma trimEnd_idem (s : jstring) : trimEnd (trimEnd s) = trimEnd s.
Proof.
  unfold trimEnd. rewrite rev_involutive, dropWhile_idem. reflexivity.
Qed.

(** A string is a fixed point of [trimEnd] exactly when its last character,
    if any, is no space. *)
Lemma trimEnd_fixed_iff (s : jstring) :
  trimEnd s = s <-> (forall c r, rev s = c :: r -> isSpace c = false).
Proof.
  unfold trimEnd. split.
  - intros H c r E. rewrite E in H. simpl in H.
    destruct (isSpace c) eqn:Ec; [|reflexivity].
    exfalso.
    assert (L : length (dropWhile isSpace r) <= length r).
    { destruct (dropWhile_suffix isSpace r) as [pre Hp].
      rewrite Hp at 2. rewrite length_app. lia. }
    apply (f_equal (@length ascii)) in H.
    rewrite length_rev in H.
    assert (length s = S (length r)).
    { rewrite <- (length_rev s), E. reflexivity. }
    lia.
  - intros H. destruct (rev s) as [|c r] eqn:E.
    + simpl. rewrite <- (rev_involutive s), E. reflexivity.
    + simpl. rewrite (H c r eq_refl).
      rewrite <- E. apply rev_involutive.
Qed.

Lemma trimEnd_dropWhile_fixed (p : ascii -> bool) (s : jstring) :
  trimEnd s = s -> trimEnd (dropWhile p s) = dropWhile p s.
Proof.
  rewrite !trimEnd_fixed_iff. intros H c r E.
  destruct (dropWhile_suffix p s) as [pre Hp].
  apply (H c (r ++ rev pre)).
  rewrite Hp at 1. rewrite rev_app_distr, E. reflexivity.
Qed.

Lemma trimEnd_trim (s : jstring) : trimEnd (trim s) = trim s.
Proof.
  unfold trim, trimStart. apply trimEnd_dropWhile_fixed, trimEnd_idem.
Qed.

Lemma trim_idem (s : jstring) : trim (trim s) = trim s.
Proof.
  unfold trim at 1. rewrite trimEnd_trim. unfold trim, trimStart.
  apply dropWhile_idem.
Qed.

(** A fixed point of [trimEnd] whose [trim] is empty is itself empty. *)
Lemma trim_nil_fixed (s : jstring) : trimEnd s = s -> trim s = [] -> s = [].
Proof.
  intros Hf Ht. unfold trim, trimStart in Ht. rewrite Hf in Ht.
  apply dropWhile_nil_all in Ht.
  destruct (rev s) as [|c r] eqn:E.
  - rewrite <- (rev_involutive s), E. reflexivity.
  - apply trimEnd_fixed_iff with (c := c) (r := r) in Hf; [|exact E].
    assert (Hin : In c s). { apply in_rev. rewrite E. now left. }
    rewrite forallb_forall in Ht. rewrite (Ht c Hin) in Hf. discriminate.
Qed.

Lemma slice_length_le (n : nat) (s : jstring) : length (slice 0 n s) <= n.
Proof. unfold slice. rewrite length_firstn. lia. Qed.

(** The pieces of [split] on a character do not contain it. *)
Lemma splitChar_free (sep : ascii) (s : jstring) :
  Forall (fun piece => forallb (fun c => negb (chr_eqb c sep)) piece = true)
         (splitChar sep s).
Proof.
  induction s as [|c s IH]; simpl.
  - constructor; [reflexivity | constructor].
  - destruct (chr_eqb c sep) eqn:E.
    + constructor; [reflexivity | exact IH].
    + destruct (splitChar sep s) as [|w ws]; [repeat constructor; simpl; now rewrite E|].
      inversion IH as [|? ? Hw Hws]; subst.
      constructor; [simpl; now rewrite E, Hw | exact Hws].
Qed.

End JsFacts.

(** ** Media tokens *)

Module MediaParseFacts.
Import Js JsFacts MediaParse Examples.

(** *** The candidate loop *)

Lemma scanParts_spec (parts : list jstring) (valid : bool) :
  scanParts parts valid =
    (map candidateOf (List.filter validPart parts),
     valid || existsb validPart parts,
     List.filter (fun p => negb (validPart p)) parts).
Proof.
  revert valid. induction parts as [|part rest IH]; intros valid; simpl.
  - now rewrite orb_false_r.
  - fold (validPart part). destruct (validPart part) eqn:E; simpl.
    + rewrite IH. simpl. now rewrite orb_true_r.
    + rewrite IH. reflexivity.
Qed.

Lemma isValidMedia_iff (c : jstring) :
  isValidMedia c = true <->
  c <> [] /\ length c <= 1024 /\ forallb (fun x => negb (isSpace x)) c = true /\
  (isHttpUrl c || startsWith (str "/") c || startsWith (str "./") c) = true.
Proof.
  unfold isValidMedia.
  assert (Hsp : existsb isSpace c = negb (forallb (fun x => negb (isSpace x)) c)).
  { induction c as [|x c IH]; simpl; [reflexivity|].
    rewrite IH. destruct (isSpace x); reflexivity. }
  destruct c as [|x c']; simpl truthy; simpl negb.
  - split; [discriminate | intros [H _]; exfalso; apply H; reflexivity].
  - destruct (1024 <? length (x :: c')) eqn:El.
    + apply Nat.ltb_lt in El. split; [discriminate | intros (_ & H & _); lia].
    + apply Nat.ltb_ge in El. rewrite Hsp.
      destruct (forallb (fun x0 => negb (isSpace x0)) (x :: c')); simpl.
      * split; [intros H; repeat split; try assumption; discriminate
               | intros (_ & _ & _ & H); exact H].
      * split; [discriminate | intros (_ & _ & H & _); discriminate].
Qed.

(** *** Invariants of the line scan *)

Lemma candidates_valid (parts : list jstring) :
  allValid (map candidateOf (List.filter validPart parts)).
Proof.
  unfold allValid. induction parts as [|p rest IH]; simpl; [constructor|].
  destruct (validPart p) eqn:E; simpl; [constructor; assumption | assumption].
Qed.

Lemma stepMatch_found (line : jstring) (st : LineState) (m : TokenMatch) :
  found (stepMatch line st m) =
  found st ++ map candidateOf (List.filter validPart (words (m_payload m))).
Proof. unfold stepMatch. rewrite scanParts_spec. reflexivity. Qed.

Lemma fold_stepMatch_valid (line : jstring) (ms : list TokenMatch) (st : LineState) :
  allValid (found st) -> allValid (found (fold_left (stepMatch line) ms st)).
Proof.
  revert st. induction ms as [|m ms IH]; intros st H; simpl; [exact H|].
  apply IH. rewrite stepMatch_found. apply Forall_app. split; [exact H|].
  apply candidates_valid.
Qed.

Lemma stepLine_ok (fenceSpans : list FenceSpan) (sc : Scan) (line : jstring) :
  scanOk sc -> scanOk (stepLine fenceSpans sc line).
Proof.
  intros [Hv Hf]. unfold stepLine.
  destruct (isInsideFence fenceSpans (lineOffset sc)); [split; assumption|].
  destruct (matchAll line) as [|m ms] eqn:E; [split; assumption|].
  split; simpl.
  - apply Forall_app. split; [exact Hv|].
    apply (fold_stepMatch_valid line ms). simpl. rewrite stepMatch_found. simpl.
    apply candidates_valid.
  - discriminate.
Qed.

Lemma scanLines_ok (fenceSpans : list FenceSpan) (lines : list jstring) :
  scanOk (scanLines fenceSpans lines).
Proof.
  unfold scanLines.
  assert (G : forall sc, scanOk sc -> scanOk (fold_left (stepLine fenceSpans) lines sc)).
  { induction lines as [|l ls IH]; intros sc H; simpl; [exact H|].
    apply IH, stepLine_ok, H. }
  apply G. split; [constructor | reflexivity].
Qed.

(** *** At most one token per line *)

(** On text without line feed the capture group runs to the end: a match
    of the tail consumes all of it. *)
Lemma tailAt_consumes (k : nat) (rest g : jstring) (n : nat) :
  noLF rest -> k <= length rest -> tailAt k rest = Some (g, n) -> n = length rest.
Proof.
  unfold noLF, tailAt. intros Hn Hk.
  pose proof (forallb_skipn notLF k rest Hn) as Ha.
  pose proof (length_skipn k rest) as Hl.
  destruct (skipn k rest) as [|c after'] eqn:Es; [discriminate|].
  simpl in Hl.
  assert (Hplain : takeWhile notLF (c :: after') = c :: after')
    by (apply takeWhile_all; exact Ha).
  assert (Hafter : takeWhile notLF after' = after').
  { apply takeWhile_all. simpl in Ha. apply andb_true_iff in Ha. tauto. }
  rewrite Hplain, Hafter.
  destruct (isBacktick c).
  - destruct (truthy after'); intros H; injection H as _ <-; simpl; lia.
  - simpl. intros H; injection H as _ <-. simpl. lia.
Qed.

Lemma tailFrom_consumes (k : nat) (rest g : jstring) (n : nat) :
  noLF rest -> k <= length rest -> tailFrom k rest = Some (g, n) -> n = length rest.
Proof.
  intros Hn. induction k as [|k IH]; intros Hk; simpl.
  - destruct (tailAt 0 rest) as [[g' n']|] eqn:E; [|discriminate].
    intros H; injection H as -> ->. eapply tailAt_consumes; eauto.
  - destruct (tailAt (S k) rest) as [[g' n']|] eqn:E.
    + intros H; injection H as -> ->. eapply tailAt_consumes; eauto.
    + apply IH. lia.
Qed.

Lemma mediaTail_consumes (rest g : jstring) (n : nat) :
  noLF rest -> mediaTail rest = Some (g, n) -> n = length rest.
Proof.
  intros Hn. unfold mediaTail. apply tailFrom_consumes; [exact Hn|].
  apply takeWhile_length_le.
Qed.

Lemma matchAllFrom_nil (fuel : nat) (prev : option ascii) (pos : nat) :
  matchAllFrom fuel prev pos [] = [].
Proof. destruct fuel; reflexivity. Qed.

Lemma matchAllFrom_cons (fuel : nat) (prev : option ascii) (pos : nat)
  (c : ascii) (s' : jstring) :
  matchAllFrom (S fuel) prev pos (c :: s') =
  match (if match prev with None => true | Some p => negb (isWord p) end
            && startsWithCI (str "MEDIA:") (c :: s')
         then mediaTail (skipn 6 (c :: s')) else None) with
  | Some (payload, n) =>
      {| m_index := pos; m_payload := payload; m_length := 6 + n |}
        :: matchAllFrom fuel (Some (List.last (firstn (6 + n) (c :: s')) c))
             (pos + (6 + n)) (skipn (6 + n) (c :: s'))
  | None => matchAllFrom fuel (Some c) (pos + 1) s'
  end.
Proof. reflexivity. Qed.

Lemma matchAllFrom_at_most_one (fuel : nat) (prev : option ascii) (pos : nat) (s : jstring) :
  noLF s -> length (matchAllFrom fuel prev pos s) <= 1.
Proof.
  revert prev pos s. induction fuel as [|fuel IH]; intros prev pos s Hn; [simpl; lia|].
  destruct s as [|c s']; [simpl; lia|].
  assert (Hn' : noLF s').
  { unfold noLF in *. simpl in Hn. apply andb_true_iff in Hn. tauto. }
  rewrite matchAllFrom_cons.
  destruct (match prev with None => true | Some p => negb (isWord p) end
            && startsWithCI (str "MEDIA:") (c :: s')) eqn:Eb; [|apply IH, Hn'].
  destruct (mediaTail (skipn 6 (c :: s'))) as [[payload n]|] eqn:Em; [|apply IH, Hn'].
  apply mediaTail_consumes in Em; [|apply forallb_skipn; exact Hn].
  apply andb_true_iff in Eb. destruct Eb as [_ Eb].
  apply startsWithCI_length in Eb. change (length (str "MEDIA:")) with 6 in Eb.
  rewrite length_skipn in Em.
  assert (Hall : skipn (6 + n) (c :: s') = []).
  { apply skipn_all2. lia. }
  rewrite Hall, matchAllFrom_nil. simpl. lia.
Qed.

(** A line has no token match or exactly one. *)
Lemma matchAll_at_most_one (line : jstring) :
  noLF line -> matchAll line = [] \/ exists m, matchAll line = [m].
Proof.
  intros Hn. pose proof (matchAllFrom_at_most_one (length line) None 0 line Hn) as H.
  unfold matchAll. destruct (matchAllFrom _ _ _ _) as [|m [|m' ms]]; simpl in H.
  - now left.
  - right. now exists m.
  - lia.
Qed.

(** The lines [splitMediaFromOutput] scans contain no line feed. *)
Lemma scanned_lines_noLF (s : jstring) : Forall noLF (splitChar LF s).
Proof.
  pose proof (splitChar_free LF s) as H.
  eapply List.Forall_impl; [|exact H].
  intros piece Hp. unfold noLF.
  rewrite forallb_forall in *. intros c Hc. specialize (Hp c Hc).
  unfold notLF, isLF, code. unfold chr_eqb in Hp.
  destruct (nat_of_ascii c =? 10) eqn:E; [|reflexivity].
  apply Nat.eqb_eq in E.
  assert (c = LF).
  { rewrite <- (ascii_nat_embedding c), E. reflexivity. }
  subst c. discriminate.
Qed.

(** *** The result record *)

Section WithFences.

Variable parseFenceSpans : jstring -> list FenceSpan.

(** C10.  For every input the result of [splitMediaFromOutput] is well
    formed: when [mediaUrls] is present it is non-empty, the legacy field
    [mediaUrl] is its first element and every element passed
    [isValidMedia]; when it is absent so is [mediaUrl]; and it is absent
    exactly when no valid media candidate was found. *)
Theorem splitMedia_result_fields (raw : jstring) :
  let r := splitMediaFromOutput parseFenceSpans raw in
  match mediaUrls r with
  | Some urls =>
      urls <> [] /\ mediaUrl r = List.hd_error urls /\ allValid urls
  | None => mediaUrl r = None
  end /\
  (mediaUrls r = None <-> collectedMedia parseFenceSpans raw = []).
Proof.
  unfold splitMediaFromOutput, collectedMedia.
  destruct (negb (truthy (trim (trimEnd raw)))); simpl.
  - split; [reflexivity | split; reflexivity].
  - pose proof (scanLines_ok (parseFenceSpans (trimEnd raw)) (splitChar LF (trimEnd raw)))
      as [Hv _].
    fold (scanOf parseFenceSpans (trimEnd raw)) in Hv.
    destruct (media (scanOf parseFenceSpans (trimEnd raw))) as [|u us] eqn:E; simpl.
    + split; [reflexivity | split; reflexivity].
    + split; [|split; discriminate].
      repeat split; [discriminate | exact Hv].
Qed.

(** The text field of a result never ends in white space. *)
Lemma text_trimEnd_fixed (raw : jstring) :
  trimEnd (text (splitMediaFromOutput parseFenceSpans raw)) =
  text (splitMediaFromOutput parseFenceSpans raw).
Proof.
  unfold splitMediaFromOutput.
  destruct (negb (truthy (trim (trimEnd raw)))); [reflexivity|].
  cbv zeta.
  assert (Hc : forall sc,
    trimEnd (if includesCI AUDIO_TAG (cleanJoined (keptLines sc))
             then stripAudioTag (cleanJoined (keptLines sc))
             else cleanJoined (keptLines sc)) =
    (if includesCI AUDIO_TAG (cleanJoined (keptLines sc))
     then stripAudioTag (cleanJoined (keptLines sc))
     else cleanJoined (keptLines sc))).
  { intros sc. destruct (includesCI _ _); unfold stripAudioTag, cleanJoined;
      cbv zeta; apply trimEnd_trim. }
  destruct (media (scanOf parseFenceSpans (trimEnd raw))); simpl.
  - destruct (foundMediaToken _ || includesCI _ _); [apply Hc | apply trimEnd_idem].
  - apply Hc.
Qed.

End WithFences.

(** *** One line with a token *)

(** C5 (as the code has it).  On a line outside fenced code whose scan finds
    the token match [m], every white-space separated part of the payload is
    extracted exactly when its unwrapped form, with a leading [file://]
    removed, is non-empty, has at most 1024 characters, contains no white
    space and starts with [http://] or [https://] (in any case), with [/]
    or with [./].  The token itself is always removed from the line.  The
    invalid parts are put back, joined by single spaces, only when the line
    yielded a valid candidate; on a line without valid candidate they are
    removed with the token. *)
Theorem media_token_line_rule
  (fenceSpans : list FenceSpan) (sc : Scan) (line : jstring) (m : TokenMatch) :
  isInsideFence fenceSpans (lineOffset sc) = false ->
  matchAll line = [m] ->
  let parts := words (m_payload m) in
  let valid := List.filter validPart parts in
  let invalid := List.filter (fun p => negb (validPart p)) parts in
  let rebuilt :=
    slice 0 (m_index m) line
      ++ (if nonEmpty valid && nonEmpty invalid then join (str " ") invalid else [])
      ++ skipn (m_index m + m_length m) line in
  let cleanedLine := trim (collapseRuns2 isBlank (str " ") (length rebuilt) rebuilt) in
  media (stepLine fenceSpans sc line) = media sc ++ map candidateOf valid /\
  keptLines (stepLine fenceSpans sc line) =
    keptLines sc ++ (if truthy cleanedLine then [cleanedLine] else []) /\
  foundMediaToken (stepLine fenceSpans sc line) = true /\
  (forall part, validPart part = true <->
     candidateOf part <> [] /\ length (candidateOf part) <= 1024 /\
     forallb (fun x => negb (isSpace x)) (candidateOf part) = true /\
     (isHttpUrl (candidateOf part) || startsWith (str "/") (candidateOf part)
        || startsWith (str "./") (candidateOf part)) = true).
Proof.
  intros Hfence Hm. cbv zeta. unfold stepLine. rewrite Hfence, Hm.
  cbn [fold_left]. unfold stepMatch. rewrite scanParts_spec.
  cbn [pieces cursor hasValidMedia found media keptLines foundMediaToken app orb].
  set (parts := words (m_payload m)).
  assert (Hex : existsb validPart parts = nonEmpty (List.filter validPart parts)).
  { induction parts as [|p ps IH]; simpl; [reflexivity|].
    destruct (validPart p); simpl; [reflexivity | exact IH]. }
  assert (Hlen : forall l : list jstring, negb (length l =? 0) = nonEmpty l).
  { intros [|x l]; reflexivity. }
  rewrite Hex, Hlen.
  assert (Hcat :
    concat ((if nonEmpty (List.filter validPart parts)
                && nonEmpty (List.filter (fun p => negb (validPart p)) parts)
             then [slice 0 (m_index m) line;
                   join (str " ") (List.filter (fun p => negb (validPart p)) parts)]
             else [slice 0 (m_index m) line])
            ++ [skipn (m_index m + m_length m) line]) =
    slice 0 (m_index m) line
      ++ (if nonEmpty (List.filter validPart parts)
             && nonEmpty (List.filter (fun p => negb (validPart p)) parts)
          then join (str " ") (List.filter (fun p => negb (validPart p)) parts) else [])
      ++ skipn (m_index m + m_length m) line).
  { destruct (nonEmpty (List.filter validPart parts)
              && nonEmpty (List.filter (fun p => negb (validPart p)) parts));
      simpl; rewrite ?app_nil_r; reflexivity. }
  cbn [Nat.add] in *. rewrite Hcat.
  split; [reflexivity|]. split; [|split; [reflexivity|]].
  - destruct (truthy _); [reflexivity | now rewrite app_nil_r].
  - intros part. unfold validPart. apply isValidMedia_iff.
Qed.

(** C5, witness of [media_token_line_rule]: a line with two valid candidates
    and one invalid part between them. *)
Lemma media_token_line_rule_witness :
  let line := str "a MEDIA: file:///tmp/x.png, junk ./rel.png" in
  let sc0 := {| keptLines := []; media := []; foundMediaToken := false; lineOffset := 0 |} in
  media (stepLine [] sc0 line) = [str "/tmp/x.png"; str "./rel.png"] /\
  keptLines (stepLine [] sc0 line) = [str "a junk"].
Proof.
  pose proof (media_token_line_rule []
    {| keptLines := []; media := []; foundMediaToken := false; lineOffset := 0 |}
    (str "a MEDIA: file:///tmp/x.png, junk ./rel.png")
    {| m_index := 2; m_payload := str "file:///tmp/x.png, junk ./rel.png"; m_length := 40 |}
    ltac:(vm_compute; reflexivity) ltac:(vm_compute; reflexivity)) as H.
  cbv zeta in H. destruct H as (Hm & Hk & _).
  split; [rewrite Hm | rewrite Hk]; vm_compute; reflexivity.
Defined.

(** C5, counterexample to the claim as stated.  (1) The invalid candidate
    [nope] is not left in the text: the token and the candidate are both
    removed.  (2) A candidate of exactly 1024 characters is accepted.
    (3) The relative path [../pic.png] is not accepted. *)
Lemma invalid_candidate_is_dropped :
  (validPart (str "nope") = false /\
   splitMediaFromOutput noFences (str "see MEDIA: nope") =
     {| text := str "see"; mediaUrls := None; mediaUrl := None; audioAsVoice := None |})
  /\ (length (str "/" ++ repeat "a"%char 1023) = 1024 /\
      isValidMedia (str "/" ++ repeat "a"%char 1023) = true)
  /\ (validPart (str "../pic.png") = false /\
      splitMediaFromOutput noFences (str "MEDIA: ../pic.png") =
        {| text := []; mediaUrls := None; mediaUrl := None; audioAsVoice := None |}).
Proof. vm_compute. repeat split; reflexivity. Qed.


(** *** Further properties of [splitMediaFromOutput] *)

Lemma matchAllFrom_ends (fuel : nat) (prev : option ascii) (pos : nat) (s : jstring) :
  noLF s ->
  Forall (fun m => m_index m + m_length m = pos + length s)
         (matchAllFrom fuel prev pos s).
Proof.
  revert prev pos s. induction fuel as [|fuel IH]; intros prev pos s Hn; [constructor|].
  destruct s as [|c s']; [constructor|].
  assert (Hn' : noLF s').
  { unfold noLF in *. simpl in Hn. apply andb_true_iff in Hn. tauto. }
  rewrite matchAllFrom_cons.
  assert (Hskip : Forall (fun m => m_index m + m_length m = pos + length (c :: s'))
                         (matchAllFrom fuel (Some c) (pos + 1) s')).
  { eapply List.Forall_impl; [|apply (IH (Some c) (pos + 1) s' Hn')].
    intros m Hm. simpl in *. lia. }
  destruct (match prev with None => true | Some p => negb (isWord p) end
            && startsWithCI (str "MEDIA:") (c :: s')) eqn:Eb; [|exact Hskip].
  destruct (mediaTail (skipn 6 (c :: s'))) as [[payload n]|] eqn:Em; [|exact Hskip].
  apply mediaTail_consumes in Em; [|apply forallb_skipn; exact Hn].
  apply andb_true_iff in Eb. destruct Eb as [_ Eb].
  apply startsWithCI_length in Eb. change (length (str "MEDIA:")) with 6 in Eb.
  rewrite length_skipn in Em.
  assert (Hall : skipn (6 + n) (c :: s') = []).
  { apply skipn_all2. lia. }
  rewrite Hall, matchAllFrom_nil. constructor; [|constructor].
  cbn [m_index m_length]. lia.
Qed.

(** Every line that [splitMediaFromOutput] scans has at most one match of
    [MEDIA_TOKEN_RE], and a match runs to the end of its line: the capture
    group [[^\n]+] is greedy, so what follows the first [MEDIA:] of a line,
    a second [MEDIA:] included, is payload of that one token. *)
Theorem one_token_per_line (raw : jstring) :
  Forall (fun line =>
            matchAll line = [] \/
            exists m, matchAll line = [m] /\ m_index m + m_length m = length line)
         (splitChar LF raw).
Proof.
  eapply List.Forall_impl; [|apply scanned_lines_noLF].
  intros line Hn.
  pose proof (matchAllFrom_ends (length line) None 0 line Hn) as He.
  destruct (matchAll_at_most_one line Hn) as [H | [m H]]; [now left|].
  right. exists m. split; [exact H|].
  unfold matchAll in H. rewrite H in He. inversion He; subst. simpl in *. lia.
Qed.

(** The text of a result never ends in white space. *)
Theorem result_text_has_no_trailing_space
  (parseFenceSpans : jstring -> list FenceSpan) (raw : jstring) :
  match rev (text (splitMediaFromOutput parseFenceSpans raw)) with
  | c :: _ => isSpace c = false
  | [] => True
  end.
Proof.
  pose proof (text_trimEnd_fixed parseFenceSpans raw) as H.
  rewrite trimEnd_fixed_iff in H.
  destruct (rev (text (splitMediaFromOutput parseFenceSpans raw))) as [|c r] eqn:E;
    [exact I|].
  apply (H c r). reflexivity.
Qed.

Lemma trimEnd_blank (s : jstring) : forallb isSpace s = true -> trimEnd s = [].
Proof.
  intros H. unfold trimEnd.
  assert (Hr : forallb isSpace (rev s) = true).
  { rewrite forallb_forall in *. intros c Hc. apply H. now apply in_rev. }
  assert (G : forall l, forallb isSpace l = true -> dropWhile isSpace l = []).
  { induction l as [|c l IH]; simpl; [reflexivity|].
    destruct (isSpace c); [exact IH | discriminate]. }
  now rewrite (G _ Hr).
Qed.

(** An input of white space only, the empty input included, gives the
    empty text and nothing else. *)
Theorem blank_input_gives_empty_result
  (parseFenceSpans : jstring -> list FenceSpan) (raw : jstring) :
  forallb isSpace raw = true ->
  splitMediaFromOutput parseFenceSpans raw =
    {| text := []; mediaUrls := None; mediaUrl := None; audioAsVoice := None |}.
Proof.
  intros H. unfold splitMediaFromOutput. rewrite (trimEnd_blank raw H). reflexivity.
Qed.

Lemma blank_input_gives_empty_result_witness :
  splitMediaFromOutput noFences (str "  " ++ [LF] ++ str " ") =
    {| text := []; mediaUrls := None; mediaUrl := None; audioAsVoice := None |}.
Proof.
  apply (blank_input_gives_empty_result noFences (str "  " ++ [LF] ++ str " ")).
  vm_compute. reflexivity.
Defined.

(** *** Text without token *)

Lemma startsWithCI_app (p a b : jstring) :
  startsWithCI p a = true -> startsWithCI p (a ++ b) = true.
Proof.
  revert a. induction p as [|x p IH]; intros [|y a]; simpl; try reflexivity;
    try discriminate.
  rewrite !andb_true_iff. intros [H1 H2]. split; [exact H1 | apply IH, H2].
Qed.

Lemma includesCI_prefix (p a b : jstring) :
  includesCI p a = true -> includesCI p (a ++ b) = true.
Proof.
  induction a as [|y a IH].
  - simpl. rewrite orb_false_r. intros H. destruct p; [|discriminate].
    destruct b; reflexivity.
  - cbn [includesCI app]. rewrite !orb_true_iff. intros [H | H].
    + left. apply (startsWithCI_app p (y :: a) b H).
    + right. apply IH, H.
Qed.

Lemma includesCI_suffix (p a b : jstring) :
  includesCI p b = true -> includesCI p (a ++ b) = true.
Proof.
  intros H. induction a as [|y a IH]; [exact H|].
  cbn [includesCI app]. rewrite IH. apply orb_true_r.
Qed.

Lemma includesCI_infix (p a line b : jstring) :
  includesCI p (a ++ line ++ b) = false -> includesCI p line = false.
Proof.
  intros H. destruct (includesCI p line) eqn:E; [|reflexivity].
  rewrite (includesCI_suffix p a (line ++ b) (includesCI_prefix p line b E)) in H.
  discriminate.
Qed.

Lemma splitChar_nonempty (sep : ascii) (s : jstring) : splitChar sep s <> [].
Proof.
  destruct s as [|c s]; simpl; [discriminate|].
  destruct (chr_eqb c sep); [discriminate|].
  destruct (splitChar sep s); discriminate.
Qed.

Lemma splitChar_head (sep : ascii) (s w : jstring) (ws : list jstring) :
  splitChar sep s = w :: ws -> exists b, s = w ++ b.
Proof.
  revert w ws. induction s as [|d t IH]; simpl; intros w ws H.
  - injection H as <- <-. now exists [].
  - destruct (chr_eqb d sep).
    + injection H as <- <-. now exists (d :: t).
    + destruct (splitChar sep t) as [|u us] eqn:Et.
      * now apply splitChar_nonempty in Et.
      * injection H as <- <-. destruct (IH u us eq_refl) as [b ->].
        now exists b.
Qed.

Lemma splitChar_infix (sep : ascii) (s line : jstring) :
  In line (splitChar sep s) -> exists a b, s = a ++ line ++ b.
Proof.
  revert line. induction s as [|c s IH]; intros line; simpl.
  - intros [<- | []]. now exists [], [].
  - destruct (chr_eqb c sep) eqn:E.
    + intros [<- | H].
      * exists [], (c :: s). reflexivity.
      * destruct (IH line H) as (a & b & ->). exists (c :: a), b. reflexivity.
    + destruct (splitChar sep s) as [|w ws] eqn:Es.
      * now apply splitChar_nonempty in Es.
      * intros [<- | H].
        -- destruct (splitChar_head sep s w ws Es) as [b ->].
           exists [], b. reflexivity.
        -- destruct (IH line (or_intror H)) as (a & b & ->).
           exists (c :: a), b. reflexivity.
Qed.

Lemma trimEnd_prefix (s : jstring) : exists b, s = trimEnd s ++ b.
Proof.
  unfold trimEnd. destruct (dropWhile_suffix isSpace (rev s)) as [pre H].
  exists (rev pre). rewrite <- rev_app_distr, <- H. symmetry. apply rev_involutive.
Qed.

Lemma matchAllFrom_without_token (fuel : nat) (prev : option ascii) (pos : nat)
  (s : jstring) :
  includesCI (str "MEDIA:") s = false -> matchAllFrom fuel prev pos s = [].
Proof.
  revert prev pos s. induction fuel as [|fuel IH]; intros prev pos s H; [reflexivity|].
  destruct s as [|c s']; [reflexivity|].
  rewrite matchAllFrom_cons.
  cbn [includesCI] in H. apply orb_false_iff in H. destruct H as [H1 H2].
  rewrite H1, andb_false_r. apply IH, H2.
Qed.

Lemma scan_without_match (fenceSpans : list FenceSpan) (lines : list jstring) (sc : Scan) :
  Forall (fun l => matchAll l = []) lines ->
  media (fold_left (stepLine fenceSpans) lines sc) = media sc /\
  foundMediaToken (fold_left (stepLine fenceSpans) lines sc) = foundMediaToken sc.
Proof.
  revert sc. induction lines as [|l ls IH]; intros sc H; [split; reflexivity|].
  inversion H as [|? ? Hl Hls]; subst. cbn [fold_left].
  destruct (IH (stepLine fenceSpans sc l) Hls) as [-> ->].
  unfold stepLine. rewrite Hl.
  destruct (isInsideFence fenceSpans (lineOffset sc)); split; reflexivity.
Qed.

(** A text in which [MEDIA:] does not occur, in any case, yields no media
    reference, and, unless the audio tag was found in it, it is returned as
    it came, without its trailing white space: the white space inside it is
    not collapsed. *)
Theorem text_without_token_is_kept
  (parseFenceSpans : jstring -> list FenceSpan) (raw : jstring) :
  includesCI (str "MEDIA:") raw = false ->
  let r := splitMediaFromOutput parseFenceSpans raw in
  mediaUrls r = None /\ mediaUrl r = None /\
  (audioAsVoice r = None -> text r = trimEnd raw).
Proof.
  intros H. cbv zeta. unfold splitMediaFromOutput.
  destruct (truthy (trim (trimEnd raw))) eqn:Et; cbn [negb].
  - assert (Hlines : Forall (fun l => matchAll l = []) (splitChar LF (trimEnd raw))).
    { apply List.Forall_forall. intros line Hin.
      destruct (splitChar_infix LF _ _ Hin) as (a & b & Hab).
      destruct (trimEnd_prefix raw) as [tl Htl].
      unfold matchAll. apply matchAllFrom_without_token.
      apply (includesCI_infix _ a line (b ++ tl)).
      rewrite Htl, Hab in H. rewrite <- !app_assoc in H. exact H. }
    destruct (scan_without_match (parseFenceSpans (trimEnd raw)) _
                {| keptLines := []; media := []; foundMediaToken := false;
                   lineOffset := 0 |} Hlines) as [Hm Hf].
    fold (scanLines (parseFenceSpans (trimEnd raw)) (splitChar LF (trimEnd raw))) in Hm, Hf.
    fold (scanOf parseFenceSpans (trimEnd raw)) in Hm, Hf.
    cbn [media foundMediaToken] in Hm, Hf. cbv zeta. rewrite Hm, Hf.
    cbn [mediaUrls mediaUrl audioAsVoice text orb].
    repeat split.
    destruct (includesCI AUDIO_TAG _); [discriminate | reflexivity].
  - cbn [mediaUrls mediaUrl audioAsVoice text]. repeat split.
    intros _. symmetry. apply trim_nil_fixed; [apply trimEnd_idem|].
    destruct (trim (trimEnd raw)); [reflexivity | discriminate].
Qed.

Lemma text_without_token_is_kept_witness :
  text (splitMediaFromOutput noFences (str "- item   one  ")) = str "- item   one".
Proof.
  destruct (text_without_token_is_kept noFences (str "- item   one  ")
              ltac:(vm_compute; reflexivity)) as (_ & _ & H).
  rewrite (H ltac:(vm_compute; reflexivity)). vm_compute. reflexivity.
Defined.

(** *** Fenced text *)

Lemma list_sum_cons (a : nat) (l : list nat) : list_sum (a :: l) = a + list_sum l.
Proof. reflexivity. Qed.

Lemma splitChar_total (sep : ascii) (s : jstring) :
  list_sum (map (fun l => length l + 1) (splitChar sep s)) = length s + 1.
Proof.
  induction s as [|c s IH]; [reflexivity|]. cbn [splitChar].
  destruct (chr_eqb c sep).
  - cbn [map]. rewrite list_sum_cons, IH. cbn [length]. lia.
  - destruct (splitChar sep s) as [|w ws]; cbn [map] in *;
      rewrite ?list_sum_cons in *; cbn [length list_sum fold_right] in *; lia.
Qed.

Lemma scan_fenced (fenceSpans : list FenceSpan) (lines : list jstring) (sc : Scan) :
  (forall off, lineOffset sc <= off ->
               off < lineOffset sc + list_sum (map (fun l => length l + 1) lines) ->
               isInsideFence fenceSpans off = true) ->
  media (fold_left (stepLine fenceSpans) lines sc) = media sc /\
  foundMediaToken (fold_left (stepLine fenceSpans) lines sc) = foundMediaToken sc.
Proof.
  revert sc. induction lines as [|l ls IH]; intros sc H; [split; reflexivity|].
  cbn [fold_left map] in *. rewrite list_sum_cons in H.
  assert (Hin : isInsideFence fenceSpans (lineOffset sc) = true) by (apply H; lia).
  assert (Hstep : stepLine fenceSpans sc l =
            {| keptLines := keptLines sc ++ [l]; media := media sc;
               foundMediaToken := foundMediaToken sc;
               lineOffset := lineOffset sc + (length l + 1) |}).
  { unfold stepLine. now rewrite Hin. }
  rewrite Hstep. destruct (IH {| keptLines := keptLines sc ++ [l]; media := media sc;
               foundMediaToken := foundMediaToken sc;
               lineOffset := lineOffset sc + (length l + 1) |}) as [H1 H2].
  - cbn [lineOffset]. intros off Ha Hb. apply H; lia.
  - rewrite H1, H2. split; reflexivity.
Qed.



End MediaParseFacts.

(** ** Running the media extraction twice *)

Module MediaCleanFacts.
Import Js JsFacts MediaParse MediaParseFacts Examples.

(** *** Character classes *)

Ltac by_cases_on c :=
  destruct c as [[] [] [] [] [] [] [] []]; vm_compute; try reflexivity; try discriminate.

Lemma lowerChar_space (c : ascii) : isSpace (lowerChar c) = isSpace c.
Proof. by_cases_on c. Qed.

Lemma lowerChar_word (c : ascii) : isWord (lowerChar c) = isWord c.
Proof. by_cases_on c. Qed.

Lemma space_not_word (c : ascii) : isSpace c = true -> isWord c = false.
Proof. by_cases_on c. Qed.

Lemma blank_space (c : ascii) : isBlank c = true -> isSpace c = true.
Proof. by_cases_on c. Qed.

Lemma blank_notLF (c : ascii) : isBlank c = true -> isLF c = false.
Proof. by_cases_on c. Qed.

Lemma LF_space (c : ascii) : isLF c = true -> isSpace c = true.
Proof. by_cases_on c. Qed.

Lemma isLF_eq (c : ascii) : isLF c = true -> c = LF.
Proof. by_cases_on c. Qed.

Lemma chr_eqb_eq (a b : ascii) : chr_eqb a b = true -> a = b.
Proof. unfold chr_eqb. apply Ascii.eqb_eq. Qed.

Lemma lower_eq_space (a c : ascii) :
  chr_eqb (lowerChar a) (lowerChar c) = true -> isSpace c = isSpace a.
Proof.
  intros H. apply chr_eqb_eq in H.
  now rewrite <- (lowerChar_space c), <- H, lowerChar_space.
Qed.

Lemma lower_eq_word (a c : ascii) :
  chr_eqb (lowerChar a) (lowerChar c) = true -> isWord c = isWord a.
Proof.
  intros H. apply chr_eqb_eq in H.
  now rewrite <- (lowerChar_word c), <- H, lowerChar_word.
Qed.

(** [spaceFree p]: no character of [p] is white space. *)
Local Abbreviation spaceFree p := (forallb (fun c => negb (isSpace c)) p = true).

(** *** Squeezed text *)

Lemma squeeze_refl (s : jstring) : squeeze s s.
Proof. induction s; constructor; assumption. Qed.

Lemma squeeze_head (s s' : jstring) (c : ascii) :
  squeeze s (c :: s') -> isSpace c = false ->
  exists s0, s = c :: s0 /\ squeeze s0 s'.
Proof.
  intros H Hc. inversion H; subst.
  - now exists s0.
  - discriminate.
  - congruence.
Qed.

Lemma squeeze_prefix (q : jstring) :
  spaceFree q ->
  forall s r', squeeze s (q ++ r') -> exists r, s = q ++ r /\ squeeze r r'.
Proof.
  induction q as [|c q IH]; intros Hq s r' H.
  - now exists s.
  - cbn [forallb] in Hq. apply andb_true_iff in Hq. destruct Hq as [Hc Hq].
    apply negb_true_iff in Hc. cbn [app] in H.
    destruct (squeeze_head _ _ _ H Hc) as (s0 & -> & H0).
    destruct (IH Hq _ _ H0) as (r & -> & Hr). now exists r.
Qed.

Lemma squeeze_head_notLF (r r' : jstring) (c : ascii) :
  squeeze r (c :: r') -> notLF c = true ->
  exists c0 r0, r = c0 :: r0 /\ notLF c0 = true.
Proof.
  intros H Hc. inversion H; subst.
  - now exists c, s.
  - exists b, s. split; [reflexivity|]. unfold notLF. now rewrite blank_notLF.
  - exists w, s. split; [reflexivity|]. unfold notLF in *.
    destruct (isLF w) eqn:E; [|reflexivity].
    rewrite (H5 eq_refl) in Hc. discriminate.
Qed.

Lemma squeeze_noLF (s s' : jstring) : squeeze s s' -> noLF s -> noLF s'.
Proof.
  unfold noLF. induction 1 as [|c s s' _ IH|b s s' Hb _ IH|w y s s' Hw Hy Hl _ IH];
    cbn [forallb]; rewrite ?andb_true_iff.
  - reflexivity.
  - intros [H1 H2]. split; [exact H1 | apply IH, H2].
  - intros [_ H2]. split; [reflexivity | apply IH, H2].
  - intros [_ H2]. apply IH in H2. cbn [forallb] in H2.
    now apply andb_true_iff in H2.
Qed.

(** What starts with a pattern: the characters that match the pattern, and
    the rest. *)
Lemma startsWithCI_split (p s : jstring) :
  startsWithCI p s = true ->
  exists q r, s = q ++ r /\ length q = length p /\ startsWithCI p q = true.
Proof.
  revert s. induction p as [|a p IH]; intros s H.
  - now exists [], s.
  - destruct s as [|b s]; [discriminate|]. cbn [startsWithCI] in H.
    apply andb_true_iff in H. destruct H as [Hab H].
    destruct (IH s H) as (q & r & -> & Hl & Hq).
    exists (b :: q), r. split; [reflexivity|]. split; [cbn; now rewrite Hl|].
    cbn [startsWithCI]. now rewrite Hab, Hq.
Qed.

Lemma startsWithCI_spaceFree (p q : jstring) :
  spaceFree p -> length q = length p -> startsWithCI p q = true -> spaceFree q.
Proof.
  revert q. induction p as [|a p IH]; intros [|b q] Hp Hl H; try discriminate;
    [reflexivity|].
  cbn [forallb startsWithCI] in *. apply andb_true_iff in Hp, H.
  destruct Hp as [Ha Hp]. destruct H as [Hab H].
  rewrite (lower_eq_space _ _ Hab), Ha. cbn [andb].
  apply IH; [exact Hp | now injection Hl | exact H].
Qed.

(** A pattern without white space that the squeezed text starts with is
    one the text started with. *)
Lemma squeeze_startsWithCI (p s s' : jstring) :
  spaceFree p -> squeeze s s' -> startsWithCI p s' = true ->
  exists q r r', s = q ++ r /\ s' = q ++ r' /\ length q = length p /\
                 startsWithCI p q = true /\ squeeze r r'.
Proof.
  intros Hp Hs H.
  destruct (startsWithCI_split p s' H) as (q & r' & -> & Hl & Hq).
  destruct (squeeze_prefix q (startsWithCI_spaceFree p q Hp Hl Hq) _ _ Hs) as (r & -> & Hr).
  now exists q, r, r'.
Qed.

Lemma startsWithCI_head_space (p s : jstring) (y : ascii) :
  p <> [] -> spaceFree p -> isSpace y = true -> startsWithCI p (y :: s) = false.
Proof.
  intros Hne Hp Hy. destruct p as [|a p]; [congruence|].
  cbn [forallb startsWithCI] in *. apply andb_true_iff in Hp. destruct Hp as [Ha _].
  destruct (chr_eqb (lowerChar a) (lowerChar y)) eqn:E; [|reflexivity].
  apply lower_eq_space in E. rewrite Hy in E. rewrite <- E in Ha. discriminate.
Qed.

Lemma squeeze_includesCI (p s s' : jstring) :
  p <> [] -> spaceFree p -> squeeze s s' ->
  includesCI p s' = true -> includesCI p s = true.
Proof.
  intros Hne Hp Hs. induction Hs as [|c s s' Hs IH|b s s' Hb Hs IH|w y s s' Hw Hy Hl Hs IH].
  - exact (fun H => H).
  - cbn [includesCI]. rewrite !orb_true_iff. intros [H | H]; [left | right; apply IH, H].
    destruct (squeeze_startsWithCI p (c :: s) (c :: s') Hp (squeeze_keep _ _ _ Hs) H)
      as (q & r & r' & E & _ & _ & Hq & _).
    rewrite E. now apply startsWithCI_app.
  - cbn [includesCI]. rewrite (startsWithCI_head_space p s' (ascii_of_nat 32) Hne Hp eq_refl).
    cbn [orb]. intros H. rewrite (IH H). apply orb_true_r.
  - intros H. cbn [includesCI]. rewrite (IH H). apply orb_true_r.
Qed.

(** *** The replacements squeeze *)

Lemma squeeze_drop_blanks (bs rest out : jstring) (d : ascii) :
  forallb isBlank bs = true -> isLF d = true ->
  squeeze rest out -> squeeze (bs ++ d :: rest) (d :: out).
Proof.
  intros Hb Hd Hr. induction bs as [|b bs IH]; cbn [app].
  - now constructor.
  - cbn [forallb] in Hb. apply andb_true_iff in Hb. destruct Hb as [Hb Hbs].
    apply squeeze_drop; [now apply blank_space | now apply LF_space | auto | now apply IH].
Qed.

Lemma takeWhile_dropWhile (p : ascii -> bool) (s : jstring) :
  s = takeWhile p s ++ dropWhile p s /\ forallb p (takeWhile p s) = true.
Proof.
  induction s as [|c s [IH1 IH2]]; cbn; [now split|].
  destruct (p c) eqn:E; cbn; [|now split].
  rewrite E, IH2. split; [now rewrite <- IH1 | reflexivity].
Qed.

Lemma squeeze_stripBlanksBeforeLF (fuel : nat) (s : jstring) :
  squeeze s (stripBlanksBeforeLF fuel s).
Proof.
  revert s. induction fuel as [|fuel IH]; intros s; [apply squeeze_refl|].
  destruct s as [|c s]; [constructor|]. cbn [stripBlanksBeforeLF].
  destruct (isBlank c) eqn:Ec; [|constructor; apply IH].
  destruct (dropWhile isBlank s) as [|d rest] eqn:Ed; [constructor; apply IH|].
  destruct (isLF d) eqn:El; [|constructor; apply IH].
  destruct (takeWhile_dropWhile isBlank s) as [Es Hb]. rewrite Ed in Es.
  rewrite Es. change (c :: takeWhile isBlank s ++ d :: rest)
    with ((c :: takeWhile isBlank s) ++ d :: rest).
  apply squeeze_drop_blanks; [cbn [forallb]; now rewrite Ec, Hb | exact El | apply IH].
Qed.

Section Collapse.

Variable cls : ascii -> bool.
Variable y : ascii.
Hypothesis cls_space : forall c, cls c = true -> isSpace c = true.
Hypothesis y_space : isSpace y = true.
Hypothesis cls_LF : forall c, cls c = true -> isLF c = true -> isLF y = true.
Hypothesis cls_put : forall c s s', cls c = true -> squeeze s s' -> squeeze (c :: s) (y :: s').

Lemma squeeze_run (run rest out : jstring) :
  run <> [] -> forallb cls run = true ->
  squeeze rest out -> squeeze (run ++ rest) (y :: out).
Proof.
  intros Hne Hc Hr. induction run as [|b run IH]; [congruence|].
  cbn [forallb] in Hc. apply andb_true_iff in Hc. destruct Hc as [Hb Hrun].
  destruct run as [|b2 run'].
  - cbn [app]. now apply cls_put.
  - change ((b :: b2 :: run') ++ rest) with (b :: (b2 :: run') ++ rest).
    apply squeeze_drop; [now apply cls_space | exact y_space | now apply cls_LF|].
    apply IH; [discriminate | exact Hrun].
Qed.

Lemma squeeze_collapseRuns2 (fuel : nat) (s : jstring) :
  squeeze s (collapseRuns2 cls [y] fuel s).
Proof.
  revert s. induction fuel as [|fuel IH]; intros s; [apply squeeze_refl|].
  destruct s as [|c s]; [constructor|]. cbn [collapseRuns2].
  destruct (cls c) eqn:Ec; [|constructor; apply IH].
  destruct (takeWhile cls s) as [|t ts] eqn:Et; [constructor; apply IH|].
  destruct (takeWhile_dropWhile cls s) as [Es Hb]. rewrite Et in Es, Hb.
  rewrite Es at 1. cbn [app].
  change (c :: t :: ts ++ dropWhile cls s) with ((c :: t :: ts) ++ dropWhile cls s).
  apply squeeze_run; [discriminate | cbn [forallb] in *; now rewrite Ec | apply IH].
Qed.

End Collapse.

Lemma squeeze_collapse_blanks (fuel : nat) (s : jstring) :
  squeeze s (collapseRuns2 isBlank (str " ") fuel s).
Proof.
  apply (squeeze_collapseRuns2 isBlank (ascii_of_nat 32)).
  - apply blank_space.
  - reflexivity.
  - intros c Hc Hl. rewrite (blank_notLF c Hc) in Hl. discriminate.
  - intros c s0 s' Hc H. now apply squeeze_blank.
Qed.

Lemma squeeze_collapse_LF (fuel : nat) (s : jstring) :
  squeeze s (collapseRuns2 isLF [LF] fuel s).
Proof.
  apply (squeeze_collapseRuns2 isLF LF).
  - apply LF_space.
  - reflexivity.
  - reflexivity.
  - intros c s0 s' Hc H. rewrite (isLF_eq c Hc). now constructor.
Qed.

(** *** Tokens in squeezed text *)

Local Abbreviation MEDIA := (str "MEDIA:").

Lemma MEDIA_spaceFree : spaceFree MEDIA.
Proof. reflexivity. Qed.

Lemma MEDIA_nonempty : MEDIA <> [].
Proof. discriminate. Qed.

Lemma tokenAhead_prev (p1 p2 : option ascii) (s : jstring) :
  boundaryAt p1 = boundaryAt p2 -> tokenAhead p1 s = tokenAhead p2 s.
Proof. intros H. destruct s; cbn [tokenAhead]; [reflexivity | now rewrite H]. Qed.

Lemma tokenAt_head_space (y : ascii) (s : jstring) :
  isSpace y = true -> tokenAt (y :: s) = false.
Proof.
  intros Hy. unfold tokenAt.
  now rewrite (startsWithCI_head_space MEDIA s y MEDIA_nonempty MEDIA_spaceFree Hy).
Qed.

Lemma skipn_app_exact {A : Type} (q r : list A) (n : nat) :
  length q = n -> skipn n (q ++ r) = r.
Proof. intros <-. now rewrite skipn_app, skipn_all, Nat.sub_diag. Qed.

Lemma tokenAt_char (q r : jstring) :
  length q = 6 ->
  tokenAt (q ++ r) =
  startsWithCI MEDIA q && match r with c :: _ => notLF c | [] => false end.
Proof.
  intros Hl. unfold tokenAt. rewrite (skipn_app_exact q r 6 Hl). f_equal.
  destruct (startsWithCI MEDIA q) eqn:E.
  - now apply startsWithCI_app.
  - destruct (startsWithCI MEDIA (q ++ r)) eqn:E2; [|reflexivity].
    destruct (startsWithCI_split _ _ E2) as (q2 & r2 & Heq & Hl2 & Hq2).
    change (length MEDIA) with 6 in Hl2.
    assert (q2 = q).
    { apply (f_equal (firstn 6)) in Heq.
      rewrite !firstn_app, <- Hl2 in Heq. rewrite Hl, Hl2 in Heq.
      rewrite <- Hl in Heq at 1. rewrite <- Hl2 in Heq at 3.
      rewrite !firstn_all, Nat.sub_diag in Heq. cbn in Heq.
      rewrite !app_nil_r in Heq. congruence. }
    congruence.
Qed.

Lemma squeeze_tokenAt (s s' : jstring) :
  squeeze s s' -> tokenAt s' = true -> tokenAt s = true.
Proof.
  intros Hs H. pose proof H as H0. unfold tokenAt in H0.
  apply andb_true_iff in H0. destruct H0 as [H1 _].
  destruct (squeeze_startsWithCI MEDIA s s' MEDIA_spaceFree Hs H1)
    as (q & r & r' & -> & -> & Hl & Hq & Hr).
  change (length MEDIA) with 6 in Hl.
  rewrite (tokenAt_char q r' Hl), Hq in H. rewrite (tokenAt_char q r Hl), Hq.
  cbn [andb] in *. destruct r' as [|c r']; [discriminate|].
  now destruct (squeeze_head_notLF _ _ _ Hr H) as (c0 & r0 & -> & Hc).
Qed.

(** Squeezing a text creates no token. *)
Lemma squeeze_tokenAhead (s s' : jstring) :
  squeeze s s' ->
  forall prev, tokenAhead prev s' = true -> tokenAhead prev s = true.
Proof.
  induction 1 as [|c s s' Hs IH|b s s' Hb Hs IH|w y s s' Hw Hy Hl Hs IH]; intros prev.
  - exact (fun H => H).
  - cbn [tokenAhead]. rewrite !orb_true_iff, !andb_true_iff.
    intros [[Hp H] | H]; [left | right; apply IH, H].
    split; [exact Hp|]. apply (squeeze_tokenAt (c :: s) (c :: s')); [|exact H].
    now constructor.
  - cbn [tokenAhead]. rewrite (tokenAt_head_space (ascii_of_nat 32) s' eq_refl).
    rewrite andb_false_r. cbn [orb]. intros H.
    apply orb_true_iff. right. apply IH.
    rewrite (tokenAhead_prev (Some b) (Some (ascii_of_nat 32))); [exact H|].
    cbn [boundaryAt]. rewrite (space_not_word b (blank_space b Hb)). reflexivity.
  - intros H. cbn [tokenAhead] in *. rewrite (tokenAt_head_space y s' Hy) in H.
    rewrite andb_false_r in H. cbn [orb] in H.
    apply orb_true_iff. right. apply IH. cbn [tokenAhead].
    rewrite (tokenAt_head_space y s' Hy), andb_false_r. exact H.
Qed.

(** *** Tokens and [trim] *)

Lemma tokenAt_app (a b : jstring) : tokenAt a = true -> tokenAt (a ++ b) = true.
Proof.
  unfold tokenAt. rewrite !andb_true_iff. intros [H1 H2].
  split; [now apply startsWithCI_app|].
  rewrite skipn_app. destruct (skipn 6 a); [discriminate | exact H2].
Qed.

Lemma tokenAhead_app_l (a b : jstring) (prev : option ascii) :
  tokenAhead prev a = true -> tokenAhead prev (a ++ b) = true.
Proof.
  revert prev. induction a as [|c a IH]; intros prev; [discriminate|].
  cbn [tokenAhead app]. rewrite !orb_true_iff, !andb_true_iff.
  intros [[Hp H] | H]; [left | right; apply IH, H].
  split; [exact Hp|]. now apply (tokenAt_app (c :: a) b).
Qed.

Lemma tokenAhead_dropWhile_space (s : jstring) (prev : option ascii) :
  boundaryAt prev = true ->
  tokenAhead prev (dropWhile isSpace s) = true -> tokenAhead prev s = true.
Proof.
  revert prev. induction s as [|c s IH]; intros prev Hp; [discriminate|].
  cbn [dropWhile]. destruct (isSpace c) eqn:Ec; [|exact (fun H => H)].
  intros H. cbn [tokenAhead]. apply orb_true_iff. right.
  assert (Hb : boundaryAt (Some c) = true).
  { cbn [boundaryAt]. now rewrite (space_not_word c Ec). }
  apply (IH _ Hb). rewrite (tokenAhead_prev (Some c) prev); [exact H | congruence].
Qed.

Lemma trim_tokenAhead (s : jstring) :
  tokenAhead None s = false -> tokenAhead None (trim s) = false.
Proof.
  intros H. destruct (tokenAhead None (trim s)) eqn:E; [|reflexivity].
  unfold trim, trimStart in E. apply tokenAhead_dropWhile_space in E; [|reflexivity].
  destruct (trimEnd_prefix s) as [b Hb].
  apply (tokenAhead_app_l _ b) in E. rewrite <- Hb in E. congruence.
Qed.

Lemma trim_includesCI (p s : jstring) :
  includesCI p s = false -> includesCI p (trim s) = false.
Proof.
  intros H. destruct (trimEnd_prefix s) as [b Hb].
  destruct (dropWhile_suffix isSpace (trimEnd s)) as [a Ha].
  apply (includesCI_infix p a (trim s) b). unfold trim, trimStart.
  now rewrite app_assoc, <- Ha, <- Hb.
Qed.

Lemma trim_noLF (s : jstring) : noLF s -> noLF (trim s).
Proof.
  unfold noLF. intros H. rewrite forallb_forall in *. intros c Hc. apply H.
  destruct (trimEnd_prefix s) as [b Hb].
  destruct (dropWhile_suffix isSpace (trimEnd s)) as [a Ha].
  rewrite Hb, Ha. apply in_or_app. left. apply in_or_app. now right.
Qed.

(** *** Tokens and lines *)

Lemma startsWithCI_before_LF (p x r : jstring) :
  forallb (fun a => negb (chr_eqb (lowerChar a) (lowerChar LF))) p = true ->
  startsWithCI p (x ++ LF :: r) = true -> startsWithCI p x = true.
Proof.
  revert x. induction p as [|a p IH]; intros x Hp; [reflexivity|].
  cbn [forallb] in Hp. apply andb_true_iff in Hp. destruct Hp as [Ha Hp].
  destruct x as [|c x]; cbn [app startsWithCI].
  - apply negb_true_iff in Ha. now rewrite Ha.
  - rewrite !andb_true_iff. intros [H1 H2]. split; [exact H1 | now apply IH].
Qed.

Lemma tokenAt_line_app (x r : jstring) :
  tokenAt (x ++ LF :: r) = tokenAt x.
Proof.
  destruct (tokenAt x) eqn:E; [now apply tokenAt_app|].
  destruct (tokenAt (x ++ LF :: r)) eqn:E2; [|reflexivity].
  unfold tokenAt in *. apply andb_true_iff in E2. destruct E2 as [H1 H2].
  apply startsWithCI_before_LF in H1; [|reflexivity].
  rewrite H1 in E. cbn [andb] in E. rewrite skipn_app in H2.
  destruct (skipn 6 x) eqn:Es; [|cbn [app] in H2; congruence].
  apply startsWithCI_length in H1. change (length MEDIA) with 6 in H1.
  replace (6 - length x) with 0 in H2 by lia. discriminate.
Qed.

Lemma tokenAhead_line_app (l r : jstring) (prev : option ascii) :
  tokenAhead prev (l ++ LF :: r) = tokenAhead prev l || tokenAhead None r.
Proof.
  revert prev. induction l as [|c l IH]; intros prev.
  - cbn [app tokenAhead]. rewrite (tokenAt_head_space LF r eq_refl), andb_false_r.
    cbn [orb]. now apply tokenAhead_prev.
  - cbn [app tokenAhead]. rewrite IH, orb_assoc. do 3 f_equal.
    apply (tokenAt_line_app (c :: l) r).
Qed.

Lemma tokenAhead_join (ls : list jstring) :
  tokenAhead None (join [LF] ls) = existsb (tokenAhead None) ls.
Proof.
  induction ls as [|l rest IH]; [reflexivity|].
  destruct rest as [|l2 rest]; [cbn; now rewrite orb_false_r|].
  change (join [LF] (l :: l2 :: rest)) with (l ++ LF :: join [LF] (l2 :: rest)).
  rewrite tokenAhead_line_app, IH. reflexivity.
Qed.

Lemma join_splitChar (s : jstring) : join [LF] (splitChar LF s) = s.
Proof.
  induction s as [|c s IH]; [reflexivity|]. cbn [splitChar].
  pose proof (splitChar_nonempty LF s) as Hne.
  destruct (chr_eqb c LF) eqn:E.
  - apply chr_eqb_eq in E. subst c.
    destruct (splitChar LF s) as [|w ws]; [congruence|].
    change (join [LF] ([] :: w :: ws)) with (LF :: join [LF] (w :: ws)).
    now rewrite IH.
  - destruct (splitChar LF s) as [|w ws]; [congruence|].
    rewrite <- IH. destruct ws; reflexivity.
Qed.

(** *** Tokens and the matches of [MEDIA_TOKEN_RE] *)

Lemma noLF_cons (c : ascii) (s : jstring) : noLF (c :: s) -> notLF c = true /\ noLF s.
Proof. unfold noLF. cbn [forallb]. now rewrite andb_true_iff. Qed.

Lemma noLF_app (a b : jstring) : noLF (a ++ b) <-> noLF a /\ noLF b.
Proof. unfold noLF. now rewrite forallb_app, andb_true_iff. Qed.

Lemma mediaTail_nil : mediaTail [] = None.
Proof. reflexivity. Qed.

Lemma tailFrom_some (rest : jstring) (k : nat) :
  tailAt 0 rest <> None -> tailFrom k rest <> None.
Proof.
  intros H. induction k as [|k IH]; cbn [tailFrom].
  - destruct (tailAt 0 rest); [discriminate | congruence].
  - destruct (tailAt (S k) rest); [discriminate | exact IH].
Qed.

Lemma mediaTail_some (rest : jstring) :
  noLF rest -> rest <> [] -> mediaTail rest <> None.
Proof.
  intros Hn Hne. unfold mediaTail. apply tailFrom_some.
  destruct rest as [|c after]; [congruence|].
  apply noLF_cons in Hn. destruct Hn as [Hc _].
  unfold tailAt. cbn [skipn takeWhile]. rewrite Hc.
  destruct (isBacktick c); [destruct (truthy _)|]; discriminate.
Qed.

(** On a line, the scan finds a match at a position exactly when a token
    stands there. *)
Lemma here_iff (prev : option ascii) (s : jstring) :
  noLF s ->
  (if boundaryAt prev && startsWithCI MEDIA s then mediaTail (skipn 6 s) else None) = None <->
  boundaryAt prev && tokenAt s = false.
Proof.
  intros Hn. unfold tokenAt.
  destruct (boundaryAt prev); cbn [andb]; [|tauto].
  destruct (startsWithCI MEDIA s); cbn [andb]; [|tauto].
  pose proof (forallb_skipn notLF 6 s Hn) as Hs.
  destruct (skipn 6 s) as [|c r] eqn:E; [now rewrite mediaTail_nil|].
  pose proof (mediaTail_some (c :: r) Hs ltac:(discriminate)) as Hm.
  apply noLF_cons in Hs. destruct Hs as [-> _].
  split; [intros H; congruence | discriminate].
Qed.

Lemma matchAllFrom_none_iff (s : jstring) :
  noLF s ->
  forall fuel prev pos, length s <= fuel ->
    (matchAllFrom fuel prev pos s = [] <-> tokenAhead prev s = false).
Proof.
  induction s as [|c s IH]; intros Hn fuel prev pos Hf.
  - rewrite matchAllFrom_nil. tauto.
  - destruct fuel as [|fuel]; [cbn [length] in Hf; lia|].
    cbn [length] in Hf. rewrite matchAllFrom_cons.
    change (match prev with None => true | Some p => negb (isWord p) end)
      with (boundaryAt prev).
    pose proof (here_iff prev (c :: s) Hn) as Hh.
    cbn [tokenAhead]. rewrite orb_false_iff.
    destruct (if boundaryAt prev && startsWithCI MEDIA (c :: s)
              then mediaTail (skipn 6 (c :: s)) else None) as [[payload n]|].
    + split; [discriminate|]. intros [H _]. apply Hh in H. discriminate.
    + rewrite (IH (proj2 (noLF_cons _ _ Hn)) fuel (Some c) (pos + 1) ltac:(lia)).
      split; [intros H; split; [now apply Hh | exact H] | tauto].
Qed.

(** A line has no match exactly when no token stands in it. *)
Lemma matchAll_none_iff (line : jstring) :
  noLF line -> (matchAll line = [] <-> tokenAhead None line = false).
Proof. intros Hn. now apply matchAllFrom_none_iff. Qed.

Lemma last_cons_default {A : Type} (a d : A) (l : list A) :
  List.last (a :: l) d = List.last l a.
Proof.
  revert a d. induction l as [|b l IH]; intros a d; [reflexivity|].
  change (List.last (a :: b :: l) d) with (List.last (b :: l) d).
  now rewrite !IH.
Qed.

Lemma startsWithCI_long (p x b : jstring) :
  length p <= length x -> startsWithCI p (x ++ b) = startsWithCI p x.
Proof.
  revert x. induction p as [|a p IH]; intros [|c x] H; cbn [length] in H;
    try reflexivity; try lia.
  cbn [app startsWithCI]. rewrite IH; [reflexivity | lia].
Qed.

(** A text shorter than [MEDIA:] that opens an occurrence of it ends in a
    word character. *)
Lemma short_prefix_word (x b : jstring) (d : ascii) :
  x <> [] -> length x < 6 -> startsWithCI MEDIA (x ++ b) = true ->
  isWord (List.last x d) = true.
Proof.
  intros Hne Hl H.
  change MEDIA with ["M"; "E"; "D"; "I"; "A"; ":"]%char in H.
  destruct x as [|c1 [|c2 [|c3 [|c4 [|c5 [|c6 x]]]]]]; cbn [length] in Hl;
    try congruence; try lia; cbn [app startsWithCI] in H;
    repeat (apply andb_true_iff in H; let K := fresh "K" in destruct H as [K H]);
    cbn [List.last];
    match goal with
    | K : chr_eqb (lowerChar ?a) (lowerChar ?c) = true |- isWord ?c = true =>
        rewrite (lower_eq_word a c K); reflexivity
    end.
Qed.

(** The first match of a line: what stands before it holds no token,
    whatever token-free text is put behind it. *)
Lemma first_match_split (s : jstring) :
  noLF s ->
  forall fuel prev pos m ms, length s <= fuel ->
    matchAllFrom fuel prev pos s = m :: ms ->
    exists pre rest,
      s = pre ++ rest /\ m_index m = pos + length pre /\
      boundaryAt (List.last (map Some pre) prev) = true /\
      startsWithCI MEDIA rest = true /\ 7 <= length rest /\
      forall b, tokenAhead None b = false -> tokenAhead prev (pre ++ b) = false.
Proof.
  induction s as [|c s IH]; intros Hn fuel prev pos m ms Hf H.
  - rewrite matchAllFrom_nil in H. discriminate.
  - destruct fuel as [|fuel]; [cbn [length] in Hf; lia|].
    cbn [length] in Hf. rewrite matchAllFrom_cons in H.
    change (match prev with None => true | Some p => negb (isWord p) end)
      with (boundaryAt prev) in H.
    destruct (boundaryAt prev && startsWithCI MEDIA (c :: s)) eqn:Eb.
    + apply andb_true_iff in Eb. destruct Eb as [Hp Hs].
      destruct (mediaTail (skipn 6 (c :: s))) as [[payload n]|] eqn:Em.
      * injection H as <- _. exists [], (c :: s). cbn [app length map List.last m_index].
        repeat split; [lia | exact Hp | exact Hs | |].
        -- destruct (skipn 6 (c :: s)) as [|z r] eqn:Ek; [discriminate|].
           pose proof (length_skipn 6 (c :: s)) as Hk. rewrite Ek in Hk.
           cbn [length] in Hk |- *. lia.
        -- intros b Hb. rewrite <- Hb. apply tokenAhead_prev. now rewrite Hp.
      * exfalso. revert Em. apply mediaTail_some.
        -- apply forallb_skipn, Hn.
        -- destruct (IH (proj2 (noLF_cons _ _ Hn)) fuel (Some c) (pos + 1) m ms
                       ltac:(lia) H) as (pre & rest & E & _ & _ & _ & Hr & _).
           intros Hk. apply (f_equal (@length ascii)) in Hk.
           rewrite length_skipn in Hk. cbn [length] in Hk.
           rewrite E, length_app in Hk. lia.
    + destruct (IH (proj2 (noLF_cons _ _ Hn)) fuel (Some c) (pos + 1) m ms
                  ltac:(lia) H) as (pre & rest & E & Hi & Hl & Hs & Hr & Hj).
      exists (c :: pre), rest. cbn [app length map].
      rewrite last_cons_default.
      repeat split; [now rewrite E | lia | exact Hl | exact Hs | exact Hr |].
      intros b Hb. cbn [tokenAhead]. rewrite (Hj b Hb), orb_false_r.
      destruct (boundaryAt prev) eqn:Hp; [cbn [andb] in * | reflexivity].
      destruct (tokenAt (c :: pre ++ b)) eqn:Et; [exfalso | reflexivity].
      unfold tokenAt in Et. apply andb_true_iff in Et. destruct Et as [Et _].
      destruct (Nat.le_gt_cases 6 (length (c :: pre))) as [Hlen | Hlen].
      * change (c :: pre ++ b) with ((c :: pre) ++ b) in Et.
        rewrite startsWithCI_long in Et by exact Hlen.
        apply (startsWithCI_app _ _ rest) in Et. cbn [app] in Et.
        rewrite <- E in Et. congruence.
      * change (c :: pre ++ b) with ((c :: pre) ++ b) in Et.
        apply (short_prefix_word _ _ c) in Et; [|discriminate | exact Hlen].
        assert (Hw : List.last (map Some pre) (Some c) = Some (List.last (c :: pre) c)).
        { clear. revert c. induction pre as [|z pre IHp]; intros c; [reflexivity|].
          cbn [map]. rewrite !last_cons_default. rewrite IHp.
          now rewrite last_cons_default. }
        rewrite Hw in Hl. cbn [boundaryAt] in Hl. rewrite Et in Hl. discriminate.
Qed.

(** *** What the scan keeps *)

Lemma spaceFree_noLF (w : jstring) : spaceFree w -> noLF w.
Proof.
  unfold noLF. rewrite !forallb_forall. intros H c Hc. specialize (H c Hc).
  unfold notLF. destruct (isLF c) eqn:E; [|reflexivity].
  now rewrite (LF_space c E) in H.
Qed.

Lemma wordsAux_spaceFree (s cur : jstring) :
  spaceFree cur -> Forall (fun w => spaceFree w) (wordsAux cur s).
Proof.
  revert cur. induction s as [|c s IH]; intros cur Hc.
  - cbn [wordsAux]. destruct cur; constructor; [|constructor].
    rewrite forallb_forall in *. intros x Hx. apply Hc. now apply in_rev.
  - cbn [wordsAux]. destruct (isSpace c) eqn:E.
    + destruct cur as [|z cur]; [now apply IH|].
      constructor; [|now apply IH].
      rewrite forallb_forall in *. intros x Hx. apply Hc. now apply in_rev.
    + apply IH. cbn [forallb]. now rewrite E, Hc.
Qed.

Lemma join_noLF (ls : list jstring) :
  Forall noLF ls -> noLF (join (str " ") ls).
Proof.
  induction 1 as [|l rest Hl Hrest IH]; [reflexivity|].
  destruct rest as [|l2 rest]; [exact Hl|].
  change (join (str " ") (l :: l2 :: rest))
    with (l ++ str " " ++ join (str " ") (l2 :: rest)).
  apply noLF_app. split; [exact Hl|]. apply noLF_app. split; [reflexivity | exact IH].
Qed.

Lemma leftoverOf_noLF (line : jstring) : noLF (leftoverOf line).
Proof.
  unfold leftoverOf. destruct (matchAll line) as [|m ms]; [reflexivity|]. cbv zeta.
  destruct (existsb validPart (words (m_payload m))); [|reflexivity].
  apply join_noLF. apply List.Forall_forall. intros w Hw.
  apply filter_In in Hw. destruct Hw as [Hw _].
  pose proof (wordsAux_spaceFree (m_payload m) [] eq_refl) as Hall.
  rewrite List.Forall_forall in Hall. apply spaceFree_noLF, Hall, Hw.
Qed.

Lemma firstn_app_exact {A : Type} (q r : list A) (n : nat) :
  length q = n -> firstn n (q ++ r) = q.
Proof.
  intros <-. rewrite firstn_app, Nat.sub_diag, firstn_all. cbn. apply app_nil_r.
Qed.

(** The line kept for a line with a token: what stood before the token and
    the invalid parts put back, cleaned. *)
Lemma token_line_kept (fenceSpans : list FenceSpan) (sc : Scan) (line : jstring)
  (m : TokenMatch) :
  noLF line ->
  isInsideFence fenceSpans (lineOffset sc) = false ->
  matchAll line = [m] ->
  let joined := firstn (m_index m) line ++ leftoverOf line in
  let cleanedLine := trim (collapseRuns2 isBlank (str " ") (length joined) joined) in
  keptLines (stepLine fenceSpans sc line) =
    if truthy cleanedLine then keptLines sc ++ [cleanedLine] else keptLines sc.
Proof.
  intros Hn Hf Hm. cbv zeta. unfold leftoverOf, stepLine. rewrite Hf, Hm.
  cbn [fold_left]. unfold stepMatch. rewrite scanParts_spec.
  cbn [pieces cursor hasValidMedia found keptLines app orb Nat.add].
  pose proof (matchAllFrom_ends (length line) None 0 line Hn) as He.
  fold (matchAll line) in He. rewrite Hm in He. inversion He as [|? ? Hend _]; subst.
  cbn [Nat.add] in Hend. rewrite Hend, skipn_all.
  unfold slice. rewrite Nat.sub_0_r. change (skipn 0 line) with line.
  set (parts := words (m_payload m)).
  set (inv := List.filter (fun p => negb (validPart p)) parts).
  assert (Hcat :
    concat ((if existsb validPart parts && negb (length inv =? 0)
             then [firstn (m_index m) line; join (str " ") inv]
             else [firstn (m_index m) line]) ++ [[]]) =
    firstn (m_index m) line ++
      (if existsb validPart parts then join (str " ") inv else [])).
  { destruct (existsb validPart parts); cbn [andb].
    - destruct inv; cbn; rewrite ?app_nil_r; reflexivity.
    - cbn. now rewrite app_nil_r. }
  rewrite Hcat. reflexivity.
Qed.

(** [tidy l]: [l] is a line and holds no token. *)
Local Abbreviation tidy l := (noLF l /\ tokenAhead None l = false).

Lemma squeeze_tidy (s s' : jstring) : squeeze s s' -> tidy s -> tidy s'.
Proof.
  intros Hs [Hn Ht]. split; [now apply (squeeze_noLF s) |].
  destruct (tokenAhead None s') eqn:E; [|reflexivity].
  apply (squeeze_tokenAhead s s' Hs) in E. congruence.
Qed.

Lemma stepLine_tidy (fenceSpans : list FenceSpan) (sc : Scan) (line : jstring) :
  noLF line ->
  (isInsideFence fenceSpans (lineOffset sc) = true -> matchAll line = []) ->
  matchAll (leftoverOf line) = [] ->
  Forall (fun l => tidy l) (keptLines sc) ->
  Forall (fun l => tidy l) (keptLines (stepLine fenceSpans sc line)).
Proof.
  intros Hn Hfence Hleft Hk.
  assert (Hplain : matchAll line = [] ->
            Forall (fun l => tidy l) (keptLines sc ++ [line])).
  { intros H0. apply Forall_app. split; [exact Hk|]. constructor; [|constructor].
    split; [exact Hn | now apply matchAll_none_iff]. }
  destruct (isInsideFence fenceSpans (lineOffset sc)) eqn:Ef.
  - unfold stepLine. rewrite Ef. cbn [keptLines]. apply Hplain, Hfence. reflexivity.
  - destruct (matchAll_at_most_one line Hn) as [H0 | [m Hm]].
    + unfold stepLine. rewrite Ef, H0. cbn [keptLines]. now apply Hplain.
    + rewrite (token_line_kept fenceSpans sc line m Hn Ef Hm).
      destruct (truthy _); [|exact Hk].
      apply Forall_app. split; [exact Hk|]. constructor; [|constructor].
      destruct (first_match_split line Hn (length line) None 0 m [] (Nat.le_refl _) Hm)
        as (pre & rest & E & Hi & _ & _ & _ & Hj).
      cbn [Nat.add] in Hi.
      assert (Hpre : firstn (m_index m) line = pre).
      { rewrite E. now apply firstn_app_exact. }
      rewrite Hpre.
      assert (Hjoined : tidy (pre ++ leftoverOf line)).
      { split.
        - apply noLF_app. split; [|apply leftoverOf_noLF].
          rewrite E in Hn. now apply noLF_app in Hn.
        - apply Hj. apply matchAll_none_iff; [apply leftoverOf_noLF | exact Hleft]. }
      pose proof (squeeze_tidy _ _
                    (squeeze_collapse_blanks (length (pre ++ leftoverOf line)) _) Hjoined)
        as [Hn2 Ht2].
      split; [now apply trim_noLF | now apply trim_tokenAhead].
Qed.

Lemma stepLine_offset (fenceSpans : list FenceSpan) (sc : Scan) (line : jstring) :
  lineOffset (stepLine fenceSpans sc line) = lineOffset sc + (length line + 1).
Proof.
  unfold stepLine. destruct (isInsideFence _ _); [reflexivity|].
  destruct (matchAll line); reflexivity.
Qed.

Lemma scan_tidy (fenceSpans : list FenceSpan) (lines : list jstring) (sc : Scan) :
  Forall noLF lines ->
  Forall (fun l => matchAll l = []) (fencedLines fenceSpans (lineOffset sc) lines) ->
  Forall (fun l => matchAll (leftoverOf l) = []) lines ->
  Forall (fun l => tidy l) (keptLines sc) ->
  Forall (fun l => tidy l) (keptLines (fold_left (stepLine fenceSpans) lines sc)).
Proof.
  revert sc. induction lines as [|line rest IH]; intros sc Hn Hf Hl Hk; [exact Hk|].
  inversion Hn as [|? ? Hn1 Hn2]; subst. inversion Hl as [|? ? Hl1 Hl2]; subst.
  cbn [fold_left fencedLines] in *. apply Forall_app in Hf. destruct Hf as [Hf1 Hf2].
  apply IH; [exact Hn2 | now rewrite stepLine_offset | exact Hl2 |].
  apply stepLine_tidy; [exact Hn1 | | exact Hl1 | exact Hk].
  intros Ef. rewrite Ef in Hf1. now inversion Hf1.
Qed.

(** *** The clean-up of the kept lines *)

Lemma squeeze_token_free (s s' : jstring) :
  squeeze s s' -> tokenAhead None s = false -> tokenAhead None s' = false.
Proof.
  intros Hs H. destruct (tokenAhead None s') eqn:E; [|reflexivity].
  apply (squeeze_tokenAhead s s' Hs) in E. congruence.
Qed.

Lemma squeeze_pattern_free (p s s' : jstring) :
  p <> [] -> spaceFree p -> squeeze s s' ->
  includesCI p s = false -> includesCI p s' = false.
Proof.
  intros Hne Hp Hs H. destruct (includesCI p s') eqn:E; [|reflexivity].
  apply (squeeze_includesCI p s s' Hne Hp Hs) in E. congruence.
Qed.

(** The clean-up of the joined lines creates no token. *)
Lemma cleanJoined_token_free (kept : list jstring) :
  tokenAhead None (join [LF] kept) = false ->
  tokenAhead None (cleanJoined kept) = false.
Proof.
  intros H. unfold cleanJoined. cbv zeta. apply trim_tokenAhead.
  eapply squeeze_token_free; [apply squeeze_collapse_LF|].
  eapply squeeze_token_free; [apply squeeze_collapse_blanks|].
  eapply squeeze_token_free; [apply squeeze_stripBlanksBeforeLF | exact H].
Qed.

(** Nor does it create an occurrence of a pattern without white space. *)
Lemma cleanJoined_pattern_free (p : jstring) (kept : list jstring) :
  p <> [] -> spaceFree p ->
  includesCI p (join [LF] kept) = false ->
  includesCI p (cleanJoined kept) = false.
Proof.
  intros Hne Hp H. unfold cleanJoined. cbv zeta. apply trim_includesCI.
  eapply squeeze_pattern_free; [exact Hne | exact Hp | apply squeeze_collapse_LF|].
  eapply squeeze_pattern_free; [exact Hne | exact Hp | apply squeeze_collapse_blanks|].
  eapply squeeze_pattern_free;
    [exact Hne | exact Hp | apply squeeze_stripBlanksBeforeLF | exact H].
Qed.

Lemma tidy_lines_token_free (kept : list jstring) :
  Forall (fun l => tidy l) kept -> tokenAhead None (join [LF] kept) = false.
Proof.
  intros H. rewrite tokenAhead_join.
  induction H as [|l rest [_ Hl] _ IH]; [reflexivity|].
  cbn [existsb]. now rewrite Hl, IH.
Qed.

Lemma token_free_lines (t : jstring) :
  tokenAhead None t = false -> Forall (fun l => matchAll l = []) (splitChar LF t).
Proof.
  intros H. rewrite <- (join_splitChar t), tokenAhead_join in H.
  pose proof (scanned_lines_noLF t) as Hn.
  induction Hn as [|l rest Hl _ IH]; [constructor|].
  cbn [existsb] in H. apply orb_false_iff in H. destruct H as [H1 H2].
  constructor; [now apply matchAll_none_iff | now apply IH].
Qed.

Lemma scan_without_match_kept (fenceSpans : list FenceSpan) (lines : list jstring)
  (sc : Scan) :
  Forall (fun l => matchAll l = []) lines ->
  keptLines (fold_left (stepLine fenceSpans) lines sc) = keptLines sc ++ lines.
Proof.
  revert sc. induction lines as [|l ls IH]; intros sc H; [now rewrite app_nil_r|].
  inversion H as [|? ? Hl Hls]; subst. cbn [fold_left]. rewrite (IH _ Hls).
  unfold stepLine. rewrite Hl.
  destruct (isInsideFence fenceSpans (lineOffset sc)); cbn [keptLines];
    now rewrite <- app_assoc.
Qed.

Section Twice.

Variable parseFenceSpans : jstring -> list FenceSpan.

Local Abbreviation splitMediaFromOutput := (MediaParse.splitMediaFromOutput parseFenceSpans).
Local Abbreviation scanOf := (MediaParse.scanOf parseFenceSpans).

Lemma scanOf_token_free (t : jstring) :
  tokenAhead None t = false ->
  media (scanOf t) = [] /\ foundMediaToken (scanOf t) = false /\
  keptLines (scanOf t) = splitChar LF t.
Proof.
  intros H. pose proof (token_free_lines t H) as Hl.
  unfold MediaParse.scanOf, scanLines.
  destruct (scan_without_match (parseFenceSpans t) _
              {| keptLines := []; media := []; foundMediaToken := false; lineOffset := 0 |}
              Hl) as [-> ->].
  rewrite (scan_without_match_kept _ _ _ Hl). repeat split.
Qed.

(** A text without trailing white space that holds neither a token nor
    the audio tag comes back as it is, with nothing extracted; whether its
    lines lie inside fenced code makes no difference. *)
Lemma clean_text_is_fixed (t : jstring) :
  trimEnd t = t ->
  tokenAhead None t = false ->
  includesCI AUDIO_TAG t = false ->
  splitMediaFromOutput t =
    {| text := t; mediaUrls := None; mediaUrl := None; audioAsVoice := None |}.
Proof.
  intros Hfix Htok Haud. unfold MediaParse.splitMediaFromOutput. rewrite Hfix.
  destruct (truthy (trim t)) eqn:Et; cbn [negb].
  - cbv zeta. destruct (scanOf_token_free t Htok) as (Hm & Hf & Hk).
    rewrite Hm, Hf, Hk.
    rewrite (cleanJoined_pattern_free AUDIO_TAG (splitChar LF t));
      [reflexivity | discriminate | reflexivity | now rewrite join_splitChar].
  - assert (Hnil : t = []).
    { apply trim_nil_fixed; [exact Hfix|]. destruct (trim t); [reflexivity | discriminate]. }
    now rewrite Hnil.
Qed.


End Twice.


End MediaCleanFacts.

(** ** Text helpers of the reply *)

Module ReplyTextFacts.
Import Js JsFacts Json ReplyText Examples.

(** *** Lines *)

Lemma isLF_chr (c : ascii) : isLF c = chr_eqb c LF.
Proof. destruct c as [[] [] [] [] [] [] [] []]; reflexivity. Qed.

(** [free l]: the line feed does not occur in [l]. *)
Local Abbreviation free l := (forallb (fun c => negb (chr_eqb c LF)) l = true).

(** [good ls]: no line of [ls] is empty, none holds a line feed. *)
Local Abbreviation good ls := (Forall (fun l : jstring => l <> [] /\ free l) ls).

Lemma collapse_nil (fuel : nat) : collapseRuns1 isLF [LF] fuel [] = [].
Proof. destruct fuel; reflexivity. Qed.

Lemma collapse_free (l t : jstring) (fuel : nat) :
  free l ->
  collapseRuns1 isLF [LF] (length l + fuel) (l ++ t) =
  l ++ collapseRuns1 isLF [LF] fuel t.
Proof.
  induction l as [|c l IH]; intros H; [reflexivity|].
  simpl in H. apply andb_true_iff in H. destruct H as [Hc Hl].
  cbn [length Nat.add app collapseRuns1].
  rewrite isLF_chr. destruct (chr_eqb c LF); [discriminate|].
  now rewrite (IH Hl).
Qed.

Lemma dropWhile_LF_head (l t : jstring) :
  l <> [] -> free l -> dropWhile isLF (l ++ t) = l ++ t.
Proof.
  destruct l as [|c l]; [congruence|]. intros _ H. simpl in H.
  apply andb_true_iff in H. destruct H as [Hc _].
  cbn [app dropWhile]. rewrite isLF_chr. now destruct (chr_eqb c LF).
Qed.

Lemma join_head (sep l : jstring) (rest : list jstring) :
  join sep (l :: rest) =
  l ++ match rest with [] => [] | _ :: _ => sep ++ join sep rest end.
Proof. destruct rest; simpl; [now rewrite app_nil_r | reflexivity]. Qed.

Lemma collapse_join (ls : list jstring) :
  good ls ->
  forall fuel, length (join [LF] ls) <= fuel ->
  collapseRuns1 isLF [LF] fuel (join [LF] ls) = join [LF] ls.
Proof.
  induction ls as [|l rest IH]; intros Hg fuel Hf; [apply collapse_nil|].
  inversion Hg as [|? ? [Hne Hl] Hrest]; subst.
  rewrite join_head in *. rewrite length_app in Hf.
  replace fuel with (length l + (fuel - length l)) by lia.
  rewrite (collapse_free _ _ _ Hl). f_equal.
  destruct rest as [|l2 rest']; [apply collapse_nil|].
  cbn [app length] in Hf.
  destruct (fuel - length l) as [|k] eqn:Ek; [lia|].
  cbn [app collapseRuns1].
  change (isLF LF) with true. cbn iota.
  inversion Hrest as [|? ? [Hne2 Hl2] _]; subst.
  rewrite join_head at 1. rewrite (dropWhile_LF_head _ _ Hne2 Hl2).
  rewrite <- join_head. cbn [app]. f_equal. apply (IH Hrest). lia.
Qed.

Lemma splitChar_free_line (l : jstring) : free l -> splitChar LF l = [l].
Proof.
  induction l as [|c l IH]; intros H; [reflexivity|].
  simpl in H. apply andb_true_iff in H. destruct H as [Hc Hl].
  cbn [splitChar]. destruct (chr_eqb c LF); [discriminate|].
  now rewrite (IH Hl).
Qed.

Lemma splitChar_app (l t : jstring) :
  free l -> splitChar LF (l ++ LF :: t) = l :: splitChar LF t.
Proof.
  induction l as [|c l IH]; intros H; [reflexivity|].
  simpl in H. apply andb_true_iff in H. destruct H as [Hc Hl].
  cbn [app splitChar]. destruct (chr_eqb c LF); [discriminate|].
  now rewrite (IH Hl).
Qed.

Lemma splitChar_join (ls : list jstring) :
  ls <> [] -> good ls -> splitChar LF (join [LF] ls) = ls.
Proof.
  induction ls as [|l rest IH]; intros Hne Hg; [congruence|].
  inversion Hg as [|? ? [_ Hl] Hrest]; subst.
  rewrite join_head. destruct rest as [|l2 rest'].
  - rewrite app_nil_r. now apply splitChar_free_line.
  - cbn [app]. rewrite (splitChar_app _ _ Hl). f_equal.
    apply IH; [discriminate | exact Hrest].
Qed.

(** Joining lines and splitting the text again gives the lines back. *)
Lemma splitLines_join (ls : list jstring) :
  ls <> [] -> good ls -> splitLines (join [LF] ls) = ls.
Proof.
  intros Hne Hg. unfold splitLines.
  rewrite (collapse_join ls Hg _ (Nat.le_refl _)). now apply splitChar_join.
Qed.

Lemma splitLines_free (raw : jstring) :
  Forall (fun l : jstring => free l) (splitLines raw).
Proof. unfold splitLines. apply splitChar_free. Qed.

Lemma filter_all {A : Type} (f : A -> bool) (l : list A) :
  Forall (fun x => f x = true) l -> List.filter f l = l.
Proof.
  induction 1 as [|x l Hx _ IH]; simpl; [reflexivity|]. now rewrite Hx, IH.
Qed.

Section WithParser.

Variable JSON_parse : jstring -> option json.

(** *** [stripRpcNoise] *)

(** [stripRpcNoise] is idempotent: what it returns holds only lines it
    keeps, so the second pass that [extractRpcAssistantText(trimmed)] and
    the timeout branch make over its output drops nothing more. *)
Theorem stripRpcNoise_idempotent (raw : jstring) :
  stripRpcNoise JSON_parse (stripRpcNoise JSON_parse raw) =
  stripRpcNoise JSON_parse raw.
Proof.
  unfold stripRpcNoise. cbv zeta.
  set (keep := fun line : jstring =>
     match JSON_parse line with
     | Some evt => if noiseLine evt then false else truthy (trim line)
     | None => truthy (trim line)
     end).
  set (ls := List.filter keep (splitLines raw)).
  assert (Hkeep : Forall (fun l => keep l = true) ls).
  { apply List.Forall_forall. intros l Hin. apply filter_In in Hin. tauto. }
  assert (Hnil : keep [] = false).
  { unfold keep. destruct (JSON_parse []) as [evt|]; [|reflexivity].
    destruct (noiseLine evt); reflexivity. }
  assert (Hg : good ls).
  { apply List.Forall_forall. intros l Hin. apply filter_In in Hin.
    destruct Hin as [Hin Hk]. split.
    - intros ->. rewrite Hnil in Hk. discriminate.
    - pose proof (splitLines_free raw) as Hf.
      rewrite List.Forall_forall in Hf. apply Hf, Hin. }
  destruct ls as [|l rest] eqn:El.
  - cbn. rewrite Hnil. reflexivity.
  - rewrite splitLines_join; [|discriminate | exact Hg].
    now rewrite (filter_all keep _ Hkeep).
Qed.

(** No line of the output of [stripRpcNoise] is blank: the output is empty
    or each of its lines holds a character that is not white space. *)
Theorem stripRpcNoise_has_no_blank_line (raw : jstring) :
  stripRpcNoise JSON_parse raw = [] \/
  Forall (fun l => truthy (trim l) = true)
         (splitLines (stripRpcNoise JSON_parse raw)).
Proof.
  unfold stripRpcNoise. cbv zeta.
  set (keep := fun line : jstring =>
     match JSON_parse line with
     | Some evt => if noiseLine evt then false else truthy (trim line)
     | None => truthy (trim line)
     end).
  set (ls := List.filter keep (splitLines raw)).
  assert (Hk : Forall (fun l => truthy (trim l) = true) ls).
  { apply List.Forall_forall. intros l Hin. apply filter_In in Hin.
    destruct Hin as [_ Hin]. unfold keep in Hin.
    destruct (JSON_parse l) as [evt|]; [|exact Hin].
    destruct (noiseLine evt); [discriminate | exact Hin]. }
  assert (Hg : good ls).
  { apply List.Forall_forall. intros l Hin.
    rewrite List.Forall_forall in Hk. specialize (Hk l Hin).
    apply filter_In in Hin. destruct Hin as [Hin _]. split.
    - intros ->. discriminate.
    - pose proof (splitLines_free raw) as Hf.
      rewrite List.Forall_forall in Hf. apply Hf, Hin. }
  destruct ls as [|l rest] eqn:El; [now left|].
  right. rewrite splitLines_join; [exact Hk | discriminate | exact Hg].
Qed.

(** *** [extractRpcAssistantText] *)

(** What [extractRpcAssistantText] returns is never the empty text and
    carries no white space at its ends. *)
Theorem extractRpcAssistantText_is_trimmed (raw t : jstring) :
  extractRpcAssistantText JSON_parse raw = Some t ->
  t <> [] /\ trim t = t.
Proof.
  unfold extractRpcAssistantText.
  destruct (negb (truthy (trim raw))); [discriminate|].
  destruct (lastAssistant _) as [x|]; [|discriminate].
  destruct (truthy (trim x)) eqn:E; [|discriminate].
  intros H. injection H as <-. split.
  - intros Hn. rewrite Hn in E. discriminate.
  - apply trim_idem.
Qed.

End WithParser.

Lemma extractRpcAssistantText_is_trimmed_witness :
  extractRpcAssistantText Json.parse (assistantEnd "  all done ") = Some (str "all done") /\
  trim (str "all done") = str "all done".
Proof.
  assert (H : extractRpcAssistantText Json.parse (assistantEnd "  all done ")
              = Some (str "all done")) by (vm_compute; reflexivity).
  split; [exact H|].
  exact (proj2 (extractRpcAssistantText_is_trimmed Json.parse _ _ H)).
Defined.

(** *** The last line of the output *)

Lemma trim_blank_iff (s : jstring) : trim s = [] <-> forallb isSpace s = true.
Proof.
  split.
  - intros H.
    assert (Ht : trimEnd s = []).
    { apply trim_nil_fixed; [apply trimEnd_idem|].
      unfold trim in *. now rewrite trimEnd_idem. }
    unfold trimEnd in Ht.
    assert (Hd : dropWhile isSpace (rev s) = []).
    { rewrite <- (rev_involutive (dropWhile isSpace (rev s))), Ht. reflexivity. }
    apply dropWhile_nil_all in Hd. rewrite forallb_forall in *.
    intros c Hc. apply Hd. now apply in_rev in Hc.
  - intros H. unfold trim, trimStart, trimEnd.
    assert (Hr : forallb isSpace (rev s) = true).
    { rewrite forallb_forall in *. intros c Hc. apply H. now apply in_rev. }
    assert (G : forall l, forallb isSpace l = true -> dropWhile isSpace l = []).
    { induction l as [|c l IH]; simpl; [reflexivity|].
      destruct (isSpace c); [exact IH | discriminate]. }
    now rewrite (G _ Hr).
Qed.

Lemma truthy_trim_app (a b : jstring) :
  truthy (trim b) = true -> truthy (trim (a ++ b)) = true.
Proof.
  intros H. destruct (trim (a ++ b)) eqn:E; [|reflexivity].
  apply trim_blank_iff in E. rewrite forallb_app in E.
  apply andb_true_iff in E. destruct E as [_ E].
  apply trim_blank_iff in E. rewrite E in H. discriminate.
Qed.

Lemma collapse_line (line : jstring) (fuel : nat) :
  free line -> collapseRuns1 isLF [LF] fuel line = line.
Proof.
  intros Hf. revert line Hf. induction fuel as [|fuel IH]; intros line Hf; [reflexivity|].
  destruct line as [|c line]; [reflexivity|].
  simpl in Hf. apply andb_true_iff in Hf. destruct Hf as [Hc Hf].
  cbn [collapseRuns1]. rewrite isLF_chr. destruct (chr_eqb c LF); [discriminate|].
  now rewrite (IH line Hf).
Qed.

Lemma dropWhile_LF_tail (line b : jstring) :
  line <> [] -> free line ->
  (exists b2, dropWhile isLF (b ++ LF :: line) = b2 ++ LF :: line /\
              length b2 <= length b) \/
  dropWhile isLF (b ++ LF :: line) = line.
Proof.
  intros Hne Hf. induction b as [|c b IH].
  - right. cbn [app dropWhile]. change (isLF LF) with true. cbn iota.
    rewrite <- (app_nil_r line). now apply dropWhile_LF_head.
  - cbn [app dropWhile]. destruct (isLF c).
    + destruct IH as [(b2 & -> & Hl) | ->]; [left | now right].
      exists b2. split; [reflexivity | cbn [length]; lia].
    + left. now exists (c :: b).
Qed.

Lemma collapse_keeps_last_line (line : jstring) :
  line <> [] -> free line ->
  forall fuel body,
    length (body ++ LF :: line) <= fuel ->
    exists body', collapseRuns1 isLF [LF] fuel (body ++ LF :: line) = body' ++ LF :: line.
Proof.
  intros Hne Hf. induction fuel as [|fuel IH]; intros body Hl.
  - rewrite length_app in Hl. cbn [length] in Hl. lia.
  - destruct body as [|c b].
    + exists []. cbn [app collapseRuns1]. change (isLF LF) with true. cbn iota.
      rewrite <- (app_nil_r line) at 1. rewrite (dropWhile_LF_head _ _ Hne Hf), app_nil_r.
      cbn [length] in Hl. rewrite collapse_line; [reflexivity | exact Hf].
    + cbn [app length] in Hl. cbn [app collapseRuns1]. destruct (isLF c).
      * destruct (dropWhile_LF_tail line b Hne Hf) as [(b2 & -> & Hb) | ->].
        -- destruct (IH b2) as [body' ->].
           { rewrite length_app in *. cbn [length] in *. lia. }
           now exists (LF :: body').
        -- exists []. rewrite length_app in Hl. cbn [length] in Hl.
           rewrite collapse_line; [reflexivity | exact Hf].
      * destruct (IH b) as [body' ->]; [lia|]. now exists (c :: body').
Qed.

Lemma splitChar_last_line (line body : jstring) :
  free line ->
  exists l0 ls, splitChar LF (body ++ LF :: line) = l0 :: ls ++ [line].
Proof.
  intros Hf. induction body as [|c b (l0 & ls & IH)].
  - exists [], []. cbn [app splitChar]. change (chr_eqb LF LF) with true. cbn iota.
    now rewrite splitChar_free_line.
  - cbn [app splitChar]. rewrite IH. destruct (chr_eqb c LF).
    + now exists [], (l0 :: ls).
    + now exists (c :: l0), ls.
Qed.

Section LastLine.

Variable JSON_parse : jstring -> option json.

(** A [message_end] event of the assistant with text sets the answer,
    whatever the loop has seen before. *)
Lemma extractStep_final (st : Extract) (line : jstring) (evt : json) (content : list json) :
  JSON_parse line = Some evt ->
  isStr "message_end" (field "type" evt) = true ->
  isStr "assistant" (ofield "role" (field "message" evt)) = true ->
  asArray (ofield "content" (field "message" evt)) = Some content ->
  truthy (textOfContent content) = true ->
  extractStep JSON_parse st line =
    {| deltaBuffer := []; lastAssistant := Some (textOfContent content) |}.
Proof.
  intros Hp Ht Hr Hc Hx. unfold extractStep. rewrite Hp.
  destruct evt as [| | | | |ms]; try discriminate.
  rewrite Ht, Hr, Hc, Hx. cbn [andb].
  assert (Hu : isStr "message_update" (field "type" (JObj ms)) = false).
  { unfold isStr in *. destruct (field "type" (JObj ms)) as [[| | |s| |]|];
      try discriminate. apply eqb_eq in Ht. subst s. reflexivity. }
  rewrite Hu. reflexivity.
Qed.

(** When the last line of the output is a [message_end] event of the
    assistant whose text blocks give a non-empty text, that text is what
    [extractRpcAssistantText] returns: the deltas and the messages before it
    count for nothing. *)
Theorem final_message_wins (body line : jstring) (evt : json) (content : list json) :
  forallb (fun c => negb (chr_eqb c LF)) line = true ->
  truthy (trim line) = true ->
  JSON_parse line = Some evt ->
  isStr "message_end" (field "type" evt) = true ->
  isStr "assistant" (ofield "role" (field "message" evt)) = true ->
  asArray (ofield "content" (field "message" evt)) = Some content ->
  truthy (textOfContent content) = true ->
  extractRpcAssistantText JSON_parse (body ++ LF :: line) = Some (textOfContent content).
Proof.
  intros Hf Hnb Hp Ht Hr Hc Hx. unfold extractRpcAssistantText.
  assert (Hraw : truthy (trim (body ++ LF :: line)) = true).
  { change (body ++ LF :: line) with (body ++ [LF] ++ line). rewrite app_assoc.
    now apply truthy_trim_app. }
  rewrite Hraw. cbn [negb].
  assert (Hne : line <> []) by (intros ->; discriminate).
  destruct (collapse_keeps_last_line line Hne Hf _ body (Nat.le_refl _)) as [body' Hb].
  destruct (splitChar_last_line line body' Hf) as (l0 & ls & Hs).
  unfold splitLines. rewrite Hb, Hs.
  change (l0 :: ls ++ [line]) with ((l0 :: ls) ++ [line]).
  rewrite fold_left_app. cbn [fold_left].
  rewrite (extractStep_final _ line evt content Hp Ht Hr Hc Hx).
  cbn [lastAssistant].
  assert (Htrim : trim (textOfContent content) = textOfContent content).
  { unfold textOfContent. cbv zeta. apply trim_idem. }
  now rewrite Htrim, Hx.
Qed.

End LastLine.

Lemma final_message_wins_witness :
  extractRpcAssistantText Json.parse
    (unlines [textDelta "work"; textDelta "ing"; assistantEnd "all done"]) =
  Some (str "all done") /\
  extractRpcAssistantText Json.parse (unlines [textDelta "work"; textDelta "ing"]) =
  Some (str "working").
Proof.
  split; [|vm_compute; reflexivity].
  pose proof (final_message_wins Json.parse
                (textDelta "work" ++ [LF] ++ textDelta "ing") (assistantEnd "all done")
                (JObj [(str "type", JStr (str "message_end"));
                       (str "message",
                        JObj [(str "role", JStr (str "assistant"));
                              (str "content",
                               JArr [JObj [(str "type", JStr (str "text"));
                                           (str "text", JStr (str "all done"))]])])])
                [JObj [(str "type", JStr (str "text")); (str "text", JStr (str "all done"))]]
                ltac:(vm_compute; reflexivity) ltac:(vm_compute; reflexivity)
                ltac:(vm_compute; reflexivity) ltac:(vm_compute; reflexivity)
                ltac:(vm_compute; reflexivity) ltac:(vm_compute; reflexivity)
                ltac:(vm_compute; reflexivity)) as H.
  assert (E : unlines [textDelta "work"; textDelta "ing"; assistantEnd "all done"] =
              (textDelta "work" ++ [LF] ++ textDelta "ing") ++ LF :: assistantEnd "all done")
    by (vm_compute; reflexivity).
  rewrite E, H. vm_compute. reflexivity.
Defined.

End ReplyTextFacts.

(** ** The forced mode flag *)

Module ArgvFacts.
Import Js JsFacts Argv.

Lemma hasModeRpc_app (pre post : list jstring) :
  hasModeRpc (pre ++ MODE :: RPC :: post) = true.
Proof.
  induction pre as [|a pre IH]; simpl.
  - reflexivity.
  - destruct (pre ++ MODE :: RPC :: post) as [|b rest] eqn:E.
    + destruct pre; discriminate.
    + rewrite IH. apply orb_true_r.
Qed.

Lemma hasModeRpc_splice (start : Z) (deleteCount : nat) (l : list jstring) :
  hasModeRpc (splice start deleteCount [MODE; RPC] l) = true.
Proof. unfold splice. apply hasModeRpc_app. Qed.

(** When the argv without the prompt has [--mode] followed by a non-empty
    value, or has no [--mode] at all, the argv passed to the runner holds
    the pair [--mode rpc]. *)
Lemma rpcArgvForRun_forces_mode (finalArgv : list jstring) (promptIndex : Z) :
  let rpcPromptIndex :=
    (if 0 <=? promptIndex then promptIndex else Z.of_nat (length finalArgv) - 1)%Z in
  let copy := splice rpcPromptIndex 1 [] finalArgv in
  ((0 <=? indexOf MODE copy)%Z && truthyAt copy (indexOf MODE copy + 1) = true
   \/ includesArg MODE copy = false) ->
  hasModeRpc (rpcArgvForRun finalArgv promptIndex) = true.
Proof.
  cbv zeta. unfold rpcArgvForRun. cbv zeta.
  set (copy := splice _ 1 [] finalArgv).
  intros [H | H].
  - rewrite H. apply hasModeRpc_splice.
  - destruct ((0 <=? indexOf MODE copy)%Z && truthyAt copy (indexOf MODE copy + 1)).
    + apply hasModeRpc_splice.
    + rewrite H. simpl. apply hasModeRpc_splice.
Qed.

Lemma hasModeRpc_cons (a : jstring) (l : list jstring) :
  hasModeRpc l = true -> hasModeRpc (a :: l) = true.
Proof.
  intros H. destruct l as [|b l]; [discriminate|].
  change (hasModeRpc (a :: b :: l)) with ((eqb a MODE && eqb b RPC) || hasModeRpc (b :: l)).
  rewrite H. apply orb_true_r.
Qed.

Lemma setAt_mode_value (l : list jstring) (i : nat) (v : jstring) :
  nth_error l i = Some MODE -> nth_error l (S i) = Some v ->
  hasModeRpc (setAt l (S i) RPC) = true.
Proof.
  revert i. induction l as [|a l IH]; intros i H1 H2.
  - destruct i; discriminate.
  - destruct i as [|i].
    + simpl in H1. injection H1 as ->. destruct l as [|b l]; [discriminate|].
      reflexivity.
    + simpl in H1, H2. change (setAt (a :: l) (S (S i)) RPC) with (a :: setAt l (S i) RPC).
      apply hasModeRpc_cons, (IH i); assumption.
Qed.

Lemma indexOf_range (x : jstring) (l : list jstring) :
  (-1 <= indexOf x l)%Z.
Proof.
  induction l as [|y l IH]; simpl; [lia|].
  destruct (eqb y x); [lia|]. destruct (indexOf x l <? 0)%Z; lia.
Qed.

Lemma indexOf_found (x : jstring) (l : list jstring) :
  (0 <= indexOf x l)%Z -> nth_error l (Z.to_nat (indexOf x l)) = Some x.
Proof.
  induction l as [|y l IH]; simpl; [lia|].
  destruct (eqb y x) eqn:E.
  - intros _. apply JsFacts.eqb_eq in E. now subst.
  - destruct (indexOf x l <? 0)%Z eqn:L; [lia|].
    apply Z.ltb_ge in L. intros _.
    replace (Z.to_nat (indexOf x l + 1)) with (S (Z.to_nat (indexOf x l))) by lia.
    simpl. apply IH, L.
Qed.

(** The logged argv [rpcArgv] always holds the pair. *)
Lemma rpcArgv_has_pair (finalArgv : list jstring) (promptIndex : Z) :
  hasModeRpc (rpcArgv finalArgv promptIndex) = true.
Proof.
  unfold rpcArgv. cbv zeta.
  set (kept := if (_ <? _)%Z then _ else _).
  destruct (0 <=? indexOf MODE kept)%Z eqn:Hi; simpl.
  - destruct (truthyAt kept (indexOf MODE kept + 1)) eqn:Ht.
    + apply Z.leb_le in Hi. unfold truthyAt, at_ in Ht.
      destruct (indexOf MODE kept + 1 <? 0)%Z; [discriminate|].
      replace (Z.to_nat (indexOf MODE kept + 1)) with (S (Z.to_nat (indexOf MODE kept))) in * by lia.
      destruct (nth_error kept (S (Z.to_nat (indexOf MODE kept)))) as [v|] eqn:Hv; [|discriminate].
      apply (setAt_mode_value kept _ v); [apply indexOf_found, Hi | exact Hv].
    + apply hasModeRpc_app.
  - apply hasModeRpc_app.
Qed.

(** C2.  The argv [pi --mode <prompt>]: once the prompt is taken out, the
    flag [--mode] is the last argument and has no value.  The argv passed
    to the runner keeps the dangling [--mode] and does not hold the pair
    [--mode rpc]; the sibling computation [rpcArgv], which is only logged,
    appends the pair. *)
Theorem rpcArgvForRun_dangling_mode :
  rpcArgvForRun [str "pi"; str "--mode"; str "hello"] 2 = [str "pi"; str "--mode"] /\
  hasModeRpc (rpcArgvForRun [str "pi"; str "--mode"; str "hello"] 2) = false /\
  rpcArgv [str "pi"; str "--mode"; str "hello"] 2 =
    [str "pi"; str "--mode"; str "--mode"; str "rpc"] /\
  rpcArgvForRun [str "pi"; str "--mode"; str ""; str "hello"] 3 =
    [str "pi"; str "--mode"; str ""].
Proof. vm_compute. repeat split; reflexivity. Qed.

(** *** The shape of the argv passed to the runner *)

Lemma indexOf_absent (x : jstring) (l : list jstring) :
  includesArg x l = false -> indexOf x l = (-1)%Z.
Proof.
  unfold includesArg. induction l as [|y l IH]; simpl; [reflexivity|].
  destruct (eqb y x); [discriminate|]. simpl. intros H. rewrite (IH H). reflexivity.
Qed.

Lemma overwrite_pair (l : list jstring) (n : nat) (v : jstring) :
  nth_error l n = Some MODE -> nth_error l (S n) = Some v ->
  firstn n l ++ [MODE; RPC] ++ skipn (n + 2) l = setAt l (S n) RPC.
Proof.
  revert n. induction l as [|a l IH]; intros n H1 H2.
  - destruct n; discriminate.
  - destruct n as [|n].
    + simpl in H1. injection H1 as ->. destruct l as [|b l]; [discriminate|].
      reflexivity.
    + simpl in H1, H2. cbn [firstn app Nat.add skipn].
      change (setAt (a :: l) (S (S n)) RPC) with (a :: setAt l (S n) RPC).
      f_equal. apply (IH n H1 H2).
Qed.

Lemma setAt_length {A : Type} (l : list A) (i : nat) (x : A) :
  length (setAt l i x) = length l.
Proof.
  revert i. induction l as [|a l IH]; intros [|i]; simpl; try reflexivity.
  now rewrite IH.
Qed.

(** When the argv without the prompt has [--mode] followed by a non-empty
    value, only that value changes: the argv passed to the runner is the
    argv without the prompt with [rpc] written over the value behind the
    first [--mode]; no argument is added or dropped. *)
Theorem rpcArgvForRun_overwrites_only_the_value
  (finalArgv : list jstring) (promptIndex : Z) :
  let rpcPromptIndex :=
    (if 0 <=? promptIndex then promptIndex else Z.of_nat (length finalArgv) - 1)%Z in
  let copy := splice rpcPromptIndex 1 [] finalArgv in
  let modeIdx := indexOf MODE copy in
  (0 <=? modeIdx)%Z && truthyAt copy (modeIdx + 1) = true ->
  rpcArgvForRun finalArgv promptIndex = setAt copy (Z.to_nat (modeIdx + 1)) RPC /\
  length (rpcArgvForRun finalArgv promptIndex) = length copy.
Proof.
  cbv zeta. unfold rpcArgvForRun. cbv zeta.
  set (copy := splice _ 1 [] finalArgv).
  intros H. rewrite H.
  apply andb_true_iff in H. destruct H as [Hi Ht]. apply Z.leb_le in Hi.
  pose proof (indexOf_found MODE copy Hi) as Hm.
  unfold truthyAt, at_ in Ht.
  destruct (indexOf MODE copy + 1 <? 0)%Z; [discriminate|].
  replace (Z.to_nat (indexOf MODE copy + 1)) with (S (Z.to_nat (indexOf MODE copy)))
    in * by lia.
  destruct (nth_error copy (S (Z.to_nat (indexOf MODE copy)))) as [v|] eqn:Hv;
    [|discriminate].
  assert (Hlt : Z.to_nat (indexOf MODE copy) < length copy).
  { apply nth_error_Some. rewrite Hm. discriminate. }
  assert (E : splice (indexOf MODE copy) 2 [MODE; RPC] copy =
              setAt copy (S (Z.to_nat (indexOf MODE copy))) RPC).
  { unfold splice, spliceStart.
    destruct (indexOf MODE copy <? 0)%Z eqn:En; [apply Z.ltb_lt in En; lia|].
    replace (Z.to_nat (Z.min (indexOf MODE copy) (Z.of_nat (length copy))))
      with (Z.to_nat (indexOf MODE copy)) by lia.
    apply (overwrite_pair copy _ v Hm Hv). }
  rewrite E. split; [reflexivity | apply setAt_length].
Qed.

Lemma rpcArgvForRun_overwrites_only_the_value_witness :
  rpcArgvForRun [str "pi"; str "--mode"; str "json"; str "-p"; str "hello"] 4 =
    [str "pi"; str "--mode"; str "rpc"; str "-p"].
Proof.
  destruct (rpcArgvForRun_overwrites_only_the_value
              [str "pi"; str "--mode"; str "json"; str "-p"; str "hello"] 4
              ltac:(vm_compute; reflexivity)) as [H _].
  rewrite H. vm_compute. reflexivity.
Defined.

(** When the argv without the prompt has no [--mode], the pair
    [--mode rpc] is put in front of its last argument (an empty argv becomes
    the pair alone): the pair is not appended. *)
Theorem rpcArgvForRun_inserts_before_last
  (finalArgv : list jstring) (promptIndex : Z) :
  let rpcPromptIndex :=
    (if 0 <=? promptIndex then promptIndex else Z.of_nat (length finalArgv) - 1)%Z in
  let copy := splice rpcPromptIndex 1 [] finalArgv in
  includesArg MODE copy = false ->
  rpcArgvForRun finalArgv promptIndex =
    firstn (length copy - 1) copy ++ [MODE; RPC] ++ skipn (length copy - 1) copy.
Proof.
  cbv zeta. unfold rpcArgvForRun. cbv zeta.
  set (copy := splice _ 1 [] finalArgv).
  intros H. rewrite (indexOf_absent _ _ H), H. cbn [Z.leb andb negb].
  change ((0 <=? -1)%Z) with false. cbn iota.
  unfold splice, spliceStart. rewrite Nat.add_0_r.
  destruct copy as [|a l]; [reflexivity|].
  destruct (Z.of_nat (length (a :: l)) - 1 <? 0)%Z eqn:E;
    [apply Z.ltb_lt in E; cbn [length] in E; lia|].
  replace (Z.to_nat (Z.min (Z.of_nat (length (a :: l)) - 1) (Z.of_nat (length (a :: l)))))
    with (length (a :: l) - 1) by (cbn [length]; lia).
  reflexivity.
Qed.

Lemma rpcArgvForRun_inserts_before_last_witness :
  rpcArgvForRun [str "pi"; str "--provider"; str "x"; str "hello"] 3 =
    [str "pi"; str "--provider"; str "--mode"; str "rpc"; str "x"].
Proof.
  rewrite (rpcArgvForRun_inserts_before_last
             [str "pi"; str "--provider"; str "x"; str "hello"] 3
             ltac:(vm_compute; reflexivity)).
  vm_compute. reflexivity.
Defined.

Lemma rpcArgvForRun_forces_mode_witness :
  hasModeRpc (rpcArgvForRun [str "pi"; str "-p"; str "hello"] 2) = true.
Proof.
  apply (rpcArgvForRun_forces_mode [str "pi"; str "-p"; str "hello"] 2).
  right. vm_compute. reflexivity.
Defined.

End ArgvFacts.

(** ** The argv before and after [buildArgs] *)

Module ArgvBuildFacts.
Import Js JsFacts Argv ArgvBuild Examples.

Lemma splice_insert {A : Type} (n : nat) (items l : list A) :
  n <= length l ->
  splice (Z.of_nat n) 0 items l = firstn n l ++ items ++ skipn n l.
Proof.
  intros H. unfold splice, spliceStart.
  destruct (Z.of_nat n <? 0)%Z eqn:E; [apply Z.ltb_lt in E; lia|].
  replace (Z.to_nat (Z.min (Z.of_nat n) (Z.of_nat (length l)))) with n by lia.
  now rewrite Nat.add_0_r.
Qed.

Lemma includesArg_In (x : jstring) (l : list jstring) :
  includesArg x l = true <-> In x l.
Proof.
  unfold includesArg. rewrite existsb_exists. split.
  - intros (y & Hin & Hy). apply eqb_eq in Hy. now subst.
  - intros H. exists x. split; [exact H | apply eqb_refl].
Qed.

Lemma hasThinkingFlagFrom_app (a b : list jstring) (prev : option jstring) :
  hasThinkingFlagFrom prev (a ++ str "--thinking" :: b) = true.
Proof.
  revert prev. induction a as [|x a IH]; intros prev.
  - cbn [app hasThinkingFlagFrom]. rewrite eqb_refl. reflexivity.
  - cbn [app hasThinkingFlagFrom]. rewrite IH. apply orb_true_r.
Qed.

Lemma nth_error_skipn_head {A : Type} (l : list A) (n : nat) :
  nth_error (skipn n l) 0 = nth_error l n.
Proof.
  revert n. induction l as [|a l IH]; intros [|n]; try reflexivity. apply IH.
Qed.

Lemma startsWith_app_self (m b : jstring) : startsWith m (m ++ b) = true.
Proof.
  induction m as [|c m IH]; [reflexivity|].
  cbn [app startsWith]. unfold chr_eqb. now rewrite Ascii.eqb_refl, IH.
Qed.

Lemma includes_app_self (m b : jstring) : includes m (m ++ b) = true.
Proof.
  destruct (m ++ b) as [|c r] eqn:E.
  - destruct m; [reflexivity | discriminate].
  - cbn [includes]. rewrite <- E, startsWith_app_self. reflexivity.
Qed.

Lemma removeFirst_app_self (m b : jstring) : removeFirst m (m ++ b) = b.
Proof.
  destruct (m ++ b) as [|c r] eqn:E.
  - destruct m; simpl in E; [now subst | discriminate].
  - cbn [removeFirst]. rewrite <- E, startsWith_app_self.
    rewrite skipn_app, skipn_all, Nat.sub_diag. reflexivity.
Qed.

Section WithTemplates.

Variable applyTemplate : jstring -> jstring.
Variable defaultSessionPath : jstring.
Variable bodyMarker : jstring.

Local Abbreviation takeBody := (ArgvBuild.takeBody applyTemplate).
Local Abbreviation sessionArgs := (ArgvBuild.sessionArgs applyTemplate defaultSessionPath).
Local Abbreviation assemble :=
  (ArgvBuild.assemble applyTemplate defaultSessionPath bodyMarker).
Local Abbreviation promptIndexOf := (ArgvBuild.promptIndexOf bodyMarker).
Local Abbreviation promptArg := (ArgvBuild.promptArg bodyMarker).
Local Abbreviation finalArgv := (ArgvBuild.finalArgv bodyMarker).

(** The argv before the thinking flag: the body is at [bodyIndex]. *)
Lemma body_before_thinking (argv0 sessionArgList : list jstring) (before : bool)
  (x : jstring) :
  let hasSessionArgs := negb (length sessionArgList =? 0) in
  let argv1 := if before && hasSessionArgs then argv0 ++ sessionArgList else argv0 in
  let argv2 := argv1 ++ [x] in
  let argv3 := if negb before && hasSessionArgs then argv2 ++ sessionArgList else argv2 in
  nth_error argv3 (length argv2 - 1) = Some x /\ length argv2 - 1 < length argv3.
Proof.
  cbv zeta.
  set (argv1 := if before && _ then _ else _).
  assert (H2 : nth_error (argv1 ++ [x]) (length (argv1 ++ [x]) - 1) = Some x).
  { rewrite length_app. cbn [length].
    replace (length argv1 + 1 - 1) with (length argv1) by lia.
    rewrite nth_error_app2 by lia. now rewrite Nat.sub_diag. }
  assert (Hl : length (argv1 ++ [x]) - 1 < length (argv1 ++ [x])).
  { rewrite length_app. cbn [length]. lia. }
  destruct (negb before && _).
  - split.
    + rewrite nth_error_app1 by exact Hl. exact H2.
    + rewrite (length_app (argv1 ++ [x])). lia.
  - split; assumption.
Qed.

(** Whatever the configuration, [bodyIndex] names the position of the body
    argument in the argv handed to [buildArgs]: the marker followed by the
    body text.  That holds with the session arguments before or behind the
    body, and after the thinking flag is put in front of it. *)
Theorem body_index_points_at_body (r : Request) :
  nth_error (fst (assemble r)) (snd (assemble r)) =
  Some (bodyMarker ++ snd (takeBody r)).
Proof.
  unfold ArgvBuild.assemble.
  destruct (takeBody r) as [argv0 bodyArg].
  destruct (sessionArgs r) as [sessionArgList before].
  cbn [snd].
  destruct (body_before_thinking argv0 sessionArgList before (bodyMarker ++ bodyArg))
    as [Hn Hl].
  cbv zeta in Hn, Hl.
  set (argv3 := if negb before && _ then _ else _) in *.
  set (bi := length _ - 1) in *.
  destruct (thinkLevel r) as [level|]; [|exact Hn].
  destruct (truthy level && negb (eqb level (str "off")) && negb (hasThinkingFlag argv3));
    [|exact Hn].
  cbn [fst snd]. rewrite splice_insert by lia.
  assert (Hf : length (firstn bi argv3) = bi) by (rewrite length_firstn; lia).
  rewrite nth_error_app2 by lia. rewrite Hf.
  replace (bi + 2 - bi) with 2 by lia.
  change (nth_error (skipn bi argv3) 0 = Some (bodyMarker ++ bodyArg)).
  rewrite nth_error_skipn_head. exact Hn.
Qed.

(** When a session is configured and the session is resumed, the argv
    holds [--continue]: the flag is added to the session arguments unless
    the configured ones have it. *)
Theorem resumed_session_continues (r : Request) (s : SessionConfig) :
  session r = Some s -> isNewSession r = false ->
  In (str "--continue") (fst (assemble r)).
Proof.
  intros Hs Hnew. unfold ArgvBuild.assemble.
  destruct (takeBody r) as [argv0 bodyArg].
  assert (Hin : In (str "--continue") (fst (sessionArgs r))).
  { unfold ArgvBuild.sessionArgs. rewrite Hs, Hnew. cbn [negb andb fst].
    destruct (includesArg (str "--continue") _) eqn:E; cbn [negb].
    - now apply includesArg_In.
    - apply in_or_app. right. now left. }
  destruct (sessionArgs r) as [sessionArgList before]. cbn [fst] in Hin.
  assert (Hne : negb (length sessionArgList =? 0) = true).
  { destruct sessionArgList; [contradiction | reflexivity]. }
  rewrite Hne, !andb_true_r.
  set (argv3 := if negb before then _ else _).
  assert (H3 : In (str "--continue") argv3).
  { unfold argv3. destruct before; cbn [negb].
    - apply in_or_app. left. apply in_or_app. now right.
    - apply in_or_app. now right. }
  assert (Hsplice : forall n items,
            In (str "--continue") (splice (Z.of_nat n) 0 items argv3)).
  { intros n items. unfold splice. rewrite Nat.add_0_r.
    rewrite <- (firstn_skipn (spliceStart (Z.of_nat n) argv3) argv3) in H3.
    apply in_app_or in H3. apply in_or_app. destruct H3 as [H3 | H3]; [now left|].
    right. apply in_or_app. now right. }
  destruct (thinkLevel r) as [level|]; [|exact H3].
  destruct (truthy level && _ && _); [apply Hsplice | exact H3].
Qed.

(** When a thinking level other than [off] is asked for, the argv handed
    to [buildArgs] has a thinking flag: the one of the configured command,
    or else the pair put in front of the body. *)
Theorem thinking_flag_is_present (r : Request) (level : jstring) :
  thinkLevel r = Some level -> level <> [] -> level <> str "off" ->
  hasThinkingFlag (fst (assemble r)) = true.
Proof.
  intros Ht Hne Hoff. unfold ArgvBuild.assemble.
  destruct (takeBody r) as [argv0 bodyArg].
  destruct (sessionArgs r) as [sessionArgList before].
  destruct (body_before_thinking argv0 sessionArgList before (bodyMarker ++ bodyArg))
    as [_ Hl].
  cbv zeta in Hl.
  set (argv3 := if negb before && _ then _ else _) in *.
  set (bi := length _ - 1) in *.
  rewrite Ht.
  assert (H1 : truthy level = true) by (destruct level; [congruence | reflexivity]).
  rewrite H1, (eqb_neq _ _ Hoff). cbn [negb andb].
  destruct (hasThinkingFlag argv3) eqn:E; cbn [negb fst]; [exact E|].
  rewrite splice_insert by lia. unfold hasThinkingFlag.
  cbn [app]. apply hasThinkingFlagFrom_app.
Qed.

Lemma findIndex_marker (pre post : list jstring) (body : jstring) :
  Forall (fun a => includes bodyMarker a = false) pre ->
  promptIndexOf (pre ++ (bodyMarker ++ body) :: post) = Some (length pre).
Proof.
  unfold ArgvBuild.promptIndexOf.
  induction 1 as [|a pre Ha _ IH]; cbn [app findIndex length].
  - now rewrite includes_app_self.
  - now rewrite Ha, IH.
Qed.

Lemma mapi_nth {A B : Type} (f : nat -> A -> B) (pre post : list A) (x : A) (k : nat) :
  nth_error (mapi f k (pre ++ x :: post)) (length pre) = Some (f (k + length pre) x).
Proof.
  revert k. induction pre as [|a pre IH]; intros k; cbn [app mapi length nth_error].
  - now rewrite Nat.add_0_r.
  - rewrite IH. f_equal. f_equal. lia.
Qed.

Lemma mapi_length {A B : Type} (f : nat -> A -> B) (l : list A) (k : nat) :
  length (mapi f k l) = length l.
Proof. revert k. induction l; intros k; simpl; [reflexivity | now rewrite IHl]. Qed.

(** The marker that tags the body on its way through [buildArgs] comes off
    again: when [buildArgs] returns an argv in which the marked body is the
    first argument that holds the marker, [promptIndex] is its position,
    [promptArg] is the body as it was, and [finalArgv] has the body at that
    position and as many arguments as [builtArgv]. *)
Theorem marker_comes_off (pre post : list jstring) (body : jstring) :
  Forall (fun a => includes bodyMarker a = false) pre ->
  let builtArgv := pre ++ (bodyMarker ++ body) :: post in
  promptIndexOf builtArgv = Some (length pre) /\
  promptArg builtArgv = body /\
  nth_error (finalArgv builtArgv) (length pre) = Some body /\
  length (finalArgv builtArgv) = length builtArgv.
Proof.
  intros Hpre. cbv zeta.
  pose proof (findIndex_marker pre post body Hpre) as Hi.
  assert (Hp : promptArg (pre ++ (bodyMarker ++ body) :: post) = body).
  { unfold ArgvBuild.promptArg. rewrite Hi.
    rewrite app_nth2 by lia. rewrite Nat.sub_diag. cbn [nth].
    apply removeFirst_app_self. }
  split; [exact Hi|]. split; [exact Hp|]. split.
  - unfold ArgvBuild.finalArgv. rewrite mapi_nth, Hi, Hp.
    cbn [Nat.add]. now rewrite Nat.eqb_refl.
  - apply mapi_length.
Qed.

End WithTemplates.

(** A request that resumes a session with the default session arguments
    and asks for a thinking level. *)
Lemma resumed_session_continues_witness :
  fst (assemble (fun s => s) (str "/home/u/.clawdis/sessions/s.jsonl") (str "__m__")
         resumeRequest) =
  [str "pi"; str "-p"; str "--session"; str "/home/u/.clawdis/sessions/s.jsonl";
   str "--continue"; str "--thinking"; str "high"; str "__m__hello"] /\
  In (str "--continue")
     (fst (assemble (fun s => s) (str "/home/u/.clawdis/sessions/s.jsonl") (str "__m__")
             resumeRequest)).
Proof.
  split; [vm_compute; reflexivity|].
  exact (resumed_session_continues (fun s => s) (str "/home/u/.clawdis/sessions/s.jsonl")
           (str "__m__") resumeRequest _ eq_refl eq_refl).
Defined.

Lemma thinking_flag_is_present_witness :
  hasThinkingFlag
    (fst (assemble (fun s => s) (str "/home/u/.clawdis/sessions/s.jsonl") (str "__m__")
            resumeRequest)) = true.
Proof.
  apply (thinking_flag_is_present (fun s => s) (str "/home/u/.clawdis/sessions/s.jsonl")
           (str "__m__") resumeRequest (str "high") eq_refl);
    vm_compute; discriminate.
Defined.

Lemma marker_comes_off_witness :
  finalArgv (str "__m__") [str "pi"; str "-p"; str "__m__hello"; str "--json"] =
    [str "pi"; str "-p"; str "hello"; str "--json"] /\
  promptArg (str "__m__") [str "pi"; str "-p"; str "__m__hello"; str "--json"] = str "hello".
Proof.
  split; [vm_compute; reflexivity|].
  exact (proj1 (proj2 (marker_comes_off (str "__m__") [str "pi"; str "-p"] [str "--json"]
                         (str "hello") ltac:(repeat constructor)))).
Defined.

End ArgvBuildFacts.

(** ** Aggregation of tool results *)

Module ReducerFacts.
Import Js JsFacts Json MediaParse Reducer Examples.

Section FlushPerTool.

Variable TOOL_RESULT_FLUSH_COUNT : Z.
Variable formatToolAggregate : option jstring -> list jstring -> jstring.
Variable parseFenceSpans : jstring -> list FenceSpan.
Variable inferToolMeta : json -> option jstring.
Variable JSON_parse : jstring -> option json.

(** The reducer with a live [onPartialReply] callback. *)
Local Abbreviation live_feed :=
  (feed true TOOL_RESULT_FLUSH_COUNT formatToolAggregate parseFenceSpans
        inferToolMeta JSON_parse).
Local Abbreviation live_run :=
  (run true TOOL_RESULT_FLUSH_COUNT formatToolAggregate parseFenceSpans
       inferToolMeta JSON_parse).
Local Abbreviation aggregate := (aggregatePayload formatToolAggregate parseFenceSpans).
Local Abbreviation carries := (Reducer.carries inferToolMeta JSON_parse).

Lemma onEvent_carries (line name meta : jstring) (st : State) :
  carries line name meta ->
  onEvent true TOOL_RESULT_FLUSH_COUNT formatToolAggregate parseFenceSpans
          inferToolMeta JSON_parse line st =
  Some (onToolResult true TOOL_RESULT_FLUSH_COUNT formatToolAggregate parseFenceSpans
          (Some name) (Some meta) st).
Proof.
  intros (ms & Hp & Ht). unfold onEvent. rewrite Hp. unfold onObject. rewrite Ht.
  reflexivity.
Qed.


End FlushPerTool.

Lemma toolLine_carries (tool command : string) :
  match Json.parse (toolLine tool command) with
  | Some (JObj ms) =>
      toolResultOf commandMeta (JObj ms) = Some (Some (str tool), Some (str command))
  | _ => False
  end ->
  carries commandMeta Json.parse (toolLine tool command) (str tool) (str command).
Proof.
  unfold Reducer.carries. destruct (Json.parse (toolLine tool command)) as [[| | | | |ms]|];
    try contradiction.
  intros H. exists ms. auto.
Qed.



(** Without a live callback nothing is flushed to it. *)
Lemma no_callback_no_flush :
  option_map (fun st => partials st)
    (run false 5 bracketAggregate noFences commandMeta Json.parse
       [Line (toolLine "bash" "ls"); Line (toolLine "bash" "pwd");
        Line (toolLine "read" "a.txt"); Line (toolLine "read" "b.txt")]) =
  Some [].
Proof. vm_compute. reflexivity. Qed.

(** *** Invariants of the reducer *)

Section Invariants.

Variable onPartialReply : bool.
Variable TOOL_RESULT_FLUSH_COUNT : Z.
Variable formatToolAggregate : option jstring -> list jstring -> jstring.
Variable parseFenceSpans : jstring -> list FenceSpan.
Variable inferToolMeta : json -> option jstring.
Variable JSON_parse : jstring -> option json.

Local Abbreviation flushPendingTool :=
  (Reducer.flushPendingTool onPartialReply formatToolAggregate parseFenceSpans).
Local Abbreviation streamAssistantFinal :=
  (Reducer.streamAssistantFinal onPartialReply parseFenceSpans).
Local Abbreviation toolResultOf := (Reducer.toolResultOf inferToolMeta).
Local Abbreviation onToolResult :=
  (Reducer.onToolResult onPartialReply TOOL_RESULT_FLUSH_COUNT formatToolAggregate
     parseFenceSpans).
Local Abbreviation onObject :=
  (Reducer.onObject onPartialReply TOOL_RESULT_FLUSH_COUNT formatToolAggregate
     parseFenceSpans inferToolMeta).
Local Abbreviation onEvent :=
  (Reducer.onEvent onPartialReply TOOL_RESULT_FLUSH_COUNT formatToolAggregate
     parseFenceSpans inferToolMeta JSON_parse).
Local Abbreviation onTimer :=
  (Reducer.onTimer onPartialReply formatToolAggregate parseFenceSpans).
Local Abbreviation step :=
  (Reducer.step onPartialReply TOOL_RESULT_FLUSH_COUNT formatToolAggregate
     parseFenceSpans inferToolMeta JSON_parse).
Local Abbreviation feed :=
  (Reducer.feed onPartialReply TOOL_RESULT_FLUSH_COUNT formatToolAggregate
     parseFenceSpans inferToolMeta JSON_parse).
Local Abbreviation run :=
  (Reducer.run onPartialReply TOOL_RESULT_FLUSH_COUNT formatToolAggregate
     parseFenceSpans inferToolMeta JSON_parse).

(** An invariant [P] of the state that the three updates keep is kept by
    every event, by the expiry of the timer and by a whole run. *)
Section Preserved.

Variable P : State -> Prop.

Hypothesis P_flush : forall st, P st -> P (flushPendingTool st).
Hypothesis P_stream : forall msg st, P st -> P (streamAssistantFinal msg st).
Hypothesis P_pending :
  forall st name metas timer live,
    P st ->
    P {| pendingToolName := name; pendingMetas := metas; pendingTimer := timer;
         timerLive := live; streamedAny := streamedAny st;
         lastStreamedAssistant := lastStreamedAssistant st; partials := partials st |}.

Lemma P_onToolResult (toolName meta : option jstring) (st : State) :
  P st -> P (onToolResult toolName meta st).
Proof.
  intros H. unfold Reducer.onToolResult. cbv zeta.
  set (st1 := if _ && _ && _ then flushPendingTool st else st).
  assert (H1 : P st1) by (unfold st1; destruct (_ && _ && _); auto).
  clearbody st1. destruct (_ && _)%bool.
  - apply P_flush. now apply P_pending.
  - now apply (P_pending st1).
Qed.

Lemma P_onObject (ev : json) (st : State) : P st -> P (onObject ev st).
Proof.
  intros H. unfold Reducer.onObject.
  destruct (toolResultOf ev) as [[toolName meta]|]; [now apply P_onToolResult|].
  cbv zeta.
  repeat match goal with
         | |- context [if ?b then _ else _] => destruct b
         end; auto.
Qed.

Lemma P_step (st st' : State) (i : StreamInput) :
  P st -> step st i = Some st' -> P st'.
Proof.
  intros H. destruct i as [line|]; cbn [Reducer.step].
  - unfold Reducer.onEvent. destruct (JSON_parse line) as [[| | | | |ms]|];
      try discriminate; intros E; injection E as <-; auto.
    now apply P_onObject.
  - intros E. injection E as <-. unfold Reducer.onTimer.
    destruct (timerLive st); [|exact H]. apply P_flush. now apply P_pending.
Qed.

Lemma P_feed (inputs : list StreamInput) (st st' : State) :
  P st -> feed inputs st = Some st' -> P st'.
Proof.
  revert st. induction inputs as [|i rest IH]; intros st H; cbn [Reducer.feed].
  - intros E. injection E as <-. exact H.
  - destruct (step st i) as [st1|] eqn:E1; [|discriminate].
    apply IH. exact (P_step _ _ _ H E1).
Qed.

Lemma P_run (inputs : list StreamInput) (st' : State) :
  P initial -> run inputs = Some st' -> P st'.
Proof.
  intros H. unfold Reducer.run.
  destruct (feed inputs initial) as [st|] eqn:E; [|discriminate].
  intros E'. injection E' as <-. apply P_flush. exact (P_feed _ _ _ H E).
Qed.

End Preserved.

(** [streamedAny] tells whether a payload was handed to the callback: at
    the end of every run it is [true] exactly when the list of streamed
    payloads is not empty.  ([runCommandReply] returns no payload of its own
    when [streamedAny] holds.) *)
Theorem streamedAny_iff_streamed (inputs : list StreamInput) (st' : State) :
  run inputs = Some st' ->
  (streamedAny st' = true <-> partials st' <> []).
Proof.
  intros Hrun.
  apply (P_run (fun st => streamedAny st = true <-> partials st <> [])) with (inputs := inputs);
    [| | | |exact Hrun].
  - intros st H. unfold Reducer.flushPendingTool.
    destruct (negb onPartialReply); [exact H|].
    destruct (_ && _)%bool; [exact H|]. cbn [streamedAny partials].
    split; [intros _ | reflexivity]. now destruct (partials st).
  - intros msg st H. unfold Reducer.streamAssistantFinal.
    destruct (_ || _)%bool; [exact H|]. cbv zeta.
    destruct (match asArray _ with Some _ => _ | None => [] end); [exact H|].
    destruct (_ || _)%bool; [exact H|]. cbn [streamedAny partials].
    split; [intros _ | reflexivity]. now destruct (partials st).
  - intros st name metas timer live H. exact H.
  - cbn. split; [discriminate | congruence].
Qed.

(** Without the callback [onPartialReply] nothing is streamed, whatever the
    subprocess emits: the list of streamed payloads stays empty and
    [streamedAny] stays [false]. *)
Theorem no_callback_streams_nothing (inputs : list StreamInput) (st' : State) :
  onPartialReply = false ->
  run inputs = Some st' ->
  partials st' = [] /\ streamedAny st' = false.
Proof.
  intros Hcb Hrun.
  apply (P_run (fun st => partials st = [] /\ streamedAny st = false)) with (inputs := inputs);
    [| | | |exact Hrun].
  - intros st H. unfold Reducer.flushPendingTool. rewrite Hcb. exact H.
  - intros msg st H. unfold Reducer.streamAssistantFinal. rewrite Hcb. exact H.
  - intros st name metas timer live H. exact H.
  - split; reflexivity.
Qed.

(** With the callback and a positive flush threshold, the pending
    aggregate never reaches the threshold: after every prefix of the stream
    it holds fewer metas than [TOOL_RESULT_FLUSH_COUNT]. *)
Theorem pending_metas_stay_below_threshold (inputs : list StreamInput) (st' : State) :
  onPartialReply = true ->
  (0 < TOOL_RESULT_FLUSH_COUNT)%Z ->
  feed inputs initial = Some st' ->
  (Z.of_nat (length (pendingMetas st')) < TOOL_RESULT_FLUSH_COUNT)%Z.
Proof.
  intros Hcb Hpos Hfeed.
  set (P := fun st => (Z.of_nat (length (pendingMetas st)) < TOOL_RESULT_FLUSH_COUNT)%Z).
  assert (Hflush : forall st, P (flushPendingTool st) \/ flushPendingTool st = st).
  { intros st. unfold Reducer.flushPendingTool. rewrite Hcb. cbn [negb].
    destruct (_ && _)%bool; [now right|]. left. unfold P. cbn. lia. }
  assert (Pflush : forall st, P st -> P (flushPendingTool st)).
  { intros st H. destruct (Hflush st) as [H' | ->]; assumption. }
  assert (Pstream : forall msg st, P st -> P (streamAssistantFinal msg st)).
  { intros msg st H. unfold Reducer.streamAssistantFinal.
    destruct (_ || _)%bool; [exact H|]. cbv zeta.
    destruct (match asArray _ with Some _ => _ | None => [] end); [exact H|].
    destruct (_ || _)%bool; exact H. }
  assert (Ptool : forall toolName meta st, P st -> P (onToolResult toolName meta st)).
  { intros toolName meta st H. unfold Reducer.onToolResult. cbv zeta.
    set (st1 := if _ && _ && _ then flushPendingTool st else st).
    assert (H1 : P st1) by (unfold st1; destruct (_ && _ && _); auto).
    clearbody st1.
    set (metas2 := match meta with
                   | Some m => if truthy m then pendingMetas st1 ++ [m] else pendingMetas st1
                   | None => pendingMetas st1
                   end).
    destruct ((0 <? TOOL_RESULT_FLUSH_COUNT)%Z
              && (TOOL_RESULT_FLUSH_COUNT <=? Z.of_nat (length metas2))%Z) eqn:E.
    - unfold Reducer.flushPendingTool. rewrite Hcb. cbn [negb pendingToolName pendingMetas].
      destruct (negb _ && (length metas2 =? 0))%bool eqn:E2.
      + apply andb_true_iff in E2. destruct E2 as [_ E2]. apply Nat.eqb_eq in E2.
        unfold P. cbn [pendingMetas]. rewrite E2. cbn. lia.
      + unfold P. cbn. lia.
    - unfold P. cbn [pendingMetas].
      apply andb_false_iff in E. destruct E as [E | E].
      + apply Z.ltb_ge in E. lia.
      + apply Z.leb_gt in E. exact E. }
  assert (Pobj : forall ev st, P st -> P (onObject ev st)).
  { intros ev st H. unfold Reducer.onObject.
    destruct (toolResultOf ev) as [[toolName meta]|]; [now apply Ptool|].
    cbv zeta.
    repeat match goal with
           | |- context [if ?b then _ else _] => destruct b
           end; auto. }
  assert (Pstep : forall st i st1, P st -> step st i = Some st1 -> P st1).
  { intros st i st1 H. destruct i as [line|]; cbn [Reducer.step].
    - unfold Reducer.onEvent. destruct (JSON_parse line) as [[| | | | |ms]|];
        try discriminate; intros E; injection E as <-; auto.
    - intros E. injection E as <-. unfold Reducer.onTimer.
      destruct (timerLive st); [|exact H]. apply Pflush. exact H. }
  assert (Pfeed : forall l st st1, P st -> feed l st = Some st1 -> P st1).
  { induction l as [|i rest IH]; intros st st1 H; cbn [Reducer.feed].
    - intros E. injection E as <-. exact H.
    - destruct (step st i) as [st2|] eqn:E1; [|discriminate].
      apply IH. exact (Pstep _ _ _ H E1). }
  apply (Pfeed inputs initial st'); [|exact Hfeed]. unfold P. cbn. lia.
Qed.

(** [streamAssistantFinal] does nothing the second time it sees a message:
    the text it streamed last is remembered. *)
Lemma streamAssistantFinal_idem (msg : option json) (st : State) :
  streamAssistantFinal msg (streamAssistantFinal msg st) = streamAssistantFinal msg st.
Proof.
  unfold Reducer.streamAssistantFinal.
  destruct (_ || _)%bool eqn:E0; [reflexivity|]. cbv zeta.
  destruct (match asArray _ with Some _ => _ | None => [] end) as [|b bs] eqn:Eb;
    [reflexivity|].
  destruct (negb (truthy (trim (join [LF] (b :: bs))))
            || sameO (Some (trim (join [LF] (b :: bs)))) (lastStreamedAssistant st)) eqn:E1;
    [rewrite E1; reflexivity|].
  cbn [lastStreamedAssistant sameO]. rewrite eqb_refl, orb_true_r. reflexivity.
Qed.

(** An event that is no tool result streams at most one payload, although
    [onEvent] hands an assistant message to [streamAssistantFinal] up to
    three times: the state after the event is the state before it, or the
    state after one call of [streamAssistantFinal]. *)
Theorem assistant_event_streams_once (ev : json) (st : State) :
  toolResultOf ev = None ->
  onObject ev st = st \/
  onObject ev st = streamAssistantFinal (field "message" ev) st.
Proof.
  intros H. unfold Reducer.onObject. rewrite H. cbv zeta.
  repeat match goal with
         | |- context [if ?b then _ else _] => destruct b
         end; rewrite ?streamAssistantFinal_idem; auto.
Qed.

End Invariants.

(** [inferToolName] never returns an empty name, and the name it returns
    has no white space at its ends. *)
Theorem inferToolName_is_trimmed (message : json) (name : jstring) :
  inferToolName message = Some name -> name <> [] /\ trim name = name.
Proof.
  unfold inferToolName.
  set (cands := map _ _).
  destruct (List.filter truthy cands) as [|first rest] eqn:E.
  - destruct (asString (field "role" message)) as [role|]; [|discriminate].
    destruct (includes (str ":") role); [|discriminate].
    destruct (truthy (trim _)) eqn:Et; [|discriminate].
    intros H. injection H as <-. split; [|apply trim_idem].
    intros Hn. rewrite Hn in Et. discriminate.
  - intros H. injection H as <-.
    assert (Hin : In first (List.filter truthy cands)) by (rewrite E; now left).
    apply filter_In in Hin. destruct Hin as [Hin Ht].
    split; [intros ->; discriminate|].
    unfold cands in Hin. apply in_map_iff in Hin. destruct Hin as (c & <- & _).
    destruct (asString c); [apply trim_idem | reflexivity].
Qed.

Lemma inferToolName_is_trimmed_witness :
  inferToolName (JObj [(str "role", JStr (str "tool_result: edit "))]) = Some (str "edit") /\
  str "edit" <> [] /\ trim (str "edit") = str "edit".
Proof.
  assert (H : inferToolName (JObj [(str "role", JStr (str "tool_result: edit "))])
              = Some (str "edit")) by (vm_compute; reflexivity).
  split; [exact H|]. exact (inferToolName_is_trimmed _ _ H).
Defined.

Lemma streamedAny_iff_streamed_witness :
  exists st,
    run true 5 bracketAggregate noFences commandMeta Json.parse
      [Line (toolLine "bash" "ls"); Line (assistantEnd "done")] = Some st /\
    (streamedAny st = true <-> partials st <> []) /\
    length (partials st) = 2.
Proof.
  destruct (run true 5 bracketAggregate noFences commandMeta Json.parse
              [Line (toolLine "bash" "ls"); Line (assistantEnd "done")]) as [st|] eqn:E;
    [|vm_compute in E; discriminate].
  exists st. split; [reflexivity|]. split.
  - exact (streamedAny_iff_streamed true 5 bracketAggregate noFences commandMeta
             Json.parse _ st E).
  - vm_compute in E. injection E as <-. reflexivity.
Defined.

Lemma no_callback_streams_nothing_witness :
  exists st,
    run false 5 bracketAggregate noFences commandMeta Json.parse
      [Line (toolLine "bash" "ls"); Line (assistantEnd "done")] = Some st /\
    partials st = [] /\ streamedAny st = false.
Proof.
  destruct (run false 5 bracketAggregate noFences commandMeta Json.parse
              [Line (toolLine "bash" "ls"); Line (assistantEnd "done")]) as [st|] eqn:E;
    [|vm_compute in E; discriminate].
  exists st. split; [reflexivity|].
  exact (no_callback_streams_nothing false 5 bracketAggregate noFences commandMeta
           Json.parse _ st eq_refl E).
Defined.

Lemma pending_metas_stay_below_threshold_witness :
  exists st,
    feed true 2 bracketAggregate noFences commandMeta Json.parse
      [Line (toolLine "bash" "ls"); Line (toolLine "bash" "pwd");
       Line (toolLine "bash" "id")] initial = Some st /\
    (Z.of_nat (length (pendingMetas st)) < 2)%Z.
Proof.
  destruct (feed true 2 bracketAggregate noFences commandMeta Json.parse
              [Line (toolLine "bash" "ls"); Line (toolLine "bash" "pwd");
               Line (toolLine "bash" "id")] initial) as [st|] eqn:E;
    [|vm_compute in E; discriminate].
  exists st. split; [reflexivity|].
  exact (pending_metas_stay_below_threshold true 2 bracketAggregate noFences commandMeta
           Json.parse _ st eq_refl ltac:(lia) E).
Defined.

Lemma assistant_event_streams_once_witness :
  match Json.parse (assistantEnd "done") with
  | Some ev =>
      length (partials (onObject true 5 bracketAggregate noFences commandMeta ev initial)) = 1
  | None => False
  end.
Proof.
  destruct (Json.parse (assistantEnd "done")) as [ev|] eqn:E;
    [|vm_compute in E; discriminate].
  destruct (assistant_event_streams_once true 5 bracketAggregate noFences commandMeta
              ev initial) as [H | H].
  - vm_compute in E. injection E as <-. vm_compute. reflexivity.
  - exfalso. vm_compute in E. injection E as <-. vm_compute in H. discriminate.
  - rewrite H. vm_compute in E. injection E as <-. vm_compute. reflexivity.
Defined.

End ReducerFacts.

(** ** Echo suppression and the exit-code error *)

Module AfterRunFacts.
Import Js JsFacts Json MediaParse ReplyText Reducer AfterRun Examples.

Section WithAgent.

Variable onPartialReply : bool.
Variable parseOutput : jstring -> ParsedOutput.
Variable shortenMeta : jstring -> jstring.
Variable parseFenceSpans : jstring -> list FenceSpan.
Variable decorateToolGroup : ToolGroup -> jstring.
Variable JSON_parse : jstring -> option json.
Variable fileSize : jstring -> option Z.

Lemma noOutputText_truthy (summary : option jstring) :
  truthy (noOutputText summary) = true.
Proof. reflexivity. Qed.

(** C1 (as the code has it).  When the parser produced neither text nor
    tool result and the normalized fallback text equals the normalized
    prompt body, that normalized body being non-empty, the fallback is
    suppressed: the only reply item is the no-output notice; and when the
    process exited with code zero (or none), was not killed without a
    signal, and nothing was streamed to a live callback, the returned
    payloads are exactly one payload whose text is that notice. *)
Theorem echoed_prompt_is_suppressed (p : Params) (streamed : bool) (r : RunResult) :
  let d := digest parseOutput shortenMeta JSON_parse (stdout r) in
  let bodyNorm := normalize (orElse (Body p) (BodyStripped p)) in
  parsedTexts d = [] ->
  parsedToolResults d = [] ->
  normalize (Some (fallbackText JSON_parse d)) = bodyNorm ->
  bodyNorm <> [] ->
  replyItems onPartialReply parseFenceSpans decorateToolGroup JSON_parse p d =
    [{| item_text := noOutputText (summaryOf d); item_media := None |}] /\
  ((exit_code r = None \/ exit_code r = Some 0%Z) ->
   killed r && negb (truthyO (exit_signal r)) = false ->
   streamed && onPartialReply = false ->
   exists x,
     payloads (completeRun onPartialReply parseOutput shortenMeta parseFenceSpans
                 decorateToolGroup JSON_parse fileSize p streamed (Resolved r)) = [x] /\
     payload_text x = Some (noOutputText (summaryOf d))).
Proof.
  cbv zeta. intros Ht Hr Hn Hne.
  set (d := digest parseOutput shortenMeta JSON_parse (stdout r)) in *.
  assert (Hitems :
    replyItems onPartialReply parseFenceSpans decorateToolGroup JSON_parse p d =
      [{| item_text := noOutputText (summaryOf d); item_media := None |}]).
  { unfold replyItems. rewrite Ht, Hr. simpl. rewrite andb_false_r. simpl.
    unfold safeFallbackText, promptEcho. rewrite Hn.
    destruct (truthy (fallbackText JSON_parse d)) eqn:Hf; simpl.
    - assert (Hpos : (0 <? length (normalize (orElse (Body p) (BodyStripped p)))) = true).
      { apply Nat.ltb_lt. destruct (normalize (orElse (Body p) (BodyStripped p)));
          [now elim Hne | simpl; lia]. }
      rewrite Hpos, JsFacts.eqb_refl. simpl. rewrite !orb_true_r. reflexivity.
    - rewrite Hf. reflexivity. }
  split; [exact Hitems|].
  intros Hcode Hkill Hstream.
  unfold completeRun. fold d. rewrite Hitems, Hkill, Hstream.
  assert (Hz : negb (match exit_code r with Some c => (c =? 0)%Z | None => true end) = false).
  { destruct Hcode as [-> | ->]; reflexivity. }
  rewrite Hz. cbn [flat_map app payloads].
  unfold payloadOf. cbn [item_text item_media]. rewrite noOutputText_truthy.
  cbn [orb]. eexists. split; reflexivity.
Qed.

(** C9.  When the subprocess exits with a non-zero code, the result holds
    exactly one payload, a text: the warning sign, the exit code, the signal
    in brackets if there is one, and, if any output was captured, an
    excerpt of at most 500 characters of it, followed by three dots when the
    output is longer.  The result also reports the code in its meta.  No
    media is attached, and whatever was parsed from the output is not
    returned. *)
Theorem nonzero_exit_single_payload (p : Params) (streamed : bool) (r : RunResult) (c : Z) :
  exit_code r = Some c -> c <> 0%Z ->
  let d := digest parseOutput shortenMeta JSON_parse (stdout r) in
  let summarySource := match rpcAssistantText d with Some t => t | None => trimmed d end in
  let excerpt := slice 0 500 summarySource in
  let res := completeRun onPartialReply parseOutput shortenMeta parseFenceSpans
               decorateToolGroup JSON_parse fileSize p streamed (Resolved r) in
  payloads res =
    [{| payload_text := Some
          (WARNING_SIGN ++ str " Command exited with code " ++ showZ c
             ++ (if truthyO (exit_signal r)
                 then str " (" ++ orEmpty (exit_signal r) ++ str ")" else [])
             ++ (if truthy summarySource
                 then [LF; LF] ++ str "Output: " ++ excerpt
                        ++ (if 500 <? length summarySource then str "..." else [])
                 else []));
        payload_mediaUrl := None; payload_mediaUrls := None |}] /\
  length excerpt <= 500 /\
  meta_exitCode (meta res) = Some c.
Proof.
  intros Hc Hnz. cbv zeta. unfold completeRun. rewrite Hc.
  assert (Hz : (c =? 0)%Z = false) by (apply Z.eqb_neq; exact Hnz).
  rewrite Hz. cbn [negb payloads meta meta_exitCode].
  split; [reflexivity | split; [apply slice_length_le | reflexivity]].
Qed.

(** A rejected run gives exactly one text payload. *)
Lemma rejected_run_single_payload (p : Params) (streamed : bool) (e : RunError) :
  exists t,
    payloads (completeRun onPartialReply parseOutput shortenMeta parseFenceSpans
                decorateToolGroup JSON_parse fileSize p streamed (Rejected e)) =
    [textPayload t].
Proof.
  unfold completeRun.
  destruct (_ || _); eexists; reflexivity.
Qed.

End WithAgent.

(** C1, witness: the prompt [Hello] and the plain output [hello]. *)
Lemma echoed_prompt_is_suppressed_witness :
  exists x,
    payloads (completeRun false parsedNothing (fun m => m) noFences (fun _ => [])
                Json.parse (fun _ => None) (plainParams (str "Hello")) false
                (Resolved (exited (str "hello") 0))) = [x] /\
    payload_text x = Some (str "(command produced no output)").
Proof.
  destruct (echoed_prompt_is_suppressed false parsedNothing (fun m => m) noFences
              (fun _ => []) Json.parse (fun _ => None)
              (plainParams (str "Hello")) false (exited (str "hello") 0)
              ltac:(vm_compute; reflexivity) ltac:(vm_compute; reflexivity)
              ltac:(vm_compute; reflexivity) ltac:(vm_compute; discriminate))
    as [_ H].
  destruct (H (or_intror eq_refl) eq_refl eq_refl) as (x & Hp & Hx).
  exists x. split; [exact Hp|]. rewrite Hx. vm_compute. reflexivity.
Defined.

(** C1, counterexample to the claim as stated.  The prompt body [[photo]]
    and the plain output [[ok]] both normalize to the empty text, so the
    normalized fallback is identical to the normalized prompt body; the
    guard on the length of the normalized body keeps the fallback, and the
    reply is [[ok]], not the no-output notice.  The same happens for an
    empty prompt body. *)
Lemma empty_normal_form_is_not_suppressed :
  (normalize (Some (str "[ok]")) = normalize (Some (str "[photo]")) /\
   payloads (completeRun false parsedNothing (fun m => m) noFences (fun _ => [])
               Json.parse (fun _ => None) (plainParams (str "[photo]")) false
               (Resolved (exited (str "[ok]") 0))) =
   [textPayload (str "[ok]")]) /\
  (normalize (Some (str "[ok]")) = normalize (Some (str "")) /\
   normalize (Some (str "[ok]")) = str "" /\
   payloads (completeRun false parsedNothing (fun m => m) noFences (fun _ => [])
               Json.parse (fun _ => None) (plainParams (str "")) false
               (Resolved (exited (str "[ok]") 0))) =
   [textPayload (str "[ok]")]).
Proof. vm_compute. repeat split; reflexivity. Qed.

(** C9, witness: exit code 2 with an assistant text in the stream. *)
Lemma nonzero_exit_single_payload_witness :
  payloads (completeRun false parsedNothing (fun m => m) noFences (fun _ => [])
              Json.parse (fun _ => None) (plainParams (str "build it")) false
              (Resolved (exited
                 (jsonText "{'type':'message_end','message':{'role':'assistant','content':[{'type':'text','text':'cannot find Makefile'}]}}")
                 2))) =
  [textPayload (WARNING_SIGN ++ str " Command exited with code 2" ++ [LF; LF]
                  ++ str "Output: cannot find Makefile")].
Proof.
  destruct (nonzero_exit_single_payload false parsedNothing (fun m => m) noFences
              (fun _ => []) Json.parse (fun _ => None)
              (plainParams (str "build it")) false
              (exited
                 (jsonText "{'type':'message_end','message':{'role':'assistant','content':[{'type':'text','text':'cannot find Makefile'}]}}")
                 2)
              2%Z eq_refl ltac:(discriminate)) as (H & _ & _).
  rewrite H. vm_compute. reflexivity.
Defined.

(** *** The returned payloads *)

Lemma nil_or_last {A : Type} (l : list A) : l = [] \/ exists l' z, l = l' ++ [z].
Proof.
  induction l as [|z l' _] using rev_ind; [now left|]. right. now exists l', z.
Qed.

Lemma truthy_warning (s : jstring) : truthy (WARNING_SIGN ++ s) = true.
Proof. reflexivity. Qed.

Section Payloads.

Variable onPartialReply : bool.
Variable parseOutput : jstring -> ParsedOutput.
Variable shortenMeta : jstring -> jstring.
Variable parseFenceSpans : jstring -> list FenceSpan.
Variable decorateToolGroup : ToolGroup -> jstring.
Variable JSON_parse : jstring -> option json.
Variable fileSize : jstring -> option Z.

Local Abbreviation completeRun :=
  (AfterRun.completeRun onPartialReply parseOutput shortenMeta parseFenceSpans
     decorateToolGroup JSON_parse fileSize).
Local Abbreviation replyItems :=
  (AfterRun.replyItems onPartialReply parseFenceSpans decorateToolGroup JSON_parse).
Local Abbreviation digest := (AfterRun.digest parseOutput shortenMeta JSON_parse).

(** [wellFormed x]: the payload has a non-empty text or at least one media
    reference, its text is not the empty string, and [mediaUrl] is the
    first element of [mediaUrls]. *)
Local Abbreviation wellFormed x :=
  ((truthyO (payload_text x) || hasItems (payload_mediaUrls x) = true) /\
   payload_text x <> Some [] /\
   payload_mediaUrl x =
     match payload_mediaUrls x with Some (u :: _) => Some u | _ => None end).

Lemma textPayload_wf (t : jstring) : truthy t = true -> wellFormed (textPayload t).
Proof.
  intros H. cbn. rewrite H. repeat split. intros E. injection E as ->. discriminate.
Qed.

Lemma payloadOf_wf (p : Params) (item : ReplyItem) (x : ReplyPayload) :
  payloadOf fileSize p item = Some x -> wellFormed x.
Proof.
  unfold payloadOf. cbv zeta.
  set (urls := match orElse _ _, reply_mediaMaxMb p with
               | Some (_ :: _), Some cap => _
               | _, _ => _
               end).
  destruct (truthy (item_text item) || hasItems urls) eqn:E; [|discriminate].
  intros H. injection H as <-. cbn [payload_text payload_mediaUrl payload_mediaUrls].
  repeat split.
  - destruct (truthy (item_text item)) eqn:Et; cbn [truthyO]; [now rewrite Et | exact E].
  - destruct (truthy (item_text item)) eqn:Et; [|discriminate].
    intros H. injection H as H. rewrite H in Et. discriminate.
Qed.

(** Every payload that [runCommandReply] returns, for a run that resolved
    and for one that was rejected, has a non-empty text or at least one
    media reference; its text is never the empty string; and its [mediaUrl]
    is the first element of its [mediaUrls] (absent when there is none). *)
Theorem returned_payloads_are_well_formed
  (p : Params) (streamed : bool) (o : RunOutcome) :
  Forall (fun x => wellFormed x) (payloads (completeRun p streamed o)).
Proof.
  unfold AfterRun.completeRun. destruct o as [r | e].
  - cbv zeta. destruct (negb _).
    + constructor; [|constructor]. apply textPayload_wf, truthy_warning.
    + destruct (killed r && _).
      * constructor; [|constructor]. apply textPayload_wf, truthy_warning.
      * cbn [payloads]. destruct (streamed && onPartialReply); [constructor|].
        apply List.Forall_forall. intros x Hin. apply in_flat_map in Hin.
        destruct Hin as (item & _ & Hin).
        destruct (payloadOf fileSize p item) as [y|] eqn:E; [|contradiction].
        destruct Hin as [<- | []]. exact (payloadOf_wf _ _ _ E).
  - cbv zeta. destruct (_ || _).
    + constructor; [|constructor]. apply textPayload_wf.
      unfold timeoutText. cbv zeta.
      match goal with |- truthy (if ?c then _ else _) = true => destruct c end;
        reflexivity.
    + constructor; [|constructor]. apply textPayload_wf, truthy_warning.
Qed.

(** When the parser produced neither text nor tool result and the fallback
    text is, character for character, the prompt body or the stripped
    prompt body, and not empty, the fallback is suppressed whatever its
    normal form is: the only reply item is the no-output notice. *)
Theorem exact_echo_is_suppressed (p : Params) (r : RunResult) :
  let d := digest (stdout r) in
  parsedTexts d = [] ->
  parsedToolResults d = [] ->
  fallbackText JSON_parse d <> [] ->
  fallbackText JSON_parse d = orEmpty (Body p) \/
  fallbackText JSON_parse d = orEmpty (BodyStripped p) ->
  replyItems p d = [{| item_text := noOutputText (summaryOf d); item_media := None |}].
Proof.
  cbv zeta. intros Ht Hr Hne Heq.
  unfold AfterRun.replyItems. rewrite Ht, Hr. simpl. rewrite andb_false_r. simpl.
  unfold safeFallbackText, promptEcho. cbv zeta.
  assert (Hf : truthy (fallbackText JSON_parse (digest (stdout r))) = true).
  { destruct (fallbackText JSON_parse (digest (stdout r))); [congruence | reflexivity]. }
  rewrite Hf. cbn [andb].
  assert (He : eqb (fallbackText JSON_parse (digest (stdout r))) (orEmpty (Body p))
               || eqb (fallbackText JSON_parse (digest (stdout r))) (orEmpty (BodyStripped p))
               = true).
  { destruct Heq as [<- | <-]; rewrite eqb_refl; [reflexivity | apply orb_true_r]. }
  rewrite He. reflexivity.
Qed.

(** A process that was killed without a signal, with exit code zero or
    none, gives exactly one payload: the text that says so, with the exit
    code; what was parsed from the output is not returned. *)
Theorem killed_without_signal_single_payload
  (p : Params) (streamed : bool) (r : RunResult) :
  exit_code r = None \/ exit_code r = Some 0%Z ->
  killed r = true ->
  truthyO (exit_signal r) = false ->
  payloads (completeRun p streamed (Resolved r)) =
    [textPayload (WARNING_SIGN ++ str " Command was killed before completion (exit code "
                    ++ match exit_code r with Some c => showZ c | None => str "unknown" end
                    ++ str ")")] /\
  meta_killed (meta (completeRun p streamed (Resolved r))) = Some true.
Proof.
  intros Hc Hk Hs. unfold AfterRun.completeRun. cbv zeta.
  assert (Hz : negb (match exit_code r with Some c => (c =? 0)%Z | None => true end) = false).
  { destruct Hc as [-> | ->]; reflexivity. }
  rewrite Hz, Hk, Hs. cbn [negb andb payloads meta meta_killed]. split; reflexivity.
Qed.

(** *** Tool results *)

(** [normalizeToolResults] keeps only results with text: every result it
    returns has a non-empty text without white space at its ends, and its
    tool name, when it has one, is not empty and trimmed as well.  No
    result is added. *)
Theorem normalized_tool_results_are_clean (toolResults : option (list ToolResultEntry)) :
  Forall (fun tr =>
            nt_text tr <> [] /\ trim (nt_text tr) = nt_text tr /\
            match nt_toolName tr with
            | Some n => n <> [] /\ trim n = n
            | None => True
            end)
         (normalizeToolResults shortenMeta toolResults) /\
  length (normalizeToolResults shortenMeta toolResults)
    <= length (match toolResults with Some l => l | None => [] end).
Proof.
  unfold normalizeToolResults. destruct toolResults as [l|]; [|split; [constructor | reflexivity]].
  split.
  - apply List.Forall_forall. intros tr Hin. apply filter_In in Hin.
    destruct Hin as [Hin Hlen]. apply in_map_iff in Hin. destruct Hin as (e & <- & _).
    destruct e as [s | t n m]; cbn [nt_text nt_toolName] in *.
    + repeat split; [|apply trim_idem].
      intros E. rewrite E in Hlen. discriminate.
    + repeat split; [|apply trim_idem|].
      * intros E. rewrite E in Hlen. discriminate.
      * destruct n as [n|]; [|exact I]. destruct (truthy (trim n)) eqn:Et; [|exact I].
        split; [intros E; rewrite E in Et; discriminate | apply trim_idem].
  - etransitivity; [apply List.filter_length_le | now rewrite length_map].
Qed.

Local Abbreviation metaOf tr :=
  (if truthyO (nt_meta tr) then [orEmpty (nt_meta tr)] else []).
Local Abbreviation previewOf tr := (if truthy (nt_text tr) then [nt_text tr] else []).

Lemma groupStep_cases (acc : list ToolGroup) (tr : NormToolResult) :
  (acc = [] /\
   groupStep acc tr =
     [{| g_toolName := nt_toolName tr; g_metas := metaOf tr; g_previews := previewOf tr |}])
  \/
  exists init last,
    acc = init ++ [last] /\
    ((sameO (g_toolName last) (nt_toolName tr) = true /\
      groupStep acc tr =
        init ++ [{| g_toolName := g_toolName last; g_metas := g_metas last ++ metaOf tr;
                    g_previews := g_previews last ++ previewOf tr |}])
     \/
     (sameO (g_toolName last) (nt_toolName tr) = false /\
      groupStep acc tr =
        acc ++ [{| g_toolName := nt_toolName tr; g_metas := metaOf tr;
                   g_previews := previewOf tr |}])).
Proof.
  unfold groupStep. cbv zeta.
  destruct (rev acc) as [|last before] eqn:E.
  - left. split; [|reflexivity].
    rewrite <- (rev_involutive acc), E. reflexivity.
  - right. exists (rev before), last.
    assert (Hacc : acc = rev before ++ [last]).
    { rewrite <- (rev_involutive acc), E. reflexivity. }
    split; [exact Hacc|].
    destruct (sameO (g_toolName last) (nt_toolName tr)); [left | right]; split;
      reflexivity.
Qed.

(** [distinctNeighbours groups]: no two neighbours are groups of one tool. *)
Local Abbreviation distinctNeighbours groups :=
  (forall pre a b post,
     groups = pre ++ a :: b :: post -> sameO (g_toolName a) (g_toolName b) = false).

Lemma groupStep_distinct (acc : list ToolGroup) (tr : NormToolResult) :
  distinctNeighbours acc -> distinctNeighbours (groupStep acc tr).
Proof.
  intros H pre a b post E.
  destruct (groupStep_cases acc tr) as [[-> Hs] | (init & last & -> & [[Hsame Hs] | [Hdiff Hs]])];
    rewrite Hs in E; clear Hs.
  - destruct pre as [|x [|y pre]]; discriminate.
  - destruct (nil_or_last post) as [-> | (post' & z & ->)].
    + change (pre ++ [a; b]) with (pre ++ [a] ++ [b]) in E. rewrite app_assoc in E.
      apply app_inj_tail in E. destruct E as [-> <-]. cbn [g_toolName].
      apply (H pre a last []). now rewrite <- app_assoc.
    + change (pre ++ a :: b :: post' ++ [z]) with (pre ++ (a :: b :: post') ++ [z]) in E.
      rewrite app_assoc in E. apply app_inj_tail in E. destruct E as [-> _].
      apply (H pre a b (post' ++ [last])). now rewrite <- app_assoc.
  - destruct (nil_or_last post) as [-> | (post' & z & ->)].
    + change (pre ++ [a; b]) with (pre ++ [a] ++ [b]) in E. rewrite app_assoc in E.
      apply app_inj_tail in E. destruct E as [E <-]. cbn [g_toolName].
      apply app_inj_tail in E. destruct E as [_ ->]. exact Hdiff.
    + change (pre ++ a :: b :: post' ++ [z]) with (pre ++ (a :: b :: post') ++ [z]) in E.
      rewrite app_assoc in E. apply app_inj_tail in E. destruct E as [E _].
      apply (H pre a b post'). exact E.
Qed.

Lemma groupStep_content (acc : list ToolGroup) (tr : NormToolResult) :
  concat (map g_previews (groupStep acc tr)) = concat (map g_previews acc) ++ previewOf tr /\
  concat (map g_metas (groupStep acc tr)) = concat (map g_metas acc) ++ metaOf tr /\
  length (groupStep acc tr) <= S (length acc).
Proof.
  destruct (groupStep_cases acc tr) as [[-> Hs] | (init & last & -> & [[_ Hs] | [_ Hs]])];
    rewrite Hs; clear Hs.
  - cbn. rewrite !app_nil_r. repeat split. lia.
  - rewrite !map_app, !concat_app. cbn. rewrite !app_nil_r, !app_assoc, !length_app.
    cbn. repeat split. lia.
  - rewrite !map_app, !concat_app. cbn. rewrite !app_nil_r, !length_app.
    cbn. repeat split. lia.
Qed.

(** The grouping of the tool results that are listed inline loses nothing
    and keeps the order: the previews of the groups, taken together, are
    the texts of the results in arrival order, the metas of the groups are
    the metas of the results in arrival order; no two neighbouring groups
    are groups of one tool; and there are no more groups than results. *)
Theorem grouping_keeps_every_result (results : list NormToolResult) :
  let groups := fold_left groupStep results [] in
  concat (map g_previews groups) = flat_map (fun tr => previewOf tr) results /\
  concat (map g_metas groups) = flat_map (fun tr => metaOf tr) results /\
  distinctNeighbours groups /\
  length groups <= length results.
Proof.
  cbv zeta.
  assert (G : forall l acc,
    distinctNeighbours acc ->
    concat (map g_previews (fold_left groupStep l acc)) =
      concat (map g_previews acc) ++ flat_map (fun tr => previewOf tr) l /\
    concat (map g_metas (fold_left groupStep l acc)) =
      concat (map g_metas acc) ++ flat_map (fun tr => metaOf tr) l /\
    distinctNeighbours (fold_left groupStep l acc) /\
    length (fold_left groupStep l acc) <= length acc + length l).
  { induction l as [|tr l IH]; intros acc Hd; cbn [fold_left flat_map length].
    - rewrite !app_nil_r. repeat split; [exact Hd | lia].
    - destruct (IH (groupStep acc tr) (groupStep_distinct acc tr Hd)) as (H1 & H2 & H3 & H4).
      destruct (groupStep_content acc tr) as (C1 & C2 & C3).
      rewrite H1, H2, C1, C2, <- !app_assoc. repeat split; [exact H3 | lia]. }
  destruct (G results []) as (H1 & H2 & H3 & H4).
  - intros pre a b post E. destruct pre; discriminate.
  - repeat split; assumption.
Qed.

(** The cap on media size never drops a web URL and never drops a local
    path whose file cannot be inspected: a reference is kept exactly when
    it is a web URL, or [stat] fails for it, or its file is no larger than
    the cap. *)
Theorem capMedia_keeps (maxMb : Z) (urls : list jstring) (u : jstring) :
  In u (capMedia fileSize maxMb urls) <->
  In u urls /\
  (isHttpUrl u = true \/ fileSize u = None \/
   exists size, fileSize u = Some size /\ (size <= maxMb * 1024 * 1024)%Z).
Proof.
  unfold capMedia. cbv zeta. rewrite filter_In.
  destruct (isHttpUrl u); [intuition|].
  destruct (fileSize u) as [size|] eqn:E; [|intuition].
  rewrite Z.leb_le. split.
  - intros [H1 H2]. split; [exact H1|]. right. right. exists size. auto.
  - intros [H1 [H2 | [H2 | (s & Hs & H2)]]]; try discriminate.
    injection Hs as <-. auto.
Qed.

End Payloads.

Lemma exact_echo_is_suppressed_witness :
  replyItems false noFences (fun _ => []) Json.parse (plainParams (str "[photo]"))
    (digest parsedNothing (fun m => m) Json.parse (str "[photo]")) =
  [{| item_text := str "(command produced no output)"; item_media := None |}].
Proof.
  pose proof (exact_echo_is_suppressed false parsedNothing (fun m => m) noFences (fun _ => [])
                Json.parse (plainParams (str "[photo]")) (exited (str "[photo]") 0)
                ltac:(vm_compute; reflexivity) ltac:(vm_compute; reflexivity)
                ltac:(vm_compute; discriminate)
                ltac:(left; vm_compute; reflexivity)) as H.
  cbn [stdout exited] in H. rewrite H. vm_compute. reflexivity.
Defined.

Lemma killed_without_signal_single_payload_witness :
  payloads (completeRun false parsedNothing (fun m => m) noFences (fun _ => [])
              Json.parse (fun _ => None) (plainParams (str "build it")) false
              (Resolved {| stdout := str "partial"; stderr := []; exit_code := None;
                           exit_signal := None; killed := true |})) =
  [textPayload (WARNING_SIGN
                  ++ str " Command was killed before completion (exit code unknown)")].
Proof.
  destruct (killed_without_signal_single_payload false parsedNothing (fun m => m) noFences
              (fun _ => []) Json.parse (fun _ => None) (plainParams (str "build it")) false
              {| stdout := str "partial"; stderr := []; exit_code := None;
                 exit_signal := None; killed := true |}
              (or_introl eq_refl) eq_refl eq_refl) as [H _].
  rewrite H. reflexivity.
Defined.

End AfterRunFacts.

(** ** The abort handshake *)

Module SessionAbortFacts.
Import Js SessionAbort Examples.

Section WithRuns.

Variable parseAgentSessionKey_rest : jstring -> option jstring.
Variable abortEmbeddedPiRun : jstring -> bool.

Local Abbreviation resolveSessionEntryForKey :=
  (SessionAbort.resolveSessionEntryForKey parseAgentSessionKey_rest).
Local Abbreviation abortRequest :=
  (SessionAbort.abortRequest parseAgentSessionKey_rest abortEmbeddedPiRun).

Lemma getSlot_entry (store : gmap jstring SessionEntry) (key : jstring)
  (entry : SessionEntry) :
  getSlot store key = Some (Entry entry) <-> store !! key = Some entry.
Proof.
  unfold getSlot. destruct (store !! key) as [e|].
  - split; intros H; injection H as <-; reflexivity.
  - destruct (existsb _ _); split; discriminate.
Qed.

Lemma getSlot_member (store : gmap jstring SessionEntry) (key name : jstring) :
  getSlot store key = Some (PrototypeMember name) <->
  store !! key = None /\ name = key /\ In key OBJECT_PROTOTYPE_KEYS.
Proof.
  unfold getSlot. destruct (store !! key) as [e|].
  - split; [discriminate | intros [H _]; discriminate].
  - destruct (existsb (eqb key) OBJECT_PROTOTYPE_KEYS) eqn:E.
    + apply existsb_exists in E. destruct E as (x & Hin & Hx).
      apply JsFacts.eqb_eq in Hx. subst x.
      split; [intros H; injection H as <-; auto | intros (_ & -> & _); reflexivity].
    + split; [discriminate|]. intros (_ & _ & Hin). exfalso.
      assert (H : existsb (eqb key) OBJECT_PROTOTYPE_KEYS = true).
      { apply existsb_exists. exists key. split; [exact Hin | apply JsFacts.eqb_refl]. }
      congruence.
Qed.

Lemma resolve_truthy_key (store : gmap jstring SessionEntry) (k : option jstring)
  (slot : Slot) (key : jstring) :
  resolveSessionEntryForKey store k = Some (slot, key) ->
  truthy key = true /\ getSlot store key = Some slot.
Proof.
  unfold SessionAbort.resolveSessionEntryForKey. destruct k as [k0|]; [|discriminate].
  destruct (truthy k0) eqn:Ek; simpl; [|discriminate].
  destruct (getSlot store k0) as [direct|] eqn:Ed.
  - intros H. injection H as <- <-. auto.
  - destruct (parseAgentSessionKey_rest k0) as [lk|]; [|discriminate].
    destruct (truthy lk) eqn:El; [|discriminate].
    destruct (getSlot store lk) as [e|] eqn:Ee; [|discriminate].
    intros H. injection H as <- <-. auto.
Qed.

(** What [store[key]] gives is found under the key itself, or else under
    the legacy key derived from it. *)
Lemma resolve_direct_or_legacy (store : gmap jstring SessionEntry) (k : jstring)
  (slot : Slot) (key : jstring) :
  resolveSessionEntryForKey store (Some k) = Some (slot, key) <->
  truthy k = true /\
  ((getSlot store k = Some slot /\ key = k) \/
   (getSlot store k = None /\ parseAgentSessionKey_rest k = Some key /\
    truthy key = true /\ getSlot store key = Some slot)).
Proof.
  unfold SessionAbort.resolveSessionEntryForKey. destruct (truthy k) eqn:Ek; simpl.
  - destruct (getSlot store k) as [direct|] eqn:Ed.
    + split.
      * intros H. injection H as <- <-. auto.
      * intros [_ [[H ->] | [H _]]]; [congruence | discriminate].
    + destruct (parseAgentSessionKey_rest k) as [lk|] eqn:Ep.
      * destruct (truthy lk) eqn:El.
        -- destruct (getSlot store lk) as [e|] eqn:Ee.
           ++ split.
              ** intros H. injection H as <- <-. split; [reflexivity|]. right. auto.
              ** intros [_ [[H _] | (_ & H1 & _ & H2)]]; [discriminate|].
                 injection H1 as <-. congruence.
           ++ split; [discriminate|].
              intros [_ [[H _] | (_ & H1 & _ & H2)]]; [discriminate|].
              injection H1 as <-. congruence.
        -- split; [discriminate|].
           intros [_ [[H _] | (_ & H1 & H2 & _)]]; [discriminate|].
           injection H1 as <-. congruence.
      * split; [discriminate|].
        intros [_ [[H _] | (_ & H1 & _)]]; discriminate.
  - split; [discriminate | intros [H _]; discriminate].
Qed.

(** An abort request with a target key.  When the key resolves to a
    persisted entry, directly or through the legacy key, that entry is
    stamped [abortedLastRun = true] with [updatedAt] set to the current
    time under the key it was found at, every other entry is left as it
    was, and the store is saved once, whether or not a live run existed;
    [aborted] is [true] exactly when the entry has a session id for which
    [abortEmbeddedPiRun] signalled a live run; the abort memory is not
    touched.  When nothing resolves, nothing is saved, the intent is
    recorded in [ABORT_MEMORY] under the target key only, and [aborted] is
    [false].  When the key resolves to a member of [Object.prototype], the
    store is saved with its entries unchanged, the member is written to,
    the abort memory is not touched and [aborted] is [false]. *)
Theorem abort_stamps_entry_or_remembers
  (now : Z) (targetKey : jstring) (from to : option jstring) (w : World) :
  truthy targetKey = true ->
  let w' := fst (abortRequest now (Some targetKey) from to w) in
  let res := snd (abortRequest now (Some targetKey) from to w) in
  handled res = true /\
  match resolveSessionEntryForKey (disk w) (Some targetKey) with
  | Some (Entry entry, key) =>
      disk w' !! key = Some (stamp now entry) /\
      abortedLastRun (stamp now entry) = true /\
      updatedAt (stamp now entry) = now /\
      (forall k, k <> key -> disk w' !! k = disk w !! k) /\
      saves w' = S (saves w) /\
      ABORT_MEMORY w' = ABORT_MEMORY w /\
      stampedMembers w' = stampedMembers w /\
      (aborted res = true <->
       exists s, sessionId entry = Some s /\ truthy s = true /\
                 abortEmbeddedPiRun s = true)
  | Some (PrototypeMember name, key) =>
      disk w' = disk w /\
      saves w' = S (saves w) /\
      ABORT_MEMORY w' = ABORT_MEMORY w /\
      signalled w' = signalled w /\
      stampedMembers w' = stampedMembers w ++ [name] /\
      aborted res = false
  | None =>
      disk w' = disk w /\
      saves w' = saves w /\
      ABORT_MEMORY w' = <[targetKey := true]> (ABORT_MEMORY w) /\
      signalled w' = signalled w /\
      stampedMembers w' = stampedMembers w /\
      aborted res = false
  end.
Proof.
  intros Hk. cbv zeta. unfold SessionAbort.abortRequest. cbn [truthyKey firstSome]. rewrite Hk.
  destruct (resolveSessionEntryForKey (disk w) (Some targetKey)) as [[slot key]|] eqn:Hr.
  - destruct (resolve_truthy_key _ _ _ _ Hr) as [Hkey Hlook].
    rewrite Hkey. destruct slot as [entry | name]; cbn [slotSessionId].
    + assert (Hab :
        forall s, sessionId entry = Some s ->
          (truthy s && abortEmbeddedPiRun s = true <->
           exists s', sessionId entry = Some s' /\ truthy s' = true /\
                      abortEmbeddedPiRun s' = true)).
      { intros s Hs. rewrite andb_true_iff. split.
        - intros [H1 H2]. exists s. auto.
        - intros (s' & Hs' & H1 & H2). rewrite Hs in Hs'. injection Hs' as <-. auto. }
      destruct (sessionId entry) as [s|] eqn:Hs.
      * specialize (Hab s eq_refl). destruct (truthy s) eqn:Ht; simpl.
        -- split; [reflexivity|]. repeat split; try reflexivity.
           ++ apply lookup_insert_eq.
           ++ intros k Hne. apply lookup_insert_ne. congruence.
           ++ intros H. apply Hab. exact H.
           ++ intros H. apply Hab in H. exact H.
        -- split; [reflexivity|]. repeat split; try reflexivity.
           ++ apply lookup_insert_eq.
           ++ intros k Hne. apply lookup_insert_ne. congruence.
           ++ discriminate.
           ++ intros H. apply Hab in H. discriminate.
      * simpl. split; [reflexivity|]. repeat split; try reflexivity.
        -- apply lookup_insert_eq.
        -- intros k Hne. apply lookup_insert_ne. congruence.
        -- discriminate.
        -- intros (s & Hs' & _). discriminate.
    + simpl. repeat split; reflexivity.
  - simpl. repeat split; reflexivity.
Qed.

(** C4 (where the code parts from it).  An abort request whose target key
    is the name of a member of [Object.prototype], for a store that holds
    no entry of that name: no persisted entry exists, yet [store[key]] is
    truthy, so the request takes the branch of a resolved entry.  The store
    is saved, with its entries unchanged, the shared member is written to,
    and the intent is not recorded in [ABORT_MEMORY]; [aborted] is
    [false]. *)
Theorem abort_on_inherited_key_forgets
  (now : Z) (targetKey : jstring) (from to : option jstring) (w : World) :
  In targetKey OBJECT_PROTOTYPE_KEYS ->
  disk w !! targetKey = None ->
  let w' := fst (abortRequest now (Some targetKey) from to w) in
  let res := snd (abortRequest now (Some targetKey) from to w) in
  resolveSessionEntryForKey (disk w) (Some targetKey) =
    Some (PrototypeMember targetKey, targetKey) /\
  saves w' = S (saves w) /\
  disk w' = disk w /\
  ABORT_MEMORY w' = ABORT_MEMORY w /\
  stampedMembers w' = stampedMembers w ++ [targetKey] /\
  res = {| handled := true; aborted := false |}.
Proof.
  intros Hin Hnone. cbv zeta.
  assert (Hslot : getSlot (disk w) targetKey = Some (PrototypeMember targetKey)).
  { apply getSlot_member. auto. }
  assert (Hk : truthy targetKey = true).
  { destruct targetKey; [|reflexivity]. exfalso. revert Hin. cbn.
    intuition discriminate. }
  assert (Hr : resolveSessionEntryForKey (disk w) (Some targetKey) =
               Some (PrototypeMember targetKey, targetKey)).
  { unfold SessionAbort.resolveSessionEntryForKey. now rewrite Hk, Hslot. }
  split; [exact Hr|].
  unfold SessionAbort.abortRequest. cbn [truthyKey firstSome]. rewrite Hk, Hr.
  cbn [slotSessionId]. rewrite Hk. cbn. repeat split; reflexivity.
Qed.

(** An abort request without target key touches neither the store nor a
    run: the intent is kept in [ABORT_MEMORY] under the sender, or else the
    recipient, if there is one. *)
Lemma abort_without_target_remembers
  (now : Z) (from to : option jstring) (w : World) :
  let w' := fst (abortRequest now None from to w) in
  let res := snd (abortRequest now None from to w) in
  handled res = true /\ aborted res = false /\
  disk w' = disk w /\ saves w' = saves w /\ signalled w' = signalled w /\
  ABORT_MEMORY w' =
    match firstSome from to with
    | Some k => if truthy k then <[k := true]> (ABORT_MEMORY w) else ABORT_MEMORY w
    | None => ABORT_MEMORY w
    end.
Proof.
  cbv zeta. unfold SessionAbort.abortRequest. cbn [truthyKey firstSome].
  destruct (firstSome from to) as [k|]; [destruct (truthy k)|];
    simpl; repeat split; reflexivity.
Qed.

(** Without permission, authorization or abort trigger the message is not
    handled and nothing changes. *)
Lemma gated_message_is_not_handled
  (allowTextCommands isAuthorizedSender abortRequested : bool)
  (now : Z) (targetKey from to : option jstring) (w : World) :
  allowTextCommands && isAuthorizedSender && abortRequested = false ->
  tryFastAbortFromMessage parseAgentSessionKey_rest abortEmbeddedPiRun
    allowTextCommands isAuthorizedSender abortRequested now targetKey from to w =
  (w, {| handled := false; aborted := false |}).
Proof.
  unfold tryFastAbortFromMessage.
  destruct allowTextCommands, isAuthorizedSender, abortRequested;
    simpl; try reflexivity; discriminate.
Qed.

End WithRuns.

(** Witness of [abort_stamps_entry_or_remembers]: the key [agent:pi:main]
    resolves through its legacy key [main]; no run is live. *)
Lemma abort_stamps_entry_or_remembers_witness :
  let out := abortRequest restOfAgentKey (fun _ => false) 500
               (Some (str "agent:pi:main")) None None legacyWorld in
  disk (fst out) !! str "main" =
    Some {| sessionId := Some (str "s-1"); abortedLastRun := true; updatedAt := 500 |} /\
  saves (fst out) = 1 /\
  aborted (snd out) = false.
Proof.
  pose proof (abort_stamps_entry_or_remembers restOfAgentKey (fun _ => false) 500
                (str "agent:pi:main") None None legacyWorld eq_refl) as H.
  cbv zeta in H. destruct H as [_ H].
  assert (Hr : resolveSessionEntryForKey restOfAgentKey (disk legacyWorld)
                 (Some (str "agent:pi:main")) = Some (Entry legacyEntry, str "main")).
  { vm_compute. reflexivity. }
  rewrite Hr in H. destruct H as (H1 & _ & _ & _ & H2 & _ & _ & H3).
  cbv zeta. split; [exact H1 | split; [exact H2|]].
  destruct (aborted _); [|reflexivity].
  destruct (proj1 H3 eq_refl) as (s & _ & _ & Hs). discriminate.
Defined.

(** C4, witness of [abort_on_inherited_key_forgets]: the session key
    [toString], a store that holds one other session, a sender.  The store
    is saved and the abort memory stays empty. *)
Lemma abort_on_inherited_key_forgets_witness :
  let out := abortRequest restOfAgentKey (fun _ => true) 500
               (Some (str "toString")) (Some (str "+15550001")) None legacyWorld in
  saves (fst out) = 1 /\
  disk (fst out) = disk legacyWorld /\
  ABORT_MEMORY (fst out) = ∅ /\
  snd out = {| handled := true; aborted := false |}.
Proof.
  pose proof (abort_on_inherited_key_forgets restOfAgentKey (fun _ => true) 500
                (str "toString") (Some (str "+15550001")) None legacyWorld) as H.
  cbv zeta in H.
  destruct H as (_ & H1 & H2 & H3 & _ & H4).
  - cbn. tauto.
  - apply lookup_singleton_ne. discriminate.
  - cbv zeta. repeat split; assumption.
Defined.

(** *** What an abort leaves alone *)

Section Frame.

Variable parseAgentSessionKey_rest : jstring -> option jstring.
Variable abortEmbeddedPiRun : jstring -> bool.

Local Abbreviation resolveSessionEntryForKey :=
  (SessionAbort.resolveSessionEntryForKey parseAgentSessionKey_rest).
Local Abbreviation abortRequest :=
  (SessionAbort.abortRequest parseAgentSessionKey_rest abortEmbeddedPiRun).

(** An abort request never adds a session entry, never removes one and
    never changes a session id: under every key the store holds an entry
    after the request exactly when it did before, with the same session
    id. *)
Theorem abort_keeps_sessions
  (now : Z) (targetKey from to : option jstring) (w : World) (k : jstring) :
  option_map sessionId (disk (fst (abortRequest now targetKey from to w)) !! k) =
  option_map sessionId (disk w !! k).
Proof.
  unfold SessionAbort.abortRequest. cbv zeta.
  assert (Hrem : forall w0 : World,
    disk (match firstSome targetKey (firstSome from to) with
          | Some k0 => if truthy k0 then setAbortMemory k0 true w0 else w0
          | None => w0
          end) = disk w0).
  { intros w0. destruct (firstSome _ _) as [k0|]; [|reflexivity].
    destruct (truthy k0); reflexivity. }
  destruct (truthyKey targetKey); [|cbn [fst]; now rewrite Hrem].
  destruct (resolveSessionEntryForKey (disk w) targetKey) as [[slot key]|] eqn:Hr.
  - destruct (resolve_truthy_key _ _ _ _ _ Hr) as [Hkey Hlook]. rewrite Hkey.
    destruct slot as [entry | name]; cbn [slotSessionId].
    + apply getSlot_entry in Hlook.
      assert (Hd : forall m s sg st,
        option_map sessionId
          (disk {| disk := <[key := stamp now entry]> (disk w); ABORT_MEMORY := m;
                   saves := s; signalled := sg; stampedMembers := st |} !! k) =
        option_map sessionId (disk w !! k)).
      { intros m s sg st. cbn [disk]. destruct (decide (k = key)) as [-> | Hne].
        - rewrite lookup_insert_eq, Hlook. reflexivity.
        - rewrite lookup_insert_ne by congruence. reflexivity. }
      destruct (sessionId entry) as [s|]; [destruct (truthy s)|]; cbn [fst]; apply Hd.
    + reflexivity.
  - cbn [fst]. now rewrite Hrem.
Qed.

End Frame.

(** *** The abort memory *)

(** What [setAbortMemory] stores under a key is what [getAbortMemory]
    reads there; the other keys and the session store are left as they
    were. *)
Theorem abort_memory_round_trip (key other : jstring) (value : bool) (w : World) :
  getAbortMemory key (setAbortMemory key value w) = Some value /\
  (other <> key ->
   getAbortMemory other (setAbortMemory key value w) = getAbortMemory other w) /\
  disk (setAbortMemory key value w) = disk w.
Proof.
  unfold getAbortMemory, setAbortMemory. cbn [ABORT_MEMORY disk].
  split; [apply lookup_insert_eq|]. split; [|reflexivity].
  intros H. apply lookup_insert_ne. congruence.
Qed.

(** *** The target key *)

Lemma truthyKey_trimmed (k : option jstring) (x : jstring) :
  truthyKey (option_map trim k) = true -> option_map trim k = Some x ->
  x <> [] /\ trim x = x.
Proof.
  destruct k as [y|]; [|discriminate]. cbn. intros Ht E. injection E as <-.
  split; [intros E; rewrite E in Ht; discriminate | apply JsFacts.trim_idem].
Qed.

(** The target key of an abort is never the empty string and has no white
    space at its ends; the target named by the command takes precedence
    over the session key of the message; and there is no target exactly
    when both are absent or blank. *)
Theorem abort_target_key_is_trimmed
  (commandTargetSessionKey sessionKey : option jstring) :
  match resolveAbortTargetKey commandTargetSessionKey sessionKey with
  | Some key =>
      key <> [] /\ trim key = key /\
      (truthyKey (option_map trim commandTargetSessionKey) = true ->
       Some key = option_map trim commandTargetSessionKey)
  | None =>
      truthyKey (option_map trim commandTargetSessionKey) = false /\
      truthyKey (option_map trim sessionKey) = false
  end.
Proof.
  unfold resolveAbortTargetKey. cbv zeta.
  destruct (truthyKey (option_map trim commandTargetSessionKey)) eqn:E1.
  - destruct (option_map trim commandTargetSessionKey) as [x|] eqn:Ex; [|discriminate].
    destruct (truthyKey_trimmed commandTargetSessionKey x) as [H1 H2];
      [now rewrite Ex | exact Ex|].
    repeat split; assumption.
  - destruct (truthyKey (option_map trim sessionKey)) eqn:E2; [|split; reflexivity].
    destruct (option_map trim sessionKey) as [x|] eqn:Ex; [|discriminate].
    destruct (truthyKey_trimmed sessionKey x) as [H1 H2]; [now rewrite Ex | exact Ex|].
    repeat split; try assumption. discriminate.
Qed.

Lemma gated_message_is_not_handled_witness :
  tryFastAbortFromMessage restOfAgentKey (fun _ => true) true false true 500
    (Some (str "main")) None None legacyWorld =
  (legacyWorld, {| handled := false; aborted := false |}).
Proof.
  exact (gated_message_is_not_handled restOfAgentKey (fun _ => true) true false true 500
           (Some (str "main")) None None legacyWorld eq_refl).
Defined.

End SessionAbortFacts.

(** ** The cron store *)

Module CronStoreFacts.
Import Js Json CronStore Examples.

Section WithHelpers.

Variable inferLegacyName : option json -> option json -> jstring.
Variable normalizeOptionalText : option json -> option jstring.
Variable migrateLegacyCronPayload : json -> json * bool.
Variable recomputeNextRuns : Z -> list Job -> list Job.

Local Abbreviation normalizeJob :=
  (CronStore.normalizeJob inferLegacyName normalizeOptionalText migrateLegacyCronPayload).
Local Abbreviation ensureLoaded :=
  (CronStore.ensureLoaded inferLegacyName normalizeOptionalText migrateLegacyCronPayload
     recomputeNextRuns).

(** *** Reload policy *)

Lemma ensureLoaded_loaded (env : Env) (st : CronServiceState) (d : Disk) :
  store (fst (ensureLoaded env st d)) <> None.
Proof.
  unfold CronStore.ensureLoaded, loadCronStore, normalizeJobs.
  destruct (needsReload st (getFileMtimeMs d)) eqn:E; cbn [negb].
  - destruct (existsb _ _); simpl; discriminate.
  - simpl. unfold CronStore.needsReload in E. destruct (store st); [discriminate | discriminate E].
Qed.

(** C7.  After one completed [ensureLoaded], a second call that sees a
    modification time not past the cached one returns without reading the
    file and leaves the whole state in memory, every job and its
    [nextRunAtMs] included, as it was; and any call that does read the file
    was made with no store loaded or with a modification time strictly
    greater than the cached one. *)
Theorem ensureLoaded_unchanged_mtime_is_noop
  (env0 env1 : Env) (st0 : CronServiceState) (d0 d : Disk) :
  let st1 := fst (ensureLoaded env0 st0 d0) in
  notAdvanced (file_mtime d) (storeFileMtimeMs st1) ->
  ensureLoaded env1 st1 d = (st1, d) /\
  reads (snd (ensureLoaded env1 st1 d)) = reads d /\
  (forall env st d',
     reads (snd (ensureLoaded env st d')) <> reads d' ->
     store st = None \/
     exists m c, file_mtime d' = Some m /\ storeFileMtimeMs st = Some c /\ (c < m)%Z).
Proof.
  cbv zeta. intros Hna.
  pose proof (ensureLoaded_loaded env0 st0 d0) as Hl.
  set (st1 := fst (ensureLoaded env0 st0 d0)) in *.
  assert (Hno : needsReload st1 (getFileMtimeMs d) = false).
  { unfold CronStore.needsReload, getFileMtimeMs. destruct (store st1); [|now elim Hl].
    destruct (file_mtime d) as [m|] eqn:Em; [|reflexivity].
    destruct (storeFileMtimeMs st1) as [c|] eqn:Ec; [|reflexivity].
    apply Z.ltb_ge. apply (Hna m c); reflexivity. }
  assert (Heq : ensureLoaded env1 st1 d = (st1, d)).
  { unfold CronStore.ensureLoaded. rewrite Hno. reflexivity. }
  split; [exact Heq|]. split; [rewrite Heq; reflexivity|].
  intros env st d' Hr. unfold CronStore.ensureLoaded in Hr.
  destruct (needsReload st (getFileMtimeMs d')) eqn:E; cbn [negb] in Hr.
  - unfold CronStore.needsReload, getFileMtimeMs in E.
    destruct (store st); [|left; reflexivity].
    destruct (file_mtime d') as [m|]; [|discriminate].
    destruct (storeFileMtimeMs st) as [c|]; [|discriminate].
    right. exists m, c. apply Z.ltb_lt in E. auto.
  - now elim Hr.
Qed.

(** *** Normalization and the dirty flag *)

(** The three listed normalizations set [mutated]: an inferred name, a
    changed description, a migrated payload. *)
Lemma normalizeJob_dirty (raw : Job) :
  snd (normalizeJob raw) = true <->
  (match job_name raw with
   | Some (JStr nameRaw) => length (trim nameRaw) = 0
   | _ => True
   end) \/
  differs (job_description raw) (normalizeOptionalText (job_description raw)) = true \/
  (exists ms, job_payload raw = Some (JObj ms) /\
              snd (migrateLegacyCronPayload (JObj ms)) = true).
Proof.
  unfold CronStore.normalizeJob.
  set (dd := differs (job_description raw) (normalizeOptionalText (job_description raw))).
  assert (Hp : forall b1 b2 b3 : bool,
             (b1 || b2 || b3 = true) <-> (b1 = true \/ b2 = true \/ b3 = true)).
  { intros [] [] []; simpl; intuition discriminate. }
  assert (Hpay :
    snd (match job_payload raw with
         | Some (JObj ms) =>
             let '(p, changed) := migrateLegacyCronPayload (JObj ms) in (Some p, changed)
         | other => (other, false)
         end) = true <->
    exists ms, job_payload raw = Some (JObj ms) /\
               snd (migrateLegacyCronPayload (JObj ms)) = true).
  { destruct (job_payload raw) as [[| | | | |ms]|];
      try (split; [discriminate | intros (ms' & H & _); discriminate]).
    destruct (migrateLegacyCronPayload (JObj ms)) as [pp ch] eqn:Em. simpl.
    split.
    - intros ->. exists ms. rewrite Em. auto.
    - intros (ms' & H & H2). injection H as <-. rewrite Em in H2. exact H2. }
  destruct (match job_payload raw with
            | Some (JObj ms) =>
                let '(p, changed) := migrateLegacyCronPayload (JObj ms) in (Some p, changed)
            | other => (other, false)
            end) as [payload m3] eqn:E3.
  simpl in Hpay.
  assert (Hname :
    snd (match job_name raw with
         | Some (JStr nameRaw) =>
             if length (trim nameRaw) =? 0
             then (JStr (inferLegacyName (job_schedule raw) (job_payload raw)), true)
             else (JStr (trim nameRaw), false)
         | _ => (JStr (inferLegacyName (job_schedule raw) (job_payload raw)), true)
         end) = true <->
    match job_name raw with
    | Some (JStr nameRaw) => length (trim nameRaw) = 0
    | _ => True
    end).
  { destruct (job_name raw) as [[| | |s| |]|]; try (simpl; tauto).
    destruct (length (trim s) =? 0) eqn:El; simpl.
    - apply Nat.eqb_eq in El. tauto.
    - apply Nat.eqb_neq in El. split; [discriminate | intros H; contradiction]. }
  destruct (match job_name raw with
            | Some (JStr nameRaw) =>
                if length (trim nameRaw) =? 0
                then (JStr (inferLegacyName (job_schedule raw) (job_payload raw)), true)
                else (JStr (trim nameRaw), false)
            | _ => (JStr (inferLegacyName (job_schedule raw) (job_payload raw)), true)
            end) as [name m1] eqn:E1.
  simpl in Hname.
  destruct dd eqn:Ed; simpl; rewrite Hp, Hname, Hpay; intuition discriminate.
Qed.

(** C8.  A job whose name is non-blank but carries white space at its ends,
    and which needs no other normalization: the load trims the name in
    memory without setting [mutated]; nothing is persisted, and the file
    keeps the untrimmed name. *)
Theorem untrimmed_name_is_not_persisted
  (env : Env) (d : Disk) (job : Job) (nameRaw : jstring) :
  file_jobs d = Some [job] ->
  job_name job = Some (JStr nameRaw) ->
  trim nameRaw <> [] ->
  trim nameRaw <> nameRaw ->
  differs (job_description job) (normalizeOptionalText (job_description job)) = false ->
  (forall ms, job_payload job = Some (JObj ms) ->
              migrateLegacyCronPayload (JObj ms) = (JObj ms, false)) ->
  (forall now jobs, map job_name (recomputeNextRuns now jobs) = map job_name jobs) ->
  let st0 := {| store := None; storeLoadedAtMs := None; storeFileMtimeMs := None |} in
  let st' := fst (ensureLoaded env st0 d) in
  let d' := snd (ensureLoaded env st0 d) in
  option_map (map job_name) (store st') = Some [Some (JStr (trim nameRaw))] /\
  snd (normalizeJob job) = false /\
  fst (normalizeJob job) <> job /\
  writes d' = writes d /\
  file_jobs d' = Some [job] /\
  option_map (map job_name) (file_jobs d') = Some [Some (JStr nameRaw)].
Proof.
  intros Hfile Hname Hnb Hne Hdesc Hpay Hrec. cbv zeta.
  assert (Hlen : (length (trim nameRaw) =? 0) = false).
  { apply Nat.eqb_neq. destruct (trim nameRaw); [now elim Hnb | discriminate]. }
  assert (Hnorm : normalizeJob job =
    ({| job_name := Some (JStr (trim nameRaw)); job_description := job_description job;
        job_schedule := job_schedule job; job_payload := job_payload job;
        nextRunAtMs := nextRunAtMs job; job_rest := job_rest job |}, false)).
  { unfold CronStore.normalizeJob. rewrite Hname, Hlen, Hdesc.
    destruct (job_payload job) as [[| | | | |ms]|] eqn:Ep; try reflexivity.
    rewrite (Hpay ms eq_refl). reflexivity. }
  unfold CronStore.ensureLoaded, needsReload, loadCronStore, normalizeJobs. cbn [store negb].
  rewrite Hfile. cbn [map existsb fst snd]. rewrite Hnorm. cbn [fst snd orb].
  split; [|split; [|split; [|split; [|split]]]].
  - cbn [store option_map]. rewrite Hrec. reflexivity.
  - reflexivity.
  - intros Heq. apply (f_equal job_name) in Heq. simpl in Heq.
    rewrite Hname in Heq. injection Heq as Heq. contradiction.
  - reflexivity.
  - reflexivity.
  - cbn. rewrite Hname. reflexivity.
Qed.

End WithHelpers.

(** C8, witness: the store file holds one job named [  daily report  ]. *)
Lemma untrimmed_name_is_not_persisted_witness :
  let out := ensureLoaded (fun _ _ => str "Cron job") trimmedOrNothing
               (fun p => (p, false)) (fun _ jobs => jobs)
               {| nowMs := 2000%Z; writeStamp := 2001%Z |}
               {| store := None; storeLoadedAtMs := None; storeFileMtimeMs := None |}
               dailyDisk in
  option_map (map job_name) (store (fst out)) = Some [Some (JStr (str "daily report"))] /\
  writes (snd out) = 0 /\
  option_map (map job_name) (file_jobs (snd out)) = Some [Some (JStr (str "  daily report  "))].
Proof.
  pose proof (untrimmed_name_is_not_persisted (fun _ _ => str "Cron job") trimmedOrNothing
                (fun p => (p, false)) (fun _ jobs => jobs)
                {| nowMs := 2000%Z; writeStamp := 2001%Z |} dailyDisk dailyJob
                (str "  daily report  ")
                eq_refl eq_refl ltac:(vm_compute; discriminate)
                ltac:(vm_compute; discriminate) eq_refl
                ltac:(intros ms H; reflexivity)
                ltac:(intros now jobs; reflexivity)) as H.
  cbv zeta in H. destruct H as (H1 & _ & _ & H2 & _ & H3).
  cbv zeta. split; [|split].
  - rewrite H1. vm_compute. reflexivity.
  - rewrite H2. reflexivity.
  - exact H3.
Defined.

(** C7, witness: a first load of [dailyDisk], then a second call that sees
    the same modification time. *)
Lemma ensureLoaded_unchanged_mtime_is_noop_witness :
  let load := ensureLoaded (fun _ _ => str "Cron job") trimmedOrNothing
                (fun p => (p, false)) (fun _ jobs => jobs) in
  let env := {| nowMs := 2000%Z; writeStamp := 2001%Z |} in
  let st0 := {| store := None; storeLoadedAtMs := None; storeFileMtimeMs := None |} in
  let st1 := fst (load env st0 dailyDisk) in
  let d1 := snd (load env st0 dailyDisk) in
  reads d1 = 1 /\
  load {| nowMs := 9000%Z; writeStamp := 9001%Z |} st1 d1 = (st1, d1).
Proof.
  cbv zeta. split; [vm_compute; reflexivity|].
  refine (proj1 (ensureLoaded_unchanged_mtime_is_noop
            (fun _ _ => str "Cron job") trimmedOrNothing
            (fun p => (p, false)) (fun _ jobs => jobs)
            {| nowMs := 2000%Z; writeStamp := 2001%Z |}
            {| nowMs := 9000%Z; writeStamp := 9001%Z |}
            {| store := None; storeLoadedAtMs := None; storeFileMtimeMs := None |}
            dailyDisk _ _)).
  intros m c Hm Hc. vm_compute in Hm, Hc. injection Hm as <-. injection Hc as <-. lia.
Defined.

(** *** Reload and persist *)

Section Reload.

Variable inferLegacyName : option json -> option json -> jstring.
Variable normalizeOptionalText : option json -> option jstring.
Variable migrateLegacyCronPayload : json -> json * bool.
Variable recomputeNextRuns : Z -> list Job -> list Job.

Local Abbreviation normalizeJob :=
  (CronStore.normalizeJob inferLegacyName normalizeOptionalText migrateLegacyCronPayload).
Local Abbreviation normalizeJobs :=
  (CronStore.normalizeJobs inferLegacyName normalizeOptionalText migrateLegacyCronPayload).
Local Abbreviation ensureLoaded :=
  (CronStore.ensureLoaded inferLegacyName normalizeOptionalText migrateLegacyCronPayload
     recomputeNextRuns).

(** After [persist] the file holds the jobs that are in memory and the
    cached modification time is that of the file just written: the next
    [ensureLoaded] does not read the file back. *)
Theorem persist_prevents_reload (env env' : Env) (st : CronServiceState) (d : Disk) :
  store st <> None ->
  let st' := fst (persist env st d) in
  let d' := snd (persist env st d) in
  file_jobs d' = store st /\
  store st' = store st /\
  writes d' = S (writes d) /\
  storeFileMtimeMs st' = file_mtime d' /\
  ensureLoaded env' st' d' = (st', d').
Proof.
  intros Hs. cbv zeta. unfold persist.
  destruct (store st) as [jobs|] eqn:E; [|congruence].
  cbn [fst snd saveCronStore file_jobs store writes storeFileMtimeMs getFileMtimeMs
       file_mtime].
  split; [reflexivity|]. split; [reflexivity|]. split; [reflexivity|].
  split; [reflexivity|].
  unfold CronStore.ensureLoaded, needsReload, getFileMtimeMs.
  cbn [store file_mtime storeFileMtimeMs saveCronStore]. rewrite ?E, Z.ltb_irrefl.
  reflexivity.
Qed.

(** When no store is loaded, or the modification time of the file is past
    the cached one, [ensureLoaded] reads the file once, stamps the load with
    the current time, and holds the normalized jobs of the file, next runs
    recomputed. *)
Theorem ensureLoaded_reloads (env : Env) (st : CronServiceState) (d : Disk) :
  store st = None \/
  (exists m c, file_mtime d = Some m /\ storeFileMtimeMs st = Some c /\ (c < m)%Z) ->
  let st' := fst (ensureLoaded env st d) in
  let d' := snd (ensureLoaded env st d) in
  reads d' = S (reads d) /\
  storeLoadedAtMs st' = Some (nowMs env) /\
  store st' =
    Some (recomputeNextRuns (nowMs env)
            (fst (normalizeJobs (match file_jobs d with Some l => l | None => [] end)))).
Proof.
  intros H. cbv zeta.
  assert (Hn : needsReload st (getFileMtimeMs d) = true).
  { unfold needsReload, getFileMtimeMs. destruct (store st); [|reflexivity].
    destruct H as [H | (m & c & -> & -> & Hlt)]; [discriminate|].
    now apply Z.ltb_lt. }
  unfold CronStore.ensureLoaded. rewrite Hn. cbn [negb].
  unfold loadCronStore, CronStore.normalizeJobs.
  destruct (existsb _ _); cbn; repeat split.
Qed.

(** A loaded store is never reloaded when a modification time is unknown:
    when [stat] fails for the file, or when no modification time was cached
    (the file did not exist when the store was loaded and nothing was
    persisted since), [ensureLoaded] changes nothing, whatever the file
    holds by now. *)
Theorem unknown_mtime_never_reloads (env : Env) (st : CronServiceState) (d : Disk) :
  store st <> None ->
  file_mtime d = None \/ storeFileMtimeMs st = None ->
  ensureLoaded env st d = (st, d).
Proof.
  intros Hs H. unfold CronStore.ensureLoaded.
  assert (Hn : needsReload st (getFileMtimeMs d) = false).
  { unfold needsReload, getFileMtimeMs. destruct (store st); [|congruence].
    destruct H as [-> | ->]; [reflexivity|]. now destruct (file_mtime d). }
  now rewrite Hn.
Qed.

(** *** What normalization leaves alone *)

(** After normalization every job has a string as name; a non-blank name
    is kept, without the white space at its ends; and the schedule, the
    state and the other properties of the job are the ones it had. *)
Theorem normalizeJob_names_and_frame (raw : Job) :
  let job := fst (normalizeJob raw) in
  (exists n, job_name job = Some (JStr n)) /\
  (forall nameRaw, job_name raw = Some (JStr nameRaw) -> trim nameRaw <> [] ->
                   job_name job = Some (JStr (trim nameRaw))) /\
  job_schedule job = job_schedule raw /\
  nextRunAtMs job = nextRunAtMs raw /\
  job_rest job = job_rest raw.
Proof.
  cbv zeta. unfold CronStore.normalizeJob.
  destruct (match job_name raw with
            | Some (JStr nameRaw) => _
            | _ => _
            end) as [name m1] eqn:E1.
  destruct (if differs _ _ then _ else _) as [description m2].
  destruct (match job_payload raw with
            | Some (JObj ms) => _
            | _ => _
            end) as [payload m3].
  cbn [fst job_name job_schedule nextRunAtMs job_rest].
  assert (Hn : exists n, name = JStr n).
  { destruct (job_name raw) as [[| | |s| |]|]; try (injection E1 as <- _; eauto).
    destruct (length (trim s) =? 0); injection E1 as <- _; eauto. }
  destruct Hn as [n ->]. repeat split; [now exists n|].
  intros nameRaw Hr Hne. rewrite Hr in E1.
  destruct (length (trim nameRaw) =? 0) eqn:El.
  - apply Nat.eqb_eq in El. destruct (trim nameRaw); [congruence | discriminate].
  - injection E1 as <- _. reflexivity.
Qed.

(** *** Round trip *)

(** Normalizing a normalized job changes nothing and sets no flag, when the
    helpers are idempotent: the inferred name is non-empty and has no white
    space at its ends, [normalizeOptionalText] returns its own result
    unchanged, and a migrated payload needs no further migration.  So a
    store that was written back after a load is loaded again in the same
    shape, with nothing to persist. *)
Theorem normalizeJob_idempotent (raw : Job) :
  (forall s p, inferLegacyName s p <> [] /\
               trim (inferLegacyName s p) = inferLegacyName s p) ->
  (forall v, normalizeOptionalText (option_map JStr (normalizeOptionalText v)) =
             normalizeOptionalText v) ->
  (forall p p' changed, migrateLegacyCronPayload p = (p', changed) ->
                        migrateLegacyCronPayload p' = (p', false)) ->
  normalizeJob (fst (normalizeJob raw)) = (fst (normalizeJob raw), false).
Proof.
  intros Hname Hdesc Hmig.
  destruct (normalizeJob raw) as [j m] eqn:E. cbn [fst].
  assert (Hj : (exists n, job_name j = Some (JStr n) /\ n <> [] /\ trim n = n) /\
               differs (job_description j) (normalizeOptionalText (job_description j)) = false /\
               (forall ms, job_payload j = Some (JObj ms) ->
                           migrateLegacyCronPayload (JObj ms) = (JObj ms, false))).
  { unfold CronStore.normalizeJob in E.
    destruct (match job_name raw with
              | Some (JStr nameRaw) => _
              | _ => _
              end) as [name m1] eqn:E1.
    destruct (if differs _ _ then _ else _) as [description m2] eqn:E2.
    destruct (match job_payload raw with
              | Some (JObj ms) => _
              | _ => _
              end) as [payload m3] eqn:E3.
    injection E as <- _. cbn [job_name job_description job_payload].
    split; [|split].
    - assert (Hinf : forall s p, exists n,
                JStr (inferLegacyName s p) = JStr n /\ n <> [] /\ trim n = n).
      { intros s p. exists (inferLegacyName s p). destruct (Hname s p). auto. }
      destruct (job_name raw) as [[| | |s| |]|];
        try (injection E1 as <- _; destruct (Hinf (job_schedule raw) (job_payload raw))
               as (n & -> & H1 & H2); exists n; auto).
      destruct (length (trim s) =? 0) eqn:El; injection E1 as <- _.
      + destruct (Hinf (job_schedule raw) (job_payload raw)) as (n & -> & H1 & H2).
        exists n. auto.
      + exists (trim s). repeat split; [|apply JsFacts.trim_idem].
        intros Hn. rewrite Hn in El. discriminate.
    - destruct (differs (job_description raw) (normalizeOptionalText (job_description raw)))
        eqn:Ed; injection E2 as <- _.
      + rewrite Hdesc. destruct (normalizeOptionalText (job_description raw)); cbn;
          [now rewrite JsFacts.eqb_refl | reflexivity].
      + exact Ed.
    - intros ms Hp. destruct (job_payload raw) as [[| | | | |ms0]|];
        try (injection E3 as <- _; discriminate).
      destruct (migrateLegacyCronPayload (JObj ms0)) as [p' ch] eqn:Em.
      injection E3 as <- _. injection Hp as ->. exact (Hmig _ _ _ Em). }
  destruct Hj as ((n & Hn & Hne & Htrim) & Hd & Hp).
  unfold CronStore.normalizeJob. rewrite Hn, Htrim, Hd.
  assert (Hl : (length n =? 0) = false) by (destruct n; [congruence | reflexivity]).
  rewrite Hl.
  destruct j as [jn jd js jp jnx jr]. cbn in *. subst jn.
  destruct jp as [[| | | | |ms]|]; try reflexivity.
  rewrite (Hp ms eq_refl). reflexivity.
Qed.

End Reload.

Lemma normalizeJob_names_and_frame_witness :
  job_name (fst (CronStore.normalizeJob (fun _ _ => str "Cron job") trimmedOrNothing
                   (fun p => (p, false)) dailyJob)) =
  Some (JStr (str "daily report")).
Proof.
  destruct (normalizeJob_names_and_frame (fun _ _ => str "Cron job") trimmedOrNothing
              (fun p => (p, false)) dailyJob) as (_ & H & _).
  rewrite (H (str "  daily report  ") eq_refl ltac:(vm_compute; discriminate)).
  vm_compute. reflexivity.
Defined.

Lemma normalizeJob_idempotent_witness :
  CronStore.normalizeJob (fun _ _ => str "Cron job") trimmedOrNothing (fun p => (p, false))
    (fst (CronStore.normalizeJob (fun _ _ => str "Cron job") trimmedOrNothing
            (fun p => (p, false)) dailyJob)) =
  (fst (CronStore.normalizeJob (fun _ _ => str "Cron job") trimmedOrNothing
          (fun p => (p, false)) dailyJob), false).
Proof.
  apply (normalizeJob_idempotent (fun _ _ => str "Cron job") trimmedOrNothing
           (fun p => (p, false)) dailyJob).
  - intros s p. split; [discriminate | vm_compute; reflexivity].
  - intros [[| | |s| |]|]; try reflexivity. cbn.
    destruct (truthy (trim s)) eqn:E; cbn; [|reflexivity].
    now rewrite JsFacts.trim_idem, E.
  - intros p p' changed H. injection H as <- _. reflexivity.
Defined.

Lemma persist_prevents_reload_witness :
  let load := CronStore.ensureLoaded (fun _ _ => str "Cron job") trimmedOrNothing
                (fun p => (p, false)) (fun _ jobs => jobs) in
  let env := {| nowMs := 2000%Z; writeStamp := 2001%Z |} in
  let st := {| store := Some [dailyJob]; storeLoadedAtMs := Some 1500%Z;
               storeFileMtimeMs := Some 1000%Z |} in
  load env (fst (persist env st dailyDisk)) (snd (persist env st dailyDisk)) =
  (fst (persist env st dailyDisk), snd (persist env st dailyDisk)).
Proof.
  cbv zeta.
  exact (proj2 (proj2 (proj2 (proj2
    (persist_prevents_reload (fun _ _ => str "Cron job") trimmedOrNothing
       (fun p => (p, false)) (fun _ jobs => jobs)
       {| nowMs := 2000%Z; writeStamp := 2001%Z |} {| nowMs := 2000%Z; writeStamp := 2001%Z |}
       {| store := Some [dailyJob]; storeLoadedAtMs := Some 1500%Z;
          storeFileMtimeMs := Some 1000%Z |}
       dailyDisk ltac:(discriminate)))))).
Defined.

Lemma ensureLoaded_reloads_witness :
  reads (snd (CronStore.ensureLoaded (fun _ _ => str "Cron job") trimmedOrNothing
                (fun p => (p, false)) (fun _ jobs => jobs)
                {| nowMs := 2000%Z; writeStamp := 2001%Z |}
                {| store := Some []; storeLoadedAtMs := Some 500%Z;
                   storeFileMtimeMs := Some 900%Z |}
                dailyDisk)) = 1.
Proof.
  exact (proj1 (ensureLoaded_reloads (fun _ _ => str "Cron job") trimmedOrNothing
                  (fun p => (p, false)) (fun _ jobs => jobs)
                  {| nowMs := 2000%Z; writeStamp := 2001%Z |}
                  {| store := Some []; storeLoadedAtMs := Some 500%Z;
                     storeFileMtimeMs := Some 900%Z |}
                  dailyDisk
                  (or_intror (ex_intro _ 1000%Z (ex_intro _ 900%Z
                     (conj eq_refl (conj eq_refl eq_refl))))))).
Defined.

Lemma unknown_mtime_never_reloads_witness :
  CronStore.ensureLoaded (fun _ _ => str "Cron job") trimmedOrNothing
    (fun p => (p, false)) (fun _ jobs => jobs)
    {| nowMs := 2000%Z; writeStamp := 2001%Z |}
    {| store := Some []; storeLoadedAtMs := Some 500%Z; storeFileMtimeMs := None |}
    dailyDisk =
  ({| store := Some []; storeLoadedAtMs := Some 500%Z; storeFileMtimeMs := None |},
   dailyDisk).
Proof.
  apply (unknown_mtime_never_reloads (fun _ _ => str "Cron job") trimmedOrNothing
           (fun p => (p, false)) (fun _ jobs => jobs)).
  - discriminate.
  - right. reflexivity.
Defined.

(** *** The warning *)

(** However often [warnIfDisabled] is called, it warns at most once, and
    never when cron is enabled: after [n] calls the number of warnings has
    grown by one if cron is disabled, no warning was given before and
    [n] is positive, and not at all otherwise. *)
Theorem warnIfDisabled_warns_once (n : nat) (s : Warner) :
  warnings (Nat.iter n warnIfDisabled s) =
  warnings s
  + (if cronEnabled s || warnedDisabled s || (n =? 0) then 0 else 1).
Proof.
  assert (Hstable : forall k t, cronEnabled t || warnedDisabled t = true ->
                                Nat.iter k warnIfDisabled t = t).
  { induction k as [|k IH]; intros t Ht; [reflexivity|].
    rewrite Nat.iter_succ, (IH t Ht). unfold warnIfDisabled.
    destruct (cronEnabled t); [reflexivity|]. cbn in Ht. now rewrite Ht. }
  destruct (cronEnabled s || warnedDisabled s) eqn:E.
  - rewrite (Hstable n s E). cbn. lia.
  - destruct n as [|n]; [cbn; lia|]. cbn [Nat.eqb orb].
    rewrite Nat.iter_succ_r.
    apply orb_false_iff in E. destruct E as [E1 E2].
    unfold warnIfDisabled at 2. rewrite E1, E2.
    rewrite Hstable; [cbn; lia|]. cbn [cronEnabled warnedDisabled]. apply orb_true_r.
Qed.

End CronStoreFacts.
